(** * Solar-Simu: stellar life-cycle and binary mass-transfer engine

    A shallow embedding of the simulation core of [src/app.js]
    (physical relations, star record, Roche-lobe overflow, mass transfer,
    time integration, clock scaling) and the properties stated about it.

    Number model.  A JavaScript number is modelled as a real number:
    arithmetic is exact, there is no rounding, no infinity and no NaN.
    [Math.pow] is modelled on positive bases, [Math.log] on positive
    arguments; every call site of the engine feeds them such arguments
    (masses are positive, the Roche-lobe ratio is clamped).  The
    properties stated over this model are comparisons, clamps, bounds
    with a margin and equations between the expressions the code itself
    evaluates; what depends on the rounding of IEEE doubles is stated on
    doubles, in [Module Double].

    Exceptions.  The only calls of the program that can throw are the
    canvas calls of the draw pass.  A function of the model returns the
    state its call leaves, whether the call returns or throws; a
    companion function tells which ([updateUI_throws],
    [advanceTime_throws]). *)

From Stdlib Require Import Reals Lra List Bool.
From Stdlib Require String DecimalString Floats.
Import ListNotations.
Open Scope R_scope.

(** ** JavaScript number primitives *)

Module Num.

Definition ltb (x y : R) : bool := if Rlt_dec x y then true else false.
Definition leb (x y : R) : bool := if Rle_dec x y then true else false.
Definition gtb (x y : R) : bool := ltb y x.
Definition geb (x y : R) : bool := leb y x.

(** [!x] on a number: only zero is falsy (NaN is outside the model). *)
Definition falsy (x : R) : bool := if Req_dec_T x 0 then true else false.

Definition Math_max (a b : R) : R := Rmax a b.
Definition Math_min (a b : R) : R := Rmin a b.

(** [Math.pow(x, y)] for a positive base [x]. *)
Definition Math_pow (x y : R) : R := Rpower x y.

(** [Math.log(x)] for a positive [x]. *)
Definition Math_log (x : R) : R := ln x.

(** [Math.cbrt(x)]: the real cube root, odd in its argument. *)
Definition Math_cbrt (x : R) : R :=
  if Rlt_dec 0 x then Rpower x (/ 3)
  else if Rlt_dec x 0 then - Rpower (- x) (/ 3)
  else 0.

End Num.
Import Num.

(** ** Units and constants (lines 5-13) *)

Definition YEAR : R := 1.
Definition MYR : R := 1e6 * YEAR.
Definition GYR : R := 1e9 * YEAR.

Definition WD_MAX : R := 8.
Definition NS_MAX : R := 20.

(** ** Data model *)

(** The three strings [fateForMass] returns. *)
Inductive Fate : Type := WhiteDwarf | NeutronStar | BlackHole.

(** The strings [stageForStar] returns: a phase label, or the fate string. *)
Inductive Stage : Type :=
| Protostar
| MainSequence
| Giant
| Supergiant
| Remnant (f : Fate).

(** The object literal built by [makeStar]. *)
Record Star : Type := mkStar {
  massInitial : R;
  massCurrent : R;
  age : R;
  tProtostar : R;
  tMS : R;
  tGiant : R;
  tTotal : R;
  ended : bool;
  fate : Fate;
  collapseAnimating : bool;
  collapseProgress : R;
  justEnded : bool;
  hadSupernova : bool
}.

(** An entry of [state.explosions]; the world position and the colour,
    which only the canvas reads, are left out. *)
Record Explosion : Type := mkExplosion {
  ageMs : R;
  durationMs : R;
  alive : bool
}.

(** The [state] object, without the camera and the background stars, and
    with the module-level [lastTs] of the animation loop.  [star1] and
    [star2] are never the same object (every assignment stores a fresh
    result of [makeStar]), so the record holds the two stars by value. *)
Record State : Type := mkState {
  running : bool;
  t : R;
  speed : R;
  star1 : Star;
  star2 : Star;
  binary : bool;
  separationAU : R;
  transferRatePerYear : R;
  explosions : list Explosion;
  lastTs : R
}.

(** Field updates, one per assignment form used by the source. *)
Definition set_age (v : R) (s : Star) : Star :=
  mkStar (massInitial s) (massCurrent s) v (tProtostar s) (tMS s) (tGiant s)
         (tTotal s) (ended s) (fate s) (collapseAnimating s)
         (collapseProgress s) (justEnded s) (hadSupernova s).

Definition set_massCurrent (v : R) (s : Star) : Star :=
  mkStar (massInitial s) v (age s) (tProtostar s) (tMS s) (tGiant s)
         (tTotal s) (ended s) (fate s) (collapseAnimating s)
         (collapseProgress s) (justEnded s) (hadSupernova s).

Definition set_fate (f : Fate) (s : Star) : Star :=
  mkStar (massInitial s) (massCurrent s) (age s) (tProtostar s) (tMS s)
         (tGiant s) (tTotal s) (ended s) f (collapseAnimating s)
         (collapseProgress s) (justEnded s) (hadSupernova s).

Definition set_times (tp tm tg tt : R) (s : Star) : Star :=
  mkStar (massInitial s) (massCurrent s) (age s) tp tm tg tt (ended s)
         (fate s) (collapseAnimating s) (collapseProgress s) (justEnded s)
         (hadSupernova s).

Definition set_ended (b : bool) (s : Star) : Star :=
  mkStar (massInitial s) (massCurrent s) (age s) (tProtostar s) (tMS s)
         (tGiant s) (tTotal s) b (fate s) (collapseAnimating s)
         (collapseProgress s) (justEnded s) (hadSupernova s).

Definition set_collapse (anim : bool) (progress : R) (s : Star) : Star :=
  mkStar (massInitial s) (massCurrent s) (age s) (tProtostar s) (tMS s)
         (tGiant s) (tTotal s) (ended s) (fate s) anim progress
         (justEnded s) (hadSupernova s).

Definition set_justEnded (b : bool) (s : Star) : Star :=
  mkStar (massInitial s) (massCurrent s) (age s) (tProtostar s) (tMS s)
         (tGiant s) (tTotal s) (ended s) (fate s) (collapseAnimating s)
         (collapseProgress s) b (hadSupernova s).

Definition set_hadSupernova (b : bool) (s : Star) : Star :=
  mkStar (massInitial s) (massCurrent s) (age s) (tProtostar s) (tMS s)
         (tGiant s) (tTotal s) (ended s) (fate s) (collapseAnimating s)
         (collapseProgress s) (justEnded s) b.

Definition set_stars (a b : Star) (st : State) : State :=
  mkState (running st) (t st) (speed st) a b (binary st) (separationAU st)
          (transferRatePerYear st) (explosions st) (lastTs st).

Definition set_star1 (a : Star) (st : State) : State :=
  set_stars a (star2 st) st.

Definition set_star2 (b : Star) (st : State) : State :=
  set_stars (star1 st) b st.

Definition set_t (v : R) (st : State) : State :=
  mkState (running st) v (speed st) (star1 st) (star2 st) (binary st)
          (separationAU st) (transferRatePerYear st) (explosions st)
          (lastTs st).

Definition set_separationAU (v : R) (st : State) : State :=
  mkState (running st) (t st) (speed st) (star1 st) (star2 st) (binary st)
          v (transferRatePerYear st) (explosions st) (lastTs st).

Definition set_transferRatePerYear (v : R) (st : State) : State :=
  mkState (running st) (t st) (speed st) (star1 st) (star2 st) (binary st)
          (separationAU st) v (explosions st) (lastTs st).

Definition set_explosions (l : list Explosion) (st : State) : State :=
  mkState (running st) (t st) (speed st) (star1 st) (star2 st) (binary st)
          (separationAU st) (transferRatePerYear st) l (lastTs st).

Definition set_lastTs (v : R) (st : State) : State :=
  mkState (running st) (t st) (speed st) (star1 st) (star2 st) (binary st)
          (separationAU st) (transferRatePerYear st) (explosions st) v.

Definition set_running (b : bool) (st : State) : State :=
  mkState b (t st) (speed st) (star1 st) (star2 st) (binary st)
          (separationAU st) (transferRatePerYear st) (explosions st)
          (lastTs st).

Definition set_speed (v : R) (st : State) : State :=
  mkState (running st) (t st) v (star1 st) (star2 st) (binary st)
          (separationAU st) (transferRatePerYear st) (explosions st)
          (lastTs st).

Definition set_binary (b : bool) (st : State) : State :=
  mkState (running st) (t st) (speed st) (star1 st) (star2 st) b
          (separationAU st) (transferRatePerYear st) (explosions st)
          (lastTs st).

(** ** Stellar relations (lines 80-118) *)

Definition clamp (v min max : R) : R := Math_max min (Math_min max v).

Definition msLifetimeYears (mass : R) : R :=
  10 * GYR * Math_pow mass (-2.5).

Definition luminosityLsun (mass : R) : R :=
  clamp (Math_pow mass 3.5) 0.001 1e6.

Definition radiusRsun (mass : R) : R :=
  clamp (Math_pow mass 0.8) 0.05 2000.

Definition temperatureK (l r : R) : R :=
  let ratio := Math_pow (l / Math_pow r 2) 0.25 in
  clamp (5772 * ratio) 2000 60000.

Definition fateForMass (mass : R) : Fate :=
  if ltb mass WD_MAX then WhiteDwarf
  else if ltb mass NS_MAX then NeutronStar
  else BlackHole.

(** ** Star construction and stage (lines 120-159) *)

Definition makeStar (initialMass : R) : Star :=
  let mass := clamp initialMass 0.1 50 in
  let tMS := msLifetimeYears mass in
  let tProtostar := tMS * 0.01 in
  let tGiant := tMS * 0.1 in
  let total := tProtostar + tMS + tGiant in
  {| massInitial := mass;
     massCurrent := mass;
     age := 0;
     tProtostar := tProtostar;
     tMS := tMS;
     tGiant := tGiant;
     tTotal := total;
     ended := false;
     fate := fateForMass mass;
     collapseAnimating := false;
     collapseProgress := 0;
     justEnded := false;
     hadSupernova := false |}.

Definition stageForStar (star : Star) : Stage :=
  if ended star then Remnant (fate star)
  else if ltb (age star) (tProtostar star) then Protostar
  else if ltb (age star) (tProtostar star + tMS star) then MainSequence
  else if ltb (age star) (tTotal star) then
    (if geb (massInitial star) 8 then Supergiant else Giant)
  else Remnant (fate star).

(** [updateStarParams] (lines 145-151): the derived display quantities. *)
Definition updateStarParams (star : Star) : R * R * R * Stage :=
  let L := luminosityLsun (massCurrent star) in
  let Rs := radiusRsun (massCurrent star) in
  let T := temperatureK L Rs in
  let stage := stageForStar star in
  (L, Rs, T, stage).

(** ** Binary helpers (lines 161-225) *)

Definition rocheLobeRadiusAU (mDonor mAccretor separationAU : R) : R :=
  let q := clamp (mDonor / mAccretor) 1e-3 1e3 in
  let q13 := Math_cbrt q in
  let q23 := q13 * q13 in
  let rlOverA := 0.49 * q23 / (0.6 * q23 + Math_log (1 + q13)) in
  rlOverA * separationAU.

Definition stellarRadiusAU (Rsun : R) : R := Rsun / 215.

(** The closure [resetStarTimes] of [transferMass]: the phase durations
    are recomputed from the current mass, the age is not touched. *)
Definition resetStarTimes (star : Star) : Star :=
  let tMS := msLifetimeYears (massCurrent star) in
  let tProtostar := tMS * 0.01 in
  let tGiant := tMS * 0.1 in
  set_times tProtostar tMS tGiant (tProtostar + tMS + tGiant) star.

(** [transferMass(donor, accretor, dm)]: the two objects are mutated in
    place; the pair returned is (donor, accretor) after the call. *)
Definition transferMass (donor accretor : Star) (dm : R) : Star * Star :=
  let maxTransfer := Math_min dm (massCurrent donor - 0.1) in
  if leb maxTransfer 0 then (donor, accretor)
  else
    let donor := set_massCurrent (massCurrent donor - maxTransfer) donor in
    let accretor :=
      set_massCurrent (massCurrent accretor + maxTransfer) accretor in
    let donor := set_fate (fateForMass (massCurrent donor)) donor in
    let accretor := set_fate (fateForMass (massCurrent accretor)) accretor in
    (resetStarTimes donor, resetStarTimes accretor).

(** The two overfill tests of [doMassTransfer]. *)
Definition overfill1 (st : State) : bool :=
  let s1 := star1 st in
  let s2 := star2 st in
  let R1AU := stellarRadiusAU (radiusRsun (massCurrent s1)) in
  let RL1 :=
    rocheLobeRadiusAU (massCurrent s1) (massCurrent s2) (separationAU st) in
  gtb R1AU RL1.

Definition overfill2 (st : State) : bool :=
  let s1 := star1 st in
  let s2 := star2 st in
  let R2AU := stellarRadiusAU (radiusRsun (massCurrent s2)) in
  let RL2 :=
    rocheLobeRadiusAU (massCurrent s2) (massCurrent s1) (separationAU st) in
  gtb R2AU RL2.

Definition doMassTransfer (dtYears : R) (st : State) : State :=
  if negb (binary st) then st
  else
    let s1 := star1 st in
    let s2 := star2 st in
    let rate := transferRatePerYear st in
    if negb (ended s1) && negb (ended s2) then
      if overfill1 st && negb (overfill2 st) then
        let dm := rate * dtYears in
        let '(d, a) := transferMass s1 s2 dm in
        set_stars d a st
      else if overfill2 st && negb (overfill1 st) then
        let dm := rate * dtYears in
        let '(d, a) := transferMass s2 s1 dm in
        set_stars a d st
      else st
    else st.

(** ** Supernova bookkeeping and the draw pass
       (lines 270-299, 373-397, 503-519) *)

Definition startSupernova (ex : list Explosion) : list Explosion :=
  ex ++ [ {| ageMs := 0; durationMs := 2500; alive := true |} ].

Definition updateExplosions (dtMs : R) (ex : list Explosion)
  : list Explosion :=
  let step e :=
    let a := ageMs e + dtMs in
    {| ageMs := a;
       durationMs := durationMs e;
       alive := if geb a (durationMs e) then false else alive e |} in
  filter alive (map step ex).

(** ** Colours and canvas gradients (lines 301-316, 399-500)

    Of a canvas call the model keeps one thing: whether it returns or
    throws.  [CanvasGradient.addColorStop] throws a SyntaxError when its
    colour does not parse as a CSS colour (HTML standard, section on
    canvas gradients).  [createRadialGradient] and [arc] throw only for a
    negative radius, and every radius this program hands them is a
    [Math.max] with a positive number or a product of numbers that are
    not negative.  Assigning [fillStyle] or [strokeStyle] never throws:
    an invalid value is ignored. *)

Module Paint.
Import String.
Local Open Scope string_scope.

Fixpoint skip (n : nat) (s : string) : string :=
  match n, s with
  | O, _ => s
  | S n', String _ s' => skip n' s'
  | S _, EmptyString => EmptyString
  end.

(** [s.replace(pattern, replacement)] with a string pattern: the first
    occurrence of the pattern is replaced, the rest is kept. *)
Fixpoint replace (pattern replacement s : string) : string :=
  if prefix pattern s then replacement ++ skip (length pattern) s
  else
    match s with
    | EmptyString => EmptyString
    | String c s' => String c (replace pattern replacement s')
    end.

(** Whether a string parses as a CSS colour, for the forms this program
    writes: a hex colour and the functional notations [rgb(] and
    [rgba(].  No other function name the program can produce is a CSS
    colour function. *)
Definition cssColor (s : string) : bool :=
  prefix "#" s || prefix "rgb(" s || prefix "rgba(" s.

(** [gradient.addColorStop(offset, color)]: [true] when the call
    returns, [false] when it throws. *)
Definition addColorStop (color : string) : bool := cssColor color.

(** [Math.round]: the nearest integer, halves upwards. *)
Definition Math_round (x : R) : R := IZR (Int_part (x + 0.5)).

(** The text of a number in a template literal; it is only used on the
    integers 0 .. 255 that [colorForTemp] computes. *)
Definition numberText (x : R) : string :=
  DecimalString.NilZero.string_of_int (Z.to_int (Int_part x)).

Definition colorForTemp (T : R) : string :=
  let temp := clamp (T / 100) 10 400 in
  let r :=
    if Num.leb temp 66 then 255
    else 329.698727446 * Math_pow (temp - 60) (-0.1332047592) in
  let g :=
    if Num.leb temp 66 then 99.4708025861 * Math_log temp - 161.1195681661
    else 288.1221695283 * Math_pow (temp - 60) (-0.0755148492) in
  let b :=
    if Num.geb temp 66 then 255
    else if Num.leb temp 19 then 0
    else 138.5177312231 * Math_log (temp - 10) - 305.0447927307 in
  let r := clamp (Math_round r) 0 255 in
  let g := clamp (Math_round g) 0 255 in
  let b := clamp (Math_round b) 0 255 in
  "rgb(" ++ numberText r ++ "," ++ numberText g ++ "," ++ numberText b
  ++ ")".

(** [drawMultiGlow(cx, cy, radius, color)]: the three colour stops of
    its gradient; the second is built from [color] by two [replace]
    calls. *)
Definition drawMultiGlow (color : string) : bool :=
  addColorStop color
  && addColorStop (replace ")" ",0.8)" (replace "rgb" "rgba" color))
  && addColorStop "rgba(255,255,255,0)".

Definition drawPhotosphere (color : string) : bool :=
  addColorStop "rgba(255,255,255,0.9)"
  && addColorStop color
  && addColorStop "rgba(0,0,0,0.2)".

(** [drawCompactObject(star, cx, cy, sizePx)]: a glow for a white dwarf
    and for a neutron star, a gradient ring for a black hole. *)
Definition drawCompactObject (star : Star) : bool :=
  match fate star with
  | WhiteDwarf => drawMultiGlow "rgba(180,210,255,0.7)"
  | NeutronStar => drawMultiGlow "rgba(199,125,255,0.8)"
  | BlackHole =>
      addColorStop "rgba(255,180,120,0.0)"
      && addColorStop "rgba(255,120,80,0.8)"
      && addColorStop "rgba(255,220,160,0.0)"
  end.

End Paint.

(** Lines 389-396 of [drawStarAtWorld]: the one-shot [justEnded] flag is
    consumed, and a supernova is started for a massive star that has had
    none. *)
Definition triggerSupernova (star : Star) (ex : list Explosion)
  : Star * list Explosion :=
  if justEnded star then
    let '(star, ex) :=
      if geb (massInitial star) 8 && negb (hadSupernova star)
      then (set_hadSupernova true star, startSupernova ex)
      else (star, ex) in
    (set_justEnded false star, ex)
  else (star, ex).

(** Lines 379-386 of [drawStarAtWorld]: [true] when the star is painted,
    [false] when one of the canvas calls throws. *)
Definition paintStar (star : Star) : bool :=
  let '(_, _, T, _) := updateStarParams star in
  let color := Paint.colorForTemp T in
  if ended star then Paint.drawCompactObject star
  else Paint.drawMultiGlow color && Paint.drawPhotosphere color.

(** [drawStarAtWorld]: the star and [state.explosions] after the call
    when it returns; [None] when it throws, which happens before
    anything is assigned. *)
Definition drawStarAtWorld (star : Star) (ex : list Explosion)
  : option (Star * list Explosion) :=
  if paintStar star then Some (triggerSupernova star ex) else None.

(** How a call ends: it returns, or it throws.  Either way the state
    holds what was assigned up to that point. *)
Inductive Completion : Type :=
| Returns (st : State)
| Throws (st : State).

Definition state_of (c : Completion) : State :=
  match c with Returns st | Throws st => st end.

Definition thrown (c : Completion) : bool :=
  match c with Returns _ => false | Throws _ => true end.

(** [drawStars]: the stars are drawn in order, and a star is not drawn
    when the one before it has thrown.  The starfield, the Roche lobes
    and the explosions neither throw nor write the state. *)
Definition drawStars (st : State) : Completion :=
  if negb (binary st) then
    match drawStarAtWorld (star1 st) (explosions st) with
    | None => Throws st
    | Some (s1, ex) => Returns (set_explosions ex (set_star1 s1 st))
    end
  else
    match drawStarAtWorld (star1 st) (explosions st) with
    | None => Throws st
    | Some (s1, ex) =>
        match drawStarAtWorld (star2 st) ex with
        | None => Throws (set_explosions ex (set_star1 s1 st))
        | Some (s2, ex) => Returns (set_explosions ex (set_stars s1 s2 st))
        end
    end.

(** [updateUI] writes the read-outs and redraws; only the draw pass
    changes the simulation state, nothing after it does, and in every
    caller [updateUI()] is the last statement.  So the state a call of
    [updateUI], or of one of its callers, leaves is the state
    [drawStars] leaves, whether it returns or throws. *)
Definition updateUI (st : State) : State := state_of (drawStars st).

Definition updateUI_throws (st : State) : bool := thrown (drawStars st).

(** ** Time integration (lines 629-685, 688-730) *)

(** The body of the [for (const star of stars)] loop of [advanceTime]. *)
Definition ageStar (dtYears dtMs : R) (star : Star) : Star :=
  if negb (ended star) then
    let star := set_age (age star + dtYears) star in
    if geb (age star) (tTotal star) then
      let star := set_age (tTotal star) star in
      let star := set_ended true star in
      let star := set_collapse true 0 star in
      set_justEnded true star
    else star
  else if collapseAnimating star then
    let star :=
      set_collapse (collapseAnimating star)
                   (collapseProgress star + dtMs / 2000) star in
    if geb (collapseProgress star) 1 then set_collapse false 1 star
    else star
  else star.

(** The loop itself, over [state.star1] and, in binary mode,
    [state.star2]; [state.t] is advanced first. *)
Definition ageStars (dtYears dtMs : R) (st : State) : State :=
  let st := set_t (t st + dtYears) st in
  let st := set_star1 (ageStar dtYears dtMs (star1 st)) st in
  if binary st then set_star2 (ageStar dtYears dtMs (star2 st)) st
  else st.

(** [advanceTime] up to and including [doMassTransfer]: the state that
    the explosion update and the draw pass then receive. *)
Definition integrate (dtYears dtMs : R) (st : State) : State :=
  doMassTransfer dtYears (ageStars dtYears dtMs st).

Definition advanceTime (dtYears dtMs : R) (st : State) : State :=
  let st := integrate dtYears dtMs st in
  let st := set_explosions (updateExplosions dtMs (explosions st)) st in
  updateUI st.

(** Whether that call of [advanceTime] throws. *)
Definition advanceTime_throws (dtYears dtMs : R) (st : State) : bool :=
  let st := integrate dtYears dtMs st in
  let st := set_explosions (updateExplosions dtMs (explosions st)) st in
  updateUI_throws st.

(** The simulated-year step computed by [tick] from the frame delta;
    [autoScale] is the state of the auto-scale check box. *)
Definition dtYearsOf (autoScale : bool) (st : State) (dtMs : R) : R :=
  let s1 := star1 st in
  let lifetime := tTotal s1 in
  if autoScale then
    let secondsForLifetime := 60 in
    let yearsPerSecond := lifetime / secondsForLifetime in
    (dtMs / 1000) * yearsPerSecond
  else (dtMs / 1000) * speed st * 1e7.

(** One animation frame at time stamp [ts]. *)
Definition tick (autoScale : bool) (ts : R) (st : State) : State :=
  if negb (running st) then st
  else
    let st := if falsy (lastTs st) then set_lastTs ts st else st in
    let dtMs := ts - lastTs st in
    let st := set_lastTs ts st in
    let dtYears := dtYearsOf autoScale st dtMs in
    advanceTime dtYears dtMs st.

(** ** Scrubbing and the input handlers (lines 739-832, 963-1014) *)

Definition setSimulationAge (ageYears : R) (st : State) : State :=
  let st :=
    set_star1 (set_age (clamp ageYears 0 (tTotal (star1 st))) (star1 st)) st in
  let st :=
    if binary st then
      set_star2 (set_age (clamp ageYears 0 (tTotal (star2 st))) (star2 st)) st
    else st in
  updateUI st.

(** [onFromEvent] of [wireTimelineInteractivity]: [x] is the horizontal
    position of the pointer as a fraction of the timeline width. *)
Definition onTimeline (x : R) (st : State) : State :=
  let frac := clamp x 0 1 in
  let age := frac * tTotal (star1 st) in
  setSimulationAge age st.

(** The handlers of the numeric controls, on the parsed value. *)
Definition onMassPrimaryInput (m : R) (st : State) : State :=
  let st := set_star1 (makeStar m) st in
  let st :=
    if negb (binary st) then
      set_star2 (makeStar (massCurrent (star2 st))) st
    else st in
  updateUI st.

Definition onMassPrimaryChange (parsed : R) (st : State) : State :=
  let v := clamp parsed 0.1 50 in
  updateUI (set_star1 (makeStar v) st).

Definition onMassSecondaryInput (m : R) (st : State) : State :=
  updateUI (set_star2 (makeStar m) st).

Definition onMassSecondaryChange (parsed : R) (st : State) : State :=
  let v := clamp parsed 0.1 50 in
  updateUI (set_star2 (makeStar v) st).

(** [applySep] and the [change] handler of the separation box store the
    same value. *)
Definition onSeparation (parsed : R) (st : State) : State :=
  let v := clamp parsed 0.01 10 in
  updateUI (set_separationAU v st).

(** [applyRate] and the [change] handler of the rate box. *)
Definition onTransferRate (parsed : R) (st : State) : State :=
  let v := clamp parsed 0 0.2 in
  set_transferRatePerYear (v / MYR) st.

Definition onSpeed (v : R) (st : State) : State := set_speed v st.

Definition onBinaryToggle (checked : bool) (st : State) : State :=
  updateUI (set_binary checked st).

Definition onPlayPause (st : State) : State :=
  let st := set_running (negb (running st)) st in
  if running st then set_lastTs 0 st else st.

(** The reset button; [m1] and [m2] are the values of the two sliders. *)
Definition onReset (m1 m2 : R) (st : State) : State :=
  let st := set_stars (makeStar m1) (makeStar m2) st in
  let st := set_t 0 st in
  let st := set_running false st in
  updateUI st.

Inductive Preset : Type := RedDwarf | Sun | Massive | BinaryRlof.

Definition applyPreset (name : Preset) (st : State) : State :=
  let st :=
    match name with
    | RedDwarf => set_binary false (set_star1 (makeStar 0.2) st)
    | Sun => set_binary false (set_star1 (makeStar 1.0) st)
    | Massive => set_binary false (set_star1 (makeStar 20) st)
    | BinaryRlof =>
        let st := set_star1 (makeStar 1.2) st in
        let st := set_binary true st in
        let st := set_star2 (makeStar 0.8) st in
        let st := set_separationAU 0.2 st in
        set_transferRatePerYear (0.02 / MYR) st
    end in
  let st := set_t 0 st in
  let st := set_running false st in
  updateUI st.

(** The initial [state] literal (lines 55-77). *)
Definition initialState : State :=
  {| running := false;
     t := 0;
     speed := 10;
     star1 := makeStar 1.0;
     star2 := makeStar 0.8;
     binary := false;
     separationAU := 0.5;
     transferRatePerYear := 0.01 / MYR;
     explosions := [];
     lastTs := 0 |}.

(** ** Runs of the simulation

    Everything that changes [state]: the events wired by [wireEvents] and
    [wireTimelineInteractivity], the animation frame, and the two entry
    points [advanceTime] and [setSimulationAge] called on their own. *)
Inductive Event : Type :=
| MassPrimaryInput (m : R)
| MassPrimaryChange (parsed : R)
| MassSecondaryInput (m : R)
| MassSecondaryChange (parsed : R)
| BinaryToggle (checked : bool)
| Separation (parsed : R)
| TransferRate (parsed : R)
| Speed (v : R)
| PlayPause
| Reset (m1 m2 : R)
| PresetClick (name : Preset)
| Frame (autoScale : bool) (ts : R)
| Timeline (x : R)
| Advance (dtYears dtMs : R)
| SetAge (ageYears : R).

Definition handle (e : Event) (st : State) : State :=
  match e with
  | MassPrimaryInput m => onMassPrimaryInput m st
  | MassPrimaryChange v => onMassPrimaryChange v st
  | MassSecondaryInput m => onMassSecondaryInput m st
  | MassSecondaryChange v => onMassSecondaryChange v st
  | BinaryToggle b => onBinaryToggle b st
  | Separation v => onSeparation v st
  | TransferRate v => onTransferRate v st
  | Speed v => onSpeed v st
  | PlayPause => onPlayPause st
  | Reset m1 m2 => onReset m1 m2 st
  | PresetClick p => applyPreset p st
  | Frame a ts => tick a ts st
  | Timeline x => onTimeline x st
  | Advance dtYears dtMs => advanceTime dtYears dtMs st
  | SetAge a => setSimulationAge a st
  end.

(** The state after the events of [es], oldest first. *)
Definition run (es : list Event) (st : State) : State :=
  fold_left (fun s e => handle e s) es st.

(** The star an index of the [stars] array of [advanceTime] denotes, and
    whether the array holds it. *)
Inductive Which : Type := Primary | Secondary.

Definition star_of (w : Which) (st : State) : Star :=
  match w with Primary => star1 st | Secondary => star2 st end.

Definition active (w : Which) (st : State) : bool :=
  match w with Primary => true | Secondary => binary st end.

(** The relation between the phase durations that [makeStar] and
    [resetStarTimes] establish. *)
Definition phases_ok (s : Star) : Prop :=
  tTotal s = tProtostar s + tMS s + tGiant s /\
  tProtostar s = 0.01 * tMS s /\
  tGiant s = 0.10 * tMS s.

(** A close binary entered through the controls: 8 and 1 solar masses,
    0.03 AU apart, at the highest transfer rate. *)
Definition rlofEvents : list Event :=
  [ MassPrimaryChange 8; MassSecondaryChange 1; BinaryToggle true;
    Separation 0.03; TransferRate 0.2 ].

Definition rlofState : State := run rlofEvents initialState.

(** A running simulation whose previous frame was stamped 1000 ms. *)
Definition playingState : State :=
  set_lastTs 1000 (set_running true initialState).

(** A predicate on stars that holds of both stars of a state. *)
Definition both (P : Star -> Prop) (st : State) : Prop :=
  P (star1 st) /\ P (star2 st).

(** A star of positive mass with a positive main-sequence duration:
    what [makeStar] builds and [transferMass] keeps. *)
Definition tMS_pos (s : Star) : Prop :=
  0 < massCurrent s /\ 0 < tMS s.

(** What "recomputed from the current mass" means for a star. *)
Definition recomputed (s : Star) : Prop :=
  fate s = fateForMass (massCurrent s) /\
  tMS s = msLifetimeYears (massCurrent s) /\
  tProtostar s = tMS s * 0.01 /\
  tGiant s = tMS s * 0.1 /\
  tTotal s = tProtostar s + tMS s + tGiant s.

(** The fields of a star that the draw pass only reads. *)
Definition same_life (s s' : Star) : Prop :=
  age s' = age s /\ tTotal s' = tTotal s /\ ended s' = ended s /\
  collapseAnimating s' = collapseAnimating s /\
  collapseProgress s' = collapseProgress s.

(** The separation and the transfer rate, which only their own controls
    and the binary preset write. *)
Definition knobs (st : State) : R * R :=
  (separationAU st, transferRatePerYear st).

(** The other star of the pair. *)
Definition companion (w : Which) : Which :=
  match w with Primary => Secondary | Secondary => Primary end.

(** ** Compact remnants, easing and the drawn radius
       (lines 87-90, 319-371) *)

(** [Math.cos], [Math.PI], [Math.exp] and [Math.hypot]. *)
Definition Math_cos (x : R) : R := cos x.
Definition Math_PI : R := PI.
Definition Math_exp (x : R) : R := exp x.
Definition Math_hypot (a b : R) : R := sqrt (a * a + b * b).

Definition lerp (a b t : R) : R := a + (b - a) * t.

Definition easeInOut (t : R) : R :=
  0.5 * (1 - Math_cos (Math_PI * clamp t 0 1)).

(** [Math.pow(x, 3)] is the cube of [x], whatever the sign of [x]. *)
Definition easeOutCubic (t : R) : R := 1 - (1 - clamp t 0 1) ^ 3.

Definition finalCompactRadiusRsun (star : Star) : R :=
  match fate star with
  | WhiteDwarf => 0.012
  | NeutronStar => 1.5e-5
  | BlackHole =>
      let rs_km := 2.95 * massCurrent star in
      let rsun_km := 696000 in
      Math_max (rs_km / rsun_km) 5e-6
  end.

(** [dynamicRadiusPx]: the chain of [if]s either sets [multiplier]
    ([inl]) or returns early with the size of the collapsed object
    ([inr]). *)
Definition dynamicRadiusPx (star : Star) (baseScalePx : R) : R :=
  let '(_, Rs, _, stage) := updateStarParams star in
  let fProtostar := clamp (age star / tProtostar star) 0 1 in
  let fMS := clamp ((age star - tProtostar star) / tMS star) 0 1 in
  let fGiant :=
    clamp ((age star - tProtostar star - tMS star) / tGiant star) 0 1 in
  let baseVisual := Math_pow Rs 0.4 * (baseScalePx * 0.15) in
  let outcome : R + R :=
    match stage with
    | Protostar => inl (lerp 3.0 1.0 (easeOutCubic fProtostar))
    | MainSequence =>
        let swell := if geb (massInitial star) 1 then 1.5 else 1.2 in
        inl (lerp 1.0 swell fMS)
    | Giant | Supergiant =>
        let maxExp := if geb (massInitial star) 8 then 800 else 150 in
        let expFactor :=
          lerp 2.0 (Math_pow maxExp 0.4) (easeInOut fGiant) in
        inl expFactor
    | Remnant _ =>
        if ended star then
          let finalRsun := finalCompactRadiusRsun star in
          let finalVisual :=
            Math_pow finalRsun 0.4 * (baseScalePx * 0.15) in
          if collapseAnimating star && ltb (collapseProgress star) 1 then
            let preCollapse :=
              Math_pow (Math_max Rs 1) 0.4 * (baseScalePx * 0.15) * 2.0 in
            let t := easeInOut (collapseProgress star) in
            inr (lerp preCollapse (Math_max finalVisual 2) t)
          else inr (Math_max finalVisual 2)
        else inl 1
    end in
  match outcome with
  | inl multiplier => clamp (baseVisual * multiplier) 2 baseScalePx
  | inr size => size
  end.

(** ** Timeline and fate scale (lines 548-609)

    What the two render functions compute: the position and the width
    of each segment in percent, and the position of the cursor or
    marker. *)

(** The closure [addSeg] on the list of segments and [pctSoFar]. *)
Definition addSeg (acc : list (R * R) * R) (widthFrac : R)
  : list (R * R) * R :=
  let '(segs, pctSoFar) := acc in
  (segs ++ [(pctSoFar, widthFrac * 100)], pctSoFar + widthFrac * 100).

Definition renderTimeline (star : Star) : list (R * R) * R :=
  let total := tTotal star in
  let p1 := tProtostar star / total in
  let p2 := tMS star / total in
  let p3 := tGiant star / total in
  let acc := addSeg ([], 0) p1 in
  let acc := addSeg acc p2 in
  let acc := addSeg acc p3 in
  let frac := clamp (age star / total) 0 1 in
  (fst acc, frac * 100).

(** The class names of the three zones of the fate scale. *)
Inductive ZoneClass : Type := wd | ns | bh.

Definition placeZone (minM maxM m0 m1 : R) (cls : ZoneClass)
  : ZoneClass * (R * R) :=
  let left := ((m0 - minM) / (maxM - minM)) * 100 in
  let width := ((m1 - m0) / (maxM - minM)) * 100 in
  (cls, (left, width)).

Definition renderMassScale (currentMass : R)
  : list (ZoneClass * (R * R)) * R :=
  let minM := 0.1 in
  let maxM := 50 in
  let zones :=
    [ placeZone minM maxM minM WD_MAX wd;
      placeZone minM maxM WD_MAX NS_MAX ns;
      placeZone minM maxM NS_MAX maxM bh ] in
  let left := ((currentMass - minM) / (maxM - minM)) * 100 in
  (zones, clamp left 0 100).

(** The zone class that goes with a fate. *)
Definition zoneOfFate (f : Fate) : ZoneClass :=
  match f with WhiteDwarf => wd | NeutronStar => ns | BlackHole => bh end.

(** ** Camera (lines 66-74, 230-240, 845-961)

    [state.camera], the size of the canvas and the bounding rectangle
    that [getBoundingClientRect] returns. *)

Record Camera : Type := mkCamera {
  zoom : R;
  offsetX : R;
  offsetY : R;
  isPanning : bool;
  panStartX : R;
  panStartY : R;
  didDrag : bool
}.

Record Canvas : Type := mkCanvas {
  canvasWidth : R;
  canvasHeight : R
}.

Record Rect : Type := mkRect {
  rectLeft : R;
  rectTop : R;
  rectWidth : R;
  rectHeight : R
}.

Definition initialCamera : Camera :=
  {| zoom := 1; offsetX := 0; offsetY := 0; isPanning := false;
     panStartX := 0; panStartY := 0; didDrag := false |}.

Definition set_zoom (z : R) (c : Camera) : Camera :=
  mkCamera z (offsetX c) (offsetY c) (isPanning c) (panStartX c)
           (panStartY c) (didDrag c).

Definition set_offset (x y : R) (c : Camera) : Camera :=
  mkCamera (zoom c) x y (isPanning c) (panStartX c) (panStartY c)
           (didDrag c).

Definition set_pan (p : bool) (x y : R) (d : bool) (c : Camera) : Camera :=
  mkCamera (zoom c) (offsetX c) (offsetY c) p x y d.

Definition worldToScreen (cv : Canvas) (c : Camera) (x y : R) : R * R :=
  (x * zoom c + canvasWidth cv / 2 + offsetX c,
   y * zoom c + canvasHeight cv / 2 + offsetY c).

Definition screenToWorld (cv : Canvas) (c : Camera) (x y : R) : R * R :=
  ((x - canvasWidth cv / 2 - offsetX c) / zoom c,
   (y - canvasHeight cv / 2 - offsetY c) / zoom c).

(** The common tail of the wheel handler and of [adjustZoom]: set the
    zoom and shift the offset so that the point under [(mx, my)] stays
    where it is. *)
Definition zoomAbout (cv : Canvas) (mx my newZoom : R) (c : Camera)
  : Camera :=
  let '(wx, wy) := screenToWorld cv c mx my in
  let c := set_zoom newZoom c in
  let '(sx, sy) := worldToScreen cv c wx wy in
  set_offset (offsetX c + (mx - sx)) (offsetY c + (my - sy)) c.

Definition onWheel (cv : Canvas) (rect : Rect) (clientX clientY deltaY : R)
  (c : Camera) : Camera :=
  let delta := - deltaY in
  let zoomFactor := Math_exp (delta * 0.0012) in
  let newZoom := clamp (zoom c * zoomFactor) 0.1 12 in
  let mx := clientX - rectLeft rect in
  let my := clientY - rectTop rect in
  zoomAbout cv mx my newZoom c.

Definition adjustZoom (cv : Canvas) (rect : Rect) (factor : R) (c : Camera)
  : Camera :=
  let mx := rectWidth rect / 2 in
  let my := rectHeight rect / 2 in
  zoomAbout cv mx my (clamp (zoom c * factor) 0.1 12) c.

(** The world positions of the stars that [focusOnNearestStar] and
    [drawStars] use. *)
Definition starPositions (cv : Canvas) (st : State) : list (R * R) :=
  if negb (binary st) then [(0, 0)]
  else
    let sepWorld :=
      clamp (separationAU st) 0.05 10 / 10 * (canvasWidth cv * 0.7) in
    [(- sepWorld / 2, 0); (sepWorld / 2, 0)].

(** The search loop of [focusOnNearestStar]: [best] holds the world
    position and the screen position of the nearest star so far,
    [None] standing for [null] with [bestD = Infinity]. *)
Definition nearestStep (cv : Canvas) (c : Camera) (mx my : R)
  (best : option ((R * R) * (R * R) * R)) (p : R * R)
  : option ((R * R) * (R * R) * R) :=
  let '(sx, sy) := worldToScreen cv c (fst p) (snd p) in
  let d := Math_hypot (mx - sx) (my - sy) in
  match best with
  | None => Some (p, (sx, sy), d)
  | Some (_, _, bestD) =>
      if ltb d bestD then Some (p, (sx, sy), d) else best
  end.

Definition focusOnNearestStar (cv : Canvas) (rect : Rect) (st : State)
  (clientX clientY : R) (zoomIn : bool) (c : Camera) : Camera :=
  let mx := clientX - rectLeft rect in
  let my := clientY - rectTop rect in
  match fold_left (nearestStep cv c mx my) (starPositions cv st) None with
  | None => c
  | Some (_, (sx, sy), _) =>
      let c :=
        set_offset (offsetX c + (rectWidth rect / 2 - sx))
                   (offsetY c + (rectHeight rect / 2 - sy)) c in
      if zoomIn then set_zoom (clamp (zoom c * 1.8) 0.1 12) c else c
  end.

Definition framePrimary (cv : Canvas) (rect : Rect) (c : Camera) : Camera :=
  let targetZoom := 3 in
  let c := set_zoom (clamp targetZoom 0.1 12) c in
  let '(sx, sy) := worldToScreen cv c 0 0 in
  set_offset (offsetX c + (rectWidth rect / 2 - sx))
             (offsetY c + (rectHeight rect / 2 - sy)) c.

Definition resetCamera (c : Camera) : Camera :=
  set_offset 0 0 (set_zoom 1 c).

Definition onMouseDown (clientX clientY : R) (c : Camera) : Camera :=
  set_pan true clientX clientY false c.

Definition onMouseMove (clientX clientY : R) (c : Camera) : Camera :=
  if negb (isPanning c) then c
  else
    let dx := clientX - panStartX c in
    let dy := clientY - panStartY c in
    let c := set_pan (isPanning c) clientX clientY (didDrag c) c in
    let c := set_offset (offsetX c + dx) (offsetY c + dy) c in
    if gtb (Math_hypot dx dy) 3
    then set_pan (isPanning c) (panStartX c) (panStartY c) true c
    else c.

Definition onMouseUp (cv : Canvas) (rect : Rect) (st : State)
  (clientX clientY : R) (c : Camera) : Camera :=
  let wasDragging := isPanning c in
  let c := set_pan false (panStartX c) (panStartY c) (didDrag c) c in
  if wasDragging && negb (didDrag c)
  then focusOnNearestStar cv rect st clientX clientY false c
  else c.

(** The keys the [keydown] handler reacts to. *)
Inductive Key : Type := KeyPlus | KeyMinus | KeyZero | KeyF.

Definition onKeyDown (cv : Canvas) (rect : Rect) (k : Key) (c : Camera)
  : Camera :=
  match k with
  | KeyPlus => adjustZoom cv rect 1.2 c
  | KeyMinus => adjustZoom cv rect (1 / 1.2) c
  | KeyZero => resetCamera c
  | KeyF => framePrimary cv rect c
  end.

(** Everything that writes [state.camera]. *)
Inductive CameraEvent : Type :=
| MouseDown (clientX clientY : R)
| MouseMove (clientX clientY : R)
| MouseUp (clientX clientY : R)
| Wheel (clientX clientY deltaY : R)
| DblClick (clientX clientY : R)
| KeyDown (k : Key)
| ResetView.

Definition handleCamera (cv : Canvas) (rect : Rect) (st : State)
  (e : CameraEvent) (c : Camera) : Camera :=
  match e with
  | MouseDown x y => onMouseDown x y c
  | MouseMove x y => onMouseMove x y c
  | MouseUp x y => onMouseUp cv rect st x y c
  | Wheel x y deltaY => onWheel cv rect x y deltaY c
  | DblClick x y => focusOnNearestStar cv rect st x y true c
  | KeyDown k => onKeyDown cv rect k c
  | ResetView => resetCamera c
  end.

(** The camera after a sequence of events, each with the simulation
    state at the time it arrives. *)
Definition runCamera (cv : Canvas) (rect : Rect)
  (es : list (State * CameraEvent)) (c : Camera) : Camera :=
  fold_left (fun c se => handleCamera cv rect (fst se) (snd se) c) es c.

(** The distance on screen between the point [(mx, my)] and the world
    point [p], as the search loop of [focusOnNearestStar] computes it. *)
Definition screenDistance (cv : Canvas) (c : Camera) (mx my : R)
  (p : R * R) : R :=
  Math_hypot (mx - fst (worldToScreen cv c (fst p) (snd p)))
             (my - snd (worldToScreen cv c (fst p) (snd p))).

(** ** Events that leave the masses and the separation alone *)

Definition keeps_setup (e : Event) : bool :=
  match e with
  | Frame _ _ | Advance _ _ | Timeline _ | SetAge _ | Speed _ | PlayPause
  | TransferRate _ | BinaryToggle _ => true
  | _ => false
  end.

(** The position of a stage in the life cycle. *)
Definition stageRank (s : Stage) : nat :=
  match s with
  | Protostar => 0
  | MainSequence => 1
  | Giant | Supergiant => 2
  | Remnant _ => 3
  end.

(** The star reaches its end in a step of [dtYears] and is due a
    supernova: what [advanceTime] and the draw pass test between them. *)
Definition novaDue (w : Which) (dtYears : R) (st : State) : bool :=
  let s := star_of w st in
  active w st && negb (ended s) && geb (age s + dtYears) (tTotal s)
  && geb (massInitial s) 8 && negb (hadSupernova s).

Definition freshExplosion : Explosion :=
  {| ageMs := 0; durationMs := 2500; alive := true |}.

(** The flags of a star in every state of a run: a raised [justEnded]
    and a set [hadSupernova] belong to an ended star, and a supernova
    has only been started for a star of at least 8 initial solar masses
    that ends as a black hole. *)
Definition flags_ok (s : Star) : Prop :=
  (justEnded s = true -> ended s = true) /\
  (hadSupernova s = true ->
   ended s = true /\ massInitial s >= 8 /\ fate s = BlackHole).

(** A stored explosion is alive, younger than its duration, and lasts
    2500 ms. *)
Definition explosion_ok (e : Explosion) : Prop :=
  alive e = true /\ 0 <= ageMs e < durationMs e /\ durationMs e = 2500.

(** The star is due a supernova in the draw pass. *)
Definition eligible (s : Star) : bool :=
  justEnded s && geb (massInitial s) 8 && negb (hadSupernova s).

(** The fields of a star that only [makeStar] and [transferMass]
    write. *)
Definition same_physics (s s' : Star) : Prop :=
  massInitial s' = massInitial s /\ massCurrent s' = massCurrent s /\
  fate s' = fate s /\ tProtostar s' = tProtostar s /\ tMS s' = tMS s /\
  tGiant s' = tGiant s /\ tTotal s' = tTotal s.

(** Two states with the same initial masses and the same separation. *)
Definition same_setup (st st' : State) : Prop :=
  massInitial (star1 st') = massInitial (star1 st) /\
  massInitial (star2 st') = massInitial (star2 st) /\
  separationAU st' = separationAU st.

(** The state right after the binary preset is chosen at start-up. *)
Definition presetState : State := run [PresetClick BinaryRlof] initialState.

(** Two stars of one solar mass each, after a reset. *)
Definition twinState : State := run [Reset 1 1] initialState.

(** A single star of 20 solar masses, from the preset. *)
Definition massiveState : State := run [PresetClick Massive] initialState.

(** The massive star after one step that takes it past its end. *)
Definition remnantState : State := advanceTime 2e10 16 massiveState.

(** ** The mass transfer on IEEE doubles (lines 80-82, 93-96, 114-143,
       205-225)

    [makeStar] and [transferMass] once more, over binary64 numbers with
    the rounding of the machine, for the one place where the outcome
    hangs on it: the floor of the donor's mass.  Comparisons and
    [Math.min] / [Math.max] are those of numbers (no NaN).  [Math.pow]
    is left to the implementation by the language standard, so it is a
    parameter here; the masses do not depend on it. *)

Set Warnings "-inexact-float".

Module Double.
Import PrimFloat.
Local Open Scope float_scope.

Record Star : Type := mkStar {
  massInitial : float;
  massCurrent : float;
  age : float;
  tProtostar : float;
  tMS : float;
  tGiant : float;
  tTotal : float;
  ended : bool;
  fate : Fate;
  collapseAnimating : bool;
  collapseProgress : float;
  justEnded : bool;
  hadSupernova : bool
}.

Definition Math_max (a b : float) : float := if a <? b then b else a.
Definition Math_min (a b : float) : float := if b <? a then b else a.

Definition clamp (v min max : float) : float :=
  Math_max min (Math_min max v).

Definition YEAR : float := 1.
Definition MYR : float := 1e6 * YEAR.
Definition GYR : float := 1e9 * YEAR.

Definition fateForMass (mass : float) : Fate :=
  if mass <? 8 then WhiteDwarf
  else if mass <? 20 then NeutronStar
  else BlackHole.

Section Engine.

Variable Math_pow : float -> float -> float.

Definition msLifetimeYears (mass : float) : float :=
  10 * GYR * Math_pow mass (-2.5).

Definition makeStar (initialMass : float) : Star :=
  let mass := clamp initialMass 0.1 50 in
  let tMS := msLifetimeYears mass in
  let tProtostar := tMS * 0.01 in
  let tGiant := tMS * 0.1 in
  let total := tProtostar + tMS + tGiant in
  {| massInitial := mass;
     massCurrent := mass;
     age := 0;
     tProtostar := tProtostar;
     tMS := tMS;
     tGiant := tGiant;
     tTotal := total;
     ended := false;
     fate := fateForMass mass;
     collapseAnimating := false;
     collapseProgress := 0;
     justEnded := false;
     hadSupernova := false |}.

Definition set_massCurrent (v : float) (s : Star) : Star :=
  mkStar (massInitial s) v (age s) (tProtostar s) (tMS s) (tGiant s)
         (tTotal s) (ended s) (fate s) (collapseAnimating s)
         (collapseProgress s) (justEnded s) (hadSupernova s).

Definition set_fate (f : Fate) (s : Star) : Star :=
  mkStar (massInitial s) (massCurrent s) (age s) (tProtostar s) (tMS s)
         (tGiant s) (tTotal s) (ended s) f (collapseAnimating s)
         (collapseProgress s) (justEnded s) (hadSupernova s).

Definition resetStarTimes (star : Star) : Star :=
  let tMS := msLifetimeYears (massCurrent star) in
  let tProtostar := tMS * 0.01 in
  let tGiant := tMS * 0.1 in
  mkStar (massInitial star) (massCurrent star) (age star) tProtostar tMS
         tGiant (tProtostar + tMS + tGiant) (ended star) (fate star)
         (collapseAnimating star) (collapseProgress star) (justEnded star)
         (hadSupernova star).

Definition transferMass (donor accretor : Star) (dm : float)
  : Star * Star :=
  let maxTransfer := Math_min dm (massCurrent donor - 0.1) in
  if maxTransfer <=? 0 then (donor, accretor)
  else
    let donor := set_massCurrent (massCurrent donor - maxTransfer) donor in
    let accretor :=
      set_massCurrent (massCurrent accretor + maxTransfer) accretor in
    let donor := set_fate (fateForMass (massCurrent donor)) donor in
    let accretor := set_fate (fateForMass (massCurrent accretor)) accretor in
    (resetStarTimes donor, resetStarTimes accretor).

(** The call that [doMassTransfer] makes in the close binary
    [rlofState] on a step of 4e7 years: the stars are [makeStar(8)] and
    [makeStar(1)], the rate is the one the rate control stores for 0.2,
    and [dm = rate * dtYears]. *)
Definition rlofDonor : Star := makeStar 8.
Definition rlofAccretor : Star := makeStar 1.
Definition rlofRate : float := clamp 0.2 0 0.2 / MYR.
Definition rlofDm : float := rlofRate * 4e7.

End Engine.

(** The floor the comment of [transferMass] promises, and the mass the
    donor is left with. *)
Definition floorMass : float := 0.1.
Definition leftMass : float := 0.09999999999999964.

Definition below (a b : float) : bool := a <? b.

End Double.

Set Warnings "inexact-float".

(** * Properties *)

(** ** Comparisons and clamping *)

Lemma ltb_true_iff (x y : R) : ltb x y = true <-> x < y.
Proof. unfold ltb. destruct (Rlt_dec x y); split; (easy || lra). Qed.

Lemma ltb_false_iff (x y : R) : ltb x y = false <-> y <= x.
Proof. unfold ltb. destruct (Rlt_dec x y); split; (easy || lra). Qed.

Lemma leb_true_iff (x y : R) : leb x y = true <-> x <= y.
Proof. unfold leb. destruct (Rle_dec x y); split; (easy || lra). Qed.

Lemma leb_false_iff (x y : R) : leb x y = false <-> y < x.
Proof. unfold leb. destruct (Rle_dec x y); split; (easy || lra). Qed.

Lemma gtb_true_iff (x y : R) : gtb x y = true <-> x > y.
Proof. unfold gtb. rewrite ltb_true_iff. lra. Qed.

Lemma gtb_false_iff (x y : R) : gtb x y = false <-> x <= y.
Proof. unfold gtb. rewrite ltb_false_iff. lra. Qed.

Lemma geb_true_iff (x y : R) : geb x y = true <-> x >= y.
Proof. unfold geb. rewrite leb_true_iff. lra. Qed.

Lemma geb_false_iff (x y : R) : geb x y = false <-> x < y.
Proof. unfold geb. rewrite leb_false_iff. lra. Qed.

(** Turns every comparison of the goal and the context into an
    inequality, one case per outcome. *)
Ltac cmp_cases :=
  repeat match goal with
  | |- context [ltb ?x ?y] =>
      let H := fresh "Hc" in
      destruct (ltb x y) eqn:H;
      [apply ltb_true_iff in H | apply ltb_false_iff in H]
  | |- context [leb ?x ?y] =>
      let H := fresh "Hc" in
      destruct (leb x y) eqn:H;
      [apply leb_true_iff in H | apply leb_false_iff in H]
  end.

Lemma clamp_cases (v lo hi : R) :
  lo <= hi ->
  (v < lo /\ clamp v lo hi = lo) \/
  (lo <= v <= hi /\ clamp v lo hi = v) \/
  (hi < v /\ clamp v lo hi = hi).
Proof.
  intro Hle.
  assert (E : v < lo \/ lo <= v <= hi \/ hi < v) by lra.
  destruct E as [E | [E | E]];
    [left | right; left | right; right]; (split; [exact E |]);
    unfold clamp, Math_max, Math_min, Rmax, Rmin;
    destruct (Rle_dec hi v); destruct (Rle_dec lo _); lra.
Qed.

Lemma clamp_range (v lo hi : R) : lo <= hi -> lo <= clamp v lo hi <= hi.
Proof.
  intro H.
  destruct (clamp_cases v lo hi H) as [[? ->] | [[? ->] | [? ->]]]; lra.
Qed.

Lemma clamp_id (v lo hi : R) : lo <= v <= hi -> clamp v lo hi = v.
Proof.
  intro H. destruct (clamp_cases v lo hi) as [[? E]|[[? E]|[? E]]]; lra.
Qed.

(** ** Positivity of the power laws *)

Lemma Math_pow_pos (x y : R) : 0 < x -> 0 < Math_pow x y.
Proof. intros _. unfold Math_pow, Rpower. apply exp_pos. Qed.

Lemma Math_pow_one (y : R) : Math_pow 1 y = 1.
Proof. unfold Math_pow, Rpower. rewrite ln_1, Rmult_0_r. apply exp_0. Qed.

Lemma msLifetimeYears_pos (mass : R) :
  0 < mass -> 0 < msLifetimeYears mass.
Proof.
  intro Hm. unfold msLifetimeYears, GYR, YEAR.
  pose proof (Math_pow_pos mass (-2.5) Hm). nra.
Qed.

Lemma msLifetimeYears_one : msLifetimeYears 1 = 1e10.
Proof. unfold msLifetimeYears, GYR, YEAR. rewrite Math_pow_one. lra. Qed.

(** ** Star predicates kept by every event

    A predicate on stars that [makeStar] establishes, that the flag and
    age assignments do not disturb and that [transferMass] keeps holds
    of both stars along every run. *)

Section StarInvariant.

Variable P : Star -> Prop.

Hypothesis P_makeStar : forall m, P (makeStar m).
Hypothesis P_age : forall v s, P s -> P (set_age v s).
Hypothesis P_ended : forall b s, P s -> P (set_ended b s).
Hypothesis P_collapse : forall b v s, P s -> P (set_collapse b v s).
Hypothesis P_justEnded : forall b s, P s -> P (set_justEnded b s).
Hypothesis P_hadSupernova : forall b s, P s -> P (set_hadSupernova b s).
Hypothesis P_transferMass :
  forall d a dm, P d -> P a ->
    P (fst (transferMass d a dm)) /\ P (snd (transferMass d a dm)).

Lemma triggerSupernova_keeps (s : Star) (ex : list Explosion) :
  P s -> P (fst (triggerSupernova s ex)).
Proof.
  intro H. unfold triggerSupernova.
  destruct (justEnded s); [| exact H].
  destruct (geb (massInitial s) 8 && negb (hadSupernova s)); simpl; auto.
Qed.

Lemma updateUI_keeps (st : State) : both P st -> both P (updateUI st).
Proof.
  intros [H1 H2]. unfold updateUI, drawStars, drawStarAtWorld, both.
  pose proof (triggerSupernova_keeps (star1 st) (explosions st) H1) as K1.
  destruct (triggerSupernova (star1 st) (explosions st)) as [s1 ex1].
  destruct (negb (binary st)); destruct (paintStar (star1 st));
    simpl in *; auto.
  pose proof (triggerSupernova_keeps (star2 st) ex1 H2) as K2.
  destruct (triggerSupernova (star2 st) ex1) as [s2 ex2].
  destruct (paintStar (star2 st)); simpl in *; auto.
Qed.

Lemma ageStar_keeps (dtYears dtMs : R) (s : Star) :
  P s -> P (ageStar dtYears dtMs s).
Proof.
  intro H. unfold ageStar. cbv zeta.
  destruct (negb (ended s)).
  - destruct (geb _ _); auto 8.
  - destruct (collapseAnimating s); [| exact H].
    destruct (geb _ _); auto 8.
Qed.

Lemma ageStars_keeps (dtYears dtMs : R) (st : State) :
  both P st -> both P (ageStars dtYears dtMs st).
Proof.
  intros [H1 H2]. unfold ageStars, both. simpl.
  destruct (binary st); simpl; auto using ageStar_keeps.
Qed.

Lemma doMassTransfer_keeps (dtYears : R) (st : State) :
  both P st -> both P (doMassTransfer dtYears st).
Proof.
  intros [H1 H2]. unfold doMassTransfer, both.
  destruct (negb (binary st)); [auto |].
  destruct (negb (ended (star1 st)) && negb (ended (star2 st))); [| auto].
  destruct (overfill1 st && negb (overfill2 st)).
  - destruct (P_transferMass (star1 st) (star2 st)
                (transferRatePerYear st * dtYears) H1 H2) as [K1 K2].
    destruct (transferMass _ _ _); simpl in *; auto.
  - destruct (overfill2 st && negb (overfill1 st)); [| auto].
    destruct (P_transferMass (star2 st) (star1 st)
                (transferRatePerYear st * dtYears) H2 H1) as [K1 K2].
    destruct (transferMass _ _ _); simpl in *; auto.
Qed.

Lemma advanceTime_keeps (dtYears dtMs : R) (st : State) :
  both P st -> both P (advanceTime dtYears dtMs st).
Proof.
  intro H. unfold advanceTime, integrate.
  apply updateUI_keeps.
  apply (ageStars_keeps dtYears dtMs), (doMassTransfer_keeps dtYears) in H.
  exact H.
Qed.

Lemma tick_keeps (autoScale : bool) (ts : R) (st : State) :
  both P st -> both P (tick autoScale ts st).
Proof.
  intro H. unfold tick.
  destruct (negb (running st)); [exact H |].
  apply advanceTime_keeps.
  destruct (falsy (lastTs st)); exact H.
Qed.

Lemma setSimulationAge_keeps (ageYears : R) (st : State) :
  both P st -> both P (setSimulationAge ageYears st).
Proof.
  intros [H1 H2]. unfold setSimulationAge.
  apply updateUI_keeps. unfold both. simpl.
  destruct (binary st); simpl; auto.
Qed.

Lemma handle_keeps (e : Event) (st : State) :
  both P st -> both P (handle e st).
Proof.
  intros H. pose proof H as [H1 H2].
  destruct e; simpl.
  - unfold onMassPrimaryInput. apply updateUI_keeps. unfold both. simpl.
    destruct (negb (binary st)); simpl; auto.
  - apply updateUI_keeps. split; simpl; auto.
  - apply updateUI_keeps. split; simpl; auto.
  - apply updateUI_keeps. split; simpl; auto.
  - apply updateUI_keeps. exact H.
  - apply updateUI_keeps. exact H.
  - exact H.
  - exact H.
  - unfold onPlayPause. simpl. destruct (negb (running st)); exact H.
  - apply updateUI_keeps. split; simpl; auto.
  - apply updateUI_keeps. destruct name; split; simpl; auto.
  - apply tick_keeps, H.
  - apply setSimulationAge_keeps, H.
  - apply advanceTime_keeps, H.
  - apply setSimulationAge_keeps, H.
Qed.

Lemma run_keeps (es : list Event) (st : State) :
  both P st -> both P (run es st).
Proof.
  unfold run. revert st.
  induction es as [| e es IH]; intros st H; simpl.
  - exact H.
  - apply IH, handle_keeps, H.
Qed.

End StarInvariant.

(** ** Fate and stage *)

Lemma fateForMass_cases (mass : R) :
  (mass < 8 -> fateForMass mass = WhiteDwarf) /\
  (8 <= mass < 20 -> fateForMass mass = NeutronStar) /\
  (20 <= mass -> fateForMass mass = BlackHole).
Proof.
  unfold fateForMass, WD_MAX, NS_MAX.
  cmp_cases; repeat split; intros; (reflexivity || lra).
Qed.

(** C5: [fateForMass] is a white dwarf below 8 solar masses, a neutron
    star from 8 up to (not including) 20, and a black hole from 20 on;
    in particular 7.99 gives a white dwarf, 8.0 and 19.99 a neutron star
    and 20.0 a black hole. *)
Theorem fateForMass_thresholds :
  (forall mass : R,
      (mass < 8 -> fateForMass mass = WhiteDwarf) /\
      (8 <= mass < 20 -> fateForMass mass = NeutronStar) /\
      (20 <= mass -> fateForMass mass = BlackHole)) /\
  fateForMass 7.99 = WhiteDwarf /\
  fateForMass 8.0 = NeutronStar /\
  fateForMass 19.99 = NeutronStar /\
  fateForMass 20.0 = BlackHole.
Proof.
  pose proof fateForMass_cases as G.
  split; [exact G |].
  repeat split.
  - apply (G 7.99). lra.
  - apply (G 8.0). lra.
  - apply (G 19.99). lra.
  - apply (G 20.0). lra.
Qed.

Lemma makeStar_tMS_pos (m : R) : tMS_pos (makeStar m).
Proof.
  unfold tMS_pos. simpl.
  pose proof (clamp_range m 0.1 50).
  split; [lra | apply msLifetimeYears_pos; lra].
Qed.

Lemma transferMass_tMS_pos (d a : Star) (dm : R) :
  tMS_pos d -> tMS_pos a ->
  tMS_pos (fst (transferMass d a dm)) /\ tMS_pos (snd (transferMass d a dm)).
Proof.
  intros Hd Ha. unfold transferMass.
  destruct (leb (Math_min dm (massCurrent d - 0.1)) 0) eqn:C; simpl;
    [auto |].
  apply leb_false_iff in C.
  pose proof (Rmin_r dm (massCurrent d - 0.1)) as Hcap.
  unfold Math_min in *. destruct Ha as [Ha _].
  unfold tMS_pos. simpl.
  split; (split; [lra | apply msLifetimeYears_pos; lra]).
Qed.

Lemma run_tMS_pos (es : list Event) (w : Which) :
  0 < tMS (star_of w (run es initialState)).
Proof.
  assert (H : both tMS_pos (run es initialState)).
  { apply run_keeps; auto using makeStar_tMS_pos, transferMass_tMS_pos.
    split; apply makeStar_tMS_pos. }
  destruct H as [[_ H1] [_ H2]]. destruct w; assumption.
Qed.

(** C6: for a star whose main-sequence duration is not negative (every
    star of every run, by [run_tMS_pos]) and that has not ended, the
    stage is Protostar while [age < tProtostar], Main Sequence while
    [tProtostar <= age < tProtostar + tMS], and between
    [tProtostar + tMS] and [tTotal] it is Supergiant when
    [massInitial >= 8] and Giant otherwise; the current mass plays no
    part in the choice.  An ended star shows its fate. *)
Theorem stageForStar_phases (star : Star) :
  0 <= tMS star ->
  (ended star = false ->
     (age star < tProtostar star -> stageForStar star = Protostar) /\
     (tProtostar star <= age star < tProtostar star + tMS star ->
        stageForStar star = MainSequence) /\
     (tProtostar star + tMS star <= age star < tTotal star ->
        (massInitial star >= 8 -> stageForStar star = Supergiant) /\
        (massInitial star < 8 -> stageForStar star = Giant))) /\
  (ended star = true -> stageForStar star = Remnant (fate star)) /\
  (forall m : R, stageForStar (set_massCurrent m star) = stageForStar star).
Proof.
  intro Hpos. split; [| split].
  - intro He. unfold stageForStar, geb. rewrite He.
    repeat (split || intro); cmp_cases; (reflexivity || lra).
  - intro He. unfold stageForStar. rewrite He. reflexivity.
  - intro m. reflexivity.
Qed.

Lemma stageForStar_phases_witness :
  0 <= tMS (star1 initialState) /\
  stageForStar (star1 initialState) = Protostar /\
  stageForStar (set_age 5e9 (star1 initialState)) = MainSequence /\
  stageForStar (set_age 1.1e10 (star1 initialState)) = Giant.
Proof.
  assert (E : clamp 1.0 0.1 50 = 1) by (rewrite clamp_id; lra).
  assert (Hpos : forall a, 0 <= tMS (set_age a (star1 initialState))).
  { intro a. left. apply (run_tMS_pos [] Primary). }
  split; [apply (Hpos 0) |].
  split; [| split].
  - apply (stageForStar_phases (star1 initialState) (Hpos 0)); [reflexivity |].
    simpl. rewrite E, msLifetimeYears_one. lra.
  - apply (stageForStar_phases _ (Hpos 5e9)); [reflexivity |].
    simpl. rewrite E, msLifetimeYears_one. lra.
  - apply (stageForStar_phases _ (Hpos 1.1e10)); [reflexivity | |];
      simpl; rewrite E; rewrite ?msLifetimeYears_one; lra.
Defined.

(** ** Phase durations *)

Lemma makeStar_phases_ok (m : R) : phases_ok (makeStar m).
Proof. unfold phases_ok, makeStar. simpl. repeat split; lra. Qed.

Lemma resetStarTimes_phases_ok (s : Star) : phases_ok (resetStarTimes s).
Proof. unfold phases_ok, resetStarTimes. simpl. repeat split; lra. Qed.

Lemma transferMass_phases_ok (d a : Star) (dm : R) :
  phases_ok d -> phases_ok a ->
  phases_ok (fst (transferMass d a dm)) /\
  phases_ok (snd (transferMass d a dm)).
Proof.
  intros Hd Ha. unfold transferMass.
  destruct (leb _ 0); simpl; auto using resetStarTimes_phases_ok.
Qed.

(** C4: for every mass in [0.1, 50] the star built by [makeStar] has
    [tTotal = tProtostar + tMS + tGiant] with [tProtostar = 0.01 * tMS]
    and [tGiant = 0.10 * tMS]; every recomputation by [resetStarTimes]
    gives durations in the same relation, and the relation holds of both
    stars after any sequence of events once it holds of both. *)
Theorem phase_durations_invariant (mass : R) :
  0.1 <= mass <= 50 ->
  (massInitial (makeStar mass) = mass /\ phases_ok (makeStar mass)) /\
  (forall star : Star, phases_ok (resetStarTimes star)) /\
  (forall (es : list Event) (st : State),
      phases_ok (star1 st) -> phases_ok (star2 st) ->
      phases_ok (star1 (run es st)) /\ phases_ok (star2 (run es st))).
Proof.
  intro Hm. split; [split | split].
  - simpl. apply clamp_id. exact Hm.
  - apply makeStar_phases_ok.
  - apply resetStarTimes_phases_ok.
  - intros es st H1 H2.
    apply (run_keeps phases_ok); try (split; assumption);
      auto using makeStar_phases_ok, transferMass_phases_ok.
Qed.

Lemma phase_durations_invariant_witness :
  0.1 <= 1 <= 50 /\
  tTotal (makeStar 1) =
    tProtostar (makeStar 1) + tMS (makeStar 1) + tGiant (makeStar 1) /\
  phases_ok (star1 (run [Advance 1e6 16; Timeline 0.5] initialState)).
Proof.
  assert (Hm : 0.1 <= 1 <= 50) by lra.
  split; [exact Hm |].
  destruct (phase_durations_invariant 1 Hm) as [[_ [Hsum _]] [_ Hrun]].
  split; [exact Hsum |].
  apply Hrun; apply makeStar_phases_ok.
Defined.

(** ** Mass transfer *)

Lemma set_stars_same (st : State) : set_stars (star1 st) (star2 st) st = st.
Proof. destruct st. reflexivity. Qed.

Lemma transferMass_none (donor accretor : Star) (dm : R) :
  Math_min dm (massCurrent donor - 0.1) <= 0 ->
  transferMass donor accretor dm = (donor, accretor).
Proof.
  intro H. unfold transferMass.
  apply leb_true_iff in H. rewrite H. reflexivity.
Qed.

Lemma transferMass_some (donor accretor : Star) (dm : R) :
  0 < Math_min dm (massCurrent donor - 0.1) ->
  let maxTransfer := Math_min dm (massCurrent donor - 0.1) in
  let m_d := massCurrent donor - maxTransfer in
  let m_a := massCurrent accretor + maxTransfer in
  transferMass donor accretor dm =
    (resetStarTimes (set_fate (fateForMass m_d) (set_massCurrent m_d donor)),
     resetStarTimes
       (set_fate (fateForMass m_a) (set_massCurrent m_a accretor))).
Proof.
  intro H. unfold transferMass.
  apply leb_false_iff in H. rewrite H. reflexivity.
Qed.

Lemma Math_min_le_r (a b : R) : Math_min a b <= b.
Proof. apply Rmin_r. Qed.

(** C3: after a nonzero transfer the fate and the four phase durations
    of both stars are those of their new [massCurrent], while [age] and
    [massInitial] of both are what they were. *)
Theorem transferMass_recomputes (donor accretor : Star) (dm : R) :
  0 < Math_min dm (massCurrent donor - 0.1) ->
  let maxTransfer := Math_min dm (massCurrent donor - 0.1) in
  let d' := fst (transferMass donor accretor dm) in
  let a' := snd (transferMass donor accretor dm) in
  (massCurrent d' = massCurrent donor - maxTransfer /\
   massCurrent a' = massCurrent accretor + maxTransfer) /\
  (recomputed d' /\ recomputed a') /\
  (age d' = age donor /\ massInitial d' = massInitial donor) /\
  (age a' = age accretor /\ massInitial a' = massInitial accretor).
Proof.
  intro H. cbv zeta.
  rewrite (transferMass_some donor accretor dm H).
  unfold recomputed. simpl. repeat split; reflexivity.
Qed.

(** The three outcomes of [doMassTransfer] in binary mode. *)
Lemma doMassTransfer_donor1 (st : State) (dtYears : R) :
  binary st = true ->
  ended (star1 st) = false -> ended (star2 st) = false ->
  overfill1 st = true -> overfill2 st = false ->
  doMassTransfer dtYears st =
    set_stars
      (fst (transferMass (star1 st) (star2 st)
              (transferRatePerYear st * dtYears)))
      (snd (transferMass (star1 st) (star2 st)
              (transferRatePerYear st * dtYears))) st.
Proof.
  intros Hb E1 E2 O1 O2. unfold doMassTransfer.
  rewrite Hb, E1, E2, O1, O2. simpl.
  destruct (transferMass _ _ _); reflexivity.
Qed.

Lemma doMassTransfer_donor2 (st : State) (dtYears : R) :
  binary st = true ->
  ended (star1 st) = false -> ended (star2 st) = false ->
  overfill2 st = true -> overfill1 st = false ->
  doMassTransfer dtYears st =
    set_stars
      (snd (transferMass (star2 st) (star1 st)
              (transferRatePerYear st * dtYears)))
      (fst (transferMass (star2 st) (star1 st)
              (transferRatePerYear st * dtYears))) st.
Proof.
  intros Hb E1 E2 O2 O1. unfold doMassTransfer.
  rewrite Hb, E1, E2, O1, O2. simpl.
  destruct (transferMass _ _ _); reflexivity.
Qed.

Lemma doMassTransfer_idle (st : State) (dtYears : R) :
  binary st = false \/
  ended (star1 st) = true \/ ended (star2 st) = true \/
  overfill1 st = overfill2 st ->
  doMassTransfer dtYears st = st.
Proof.
  intro H. unfold doMassTransfer.
  destruct (binary st) eqn:B; [| reflexivity]. simpl.
  destruct (ended (star1 st)) eqn:E1; [reflexivity |].
  destruct (ended (star2 st)) eqn:E2; [reflexivity |]. simpl.
  destruct H as [H | [H | [H | H]]]; try discriminate.
  rewrite H. destruct (overfill2 st); reflexivity.
Qed.

(** Outside binary mode [doMassTransfer] returns at once. *)
Lemma doMassTransfer_single (st : State) (dtYears : R) :
  binary st = false -> doMassTransfer dtYears st = st.
Proof. intro H. apply doMassTransfer_idle. auto. Qed.

Lemma overfill1_iff (st : State) :
  overfill1 st = true <->
  stellarRadiusAU (radiusRsun (massCurrent (star1 st))) >
  rocheLobeRadiusAU (massCurrent (star1 st)) (massCurrent (star2 st))
                    (separationAU st).
Proof. unfold overfill1. apply gtb_true_iff. Qed.

Lemma overfill2_iff (st : State) :
  overfill2 st = true <->
  stellarRadiusAU (radiusRsun (massCurrent (star2 st))) >
  rocheLobeRadiusAU (massCurrent (star2 st)) (massCurrent (star1 st))
                    (separationAU st).
Proof. unfold overfill2. apply gtb_true_iff. Qed.

Lemma overfill1_false_iff (st : State) :
  overfill1 st = false <->
  stellarRadiusAU (radiusRsun (massCurrent (star1 st))) <=
  rocheLobeRadiusAU (massCurrent (star1 st)) (massCurrent (star2 st))
                    (separationAU st).
Proof. unfold overfill1. apply gtb_false_iff. Qed.

Lemma overfill2_false_iff (st : State) :
  overfill2 st = false <->
  stellarRadiusAU (radiusRsun (massCurrent (star2 st))) <=
  rocheLobeRadiusAU (massCurrent (star2 st)) (massCurrent (star1 st))
                    (separationAU st).
Proof. unfold overfill2. apply gtb_false_iff. Qed.

(** The two sides of a call of [transferMass]. *)
Lemma transferMass_amount (donor accretor : Star) (dm : R) :
  let cap := Math_min dm (massCurrent donor - 0.1) in
  (0 < cap ->
     massCurrent (fst (transferMass donor accretor dm)) =
       massCurrent donor - cap /\
     massCurrent (snd (transferMass donor accretor dm)) =
       massCurrent accretor + cap) /\
  (cap <= 0 -> transferMass donor accretor dm = (donor, accretor)).
Proof.
  cbv zeta. split.
  - intro H. rewrite (transferMass_some _ _ _ H). simpl.
    split; reflexivity.
  - apply transferMass_none.
Qed.

(** X5: in binary mode, with neither star ended, a star that alone
    overfills its Roche lobe is the donor: it loses
    [Math.min(transferRatePerYear * dtYears, massCurrent - 0.1)] and the
    other star gains that same amount, when the amount is positive; an
    amount that is not positive transfers nothing; when both stars
    overfill, when neither does, or when a star has ended, the state is
    left as it is. *)
Theorem doMassTransfer_amount (st : State) (dtYears : R) :
  binary st = true ->
  let s1 := star1 st in
  let s2 := star2 st in
  let R1AU := stellarRadiusAU (radiusRsun (massCurrent s1)) in
  let R2AU := stellarRadiusAU (radiusRsun (massCurrent s2)) in
  let RL1 :=
    rocheLobeRadiusAU (massCurrent s1) (massCurrent s2) (separationAU st) in
  let RL2 :=
    rocheLobeRadiusAU (massCurrent s2) (massCurrent s1) (separationAU st) in
  let dm := transferRatePerYear st * dtYears in
  let st' := doMassTransfer dtYears st in
  (ended s1 = false -> ended s2 = false -> R1AU > RL1 -> R2AU <= RL2 ->
     let cap := Math_min dm (massCurrent s1 - 0.1) in
     (star1 st', star2 st') = transferMass s1 s2 dm /\
     (0 < cap ->
        massCurrent (star1 st') = massCurrent s1 - cap /\
        massCurrent (star2 st') = massCurrent s2 + cap) /\
     (cap <= 0 -> st' = st)) /\
  (ended s1 = false -> ended s2 = false -> R2AU > RL2 -> R1AU <= RL1 ->
     let cap := Math_min dm (massCurrent s2 - 0.1) in
     (star2 st', star1 st') = transferMass s2 s1 dm /\
     (0 < cap ->
        massCurrent (star2 st') = massCurrent s2 - cap /\
        massCurrent (star1 st') = massCurrent s1 + cap) /\
     (cap <= 0 -> st' = st)) /\
  (R1AU > RL1 -> R2AU > RL2 -> st' = st) /\
  (R1AU <= RL1 -> R2AU <= RL2 -> st' = st) /\
  (ended s1 = true \/ ended s2 = true -> st' = st).
Proof.
  intro Hb. cbv zeta.
  split; [| split; [| split; [| split]]].
  - intros E1 E2 O1 O2.
    apply overfill1_iff in O1. apply overfill2_false_iff in O2.
    rewrite (doMassTransfer_donor1 st dtYears Hb E1 E2 O1 O2). simpl.
    destruct (transferMass_amount (star1 st) (star2 st)
                (transferRatePerYear st * dtYears)) as [Hpos Hnone].
    split; [symmetry; apply surjective_pairing |].
    split; [exact Hpos |].
    intro Hc. rewrite (Hnone Hc). apply set_stars_same.
  - intros E1 E2 O2 O1.
    apply overfill2_iff in O2. apply overfill1_false_iff in O1.
    rewrite (doMassTransfer_donor2 st dtYears Hb E1 E2 O2 O1). simpl.
    destruct (transferMass_amount (star2 st) (star1 st)
                (transferRatePerYear st * dtYears)) as [Hpos Hnone].
    split; [symmetry; apply surjective_pairing |].
    split; [exact Hpos |].
    intro Hc. rewrite (Hnone Hc). apply set_stars_same.
  - intros O1 O2.
    apply overfill1_iff in O1. apply overfill2_iff in O2.
    apply doMassTransfer_idle. right; right; right. congruence.
  - intros O1 O2.
    apply overfill1_false_iff in O1. apply overfill2_false_iff in O2.
    apply doMassTransfer_idle. right; right; right. congruence.
  - intros [E | E]; apply doMassTransfer_idle; auto.
Qed.

(** ** The Roche-lobe formula *)

Lemma Math_cbrt_pos (x : R) : 0 < x -> 0 < Math_cbrt x.
Proof.
  intro H. unfold Math_cbrt.
  destruct (Rlt_dec 0 x); [| contradiction].
  unfold Rpower. apply exp_pos.
Qed.

Lemma Math_cbrt_cube (x : R) : 0 < x -> Math_cbrt (x * x * x) = x.
Proof.
  intro H.
  assert (H2 : 0 < x * x) by nra.
  assert (H3 : 0 < x * x * x) by nra.
  unfold Math_cbrt. destruct (Rlt_dec 0 (x * x * x)); [| contradiction].
  unfold Rpower. rewrite !ln_mult by assumption.
  replace (/ 3 * (ln x + ln x + ln x)) with (ln x) by lra.
  apply exp_ln, H.
Qed.

Lemma Math_log_pos (x : R) : 1 < x -> 0 < Math_log x.
Proof.
  intro H. unfold Math_log. rewrite <- ln_1.
  apply ln_increasing; lra.
Qed.

(** The Eggleton fraction for a positive cube root of the mass ratio. *)
Lemma eggleton_fraction_bounds (q13 : R) :
  0 < q13 ->
  let q23 := q13 * q13 in
  0 < 0.49 * q23 / (0.6 * q23 + Math_log (1 + q13)) < 0.49 / 0.6.
Proof.
  intro H. cbv zeta.
  assert (Hq : 0 < q13 * q13) by nra.
  assert (Hl : 0 < Math_log (1 + q13)) by (apply Math_log_pos; lra).
  set (l := Math_log (1 + q13)) in *.
  set (q := q13 * q13) in *.
  assert (Hd : 0 < 0.6 * q + l) by lra.
  split.
  - apply Rdiv_lt_0_compat; lra.
  - apply (Rmult_lt_reg_r (0.6 * q + l)); [exact Hd |].
    replace (0.49 * q / (0.6 * q + l) * (0.6 * q + l)) with (0.49 * q)
      by (field; lra).
    lra.
Qed.

Lemma clamped_ratio_pos (mDonor mAccretor : R) :
  1e-3 <= clamp (mDonor / mAccretor) 1e-3 1e3 <= 1e3.
Proof. apply clamp_range. lra. Qed.

(** C10: for positive masses and a separation in [0.01, 10] the
    Roche-lobe radius is strictly between 0 and the separation; the
    fraction of the separation stays below 0.49 / 0.6. *)
Theorem rocheLobeRadiusAU_bounds (mDonor mAccretor separationAU : R) :
  0 < mDonor -> 0 < mAccretor -> 0.01 <= separationAU <= 10 ->
  0 < rocheLobeRadiusAU mDonor mAccretor separationAU < separationAU /\
  rocheLobeRadiusAU mDonor mAccretor separationAU
    < 0.49 / 0.6 * separationAU.
Proof.
  intros _ _ Ha. unfold rocheLobeRadiusAU. cbv zeta.
  pose proof (clamped_ratio_pos mDonor mAccretor) as Hq.
  set (q := clamp (mDonor / mAccretor) 1e-3 1e3) in *.
  assert (Hc : 0 < Math_cbrt q) by (apply Math_cbrt_pos; lra).
  pose proof (eggleton_fraction_bounds (Math_cbrt q) Hc) as Hf.
  cbv zeta in Hf.
  set (f := 0.49 * (Math_cbrt q * Math_cbrt q) /
            (0.6 * (Math_cbrt q * Math_cbrt q) + Math_log (1 + Math_cbrt q)))
    in *.
  assert (0 < separationAU) by lra.
  repeat split; nra.
Qed.

Lemma rocheLobeRadiusAU_bounds_witness :
  0 < rocheLobeRadiusAU 8 1 0.03 < 0.03.
Proof.
  apply (rocheLobeRadiusAU_bounds 8 1 0.03); lra.
Defined.

(** ** A close binary in which only the primary overfills *)

Lemma triggerSupernova_quiet (s : Star) (ex : list Explosion) :
  justEnded s = false -> triggerSupernova s ex = (s, ex).
Proof. intro H. unfold triggerSupernova. rewrite H. reflexivity. Qed.

Lemma set_star1_same (st : State) :
  set_explosions (explosions st) (set_star1 (star1 st) st) = st.
Proof. destruct st; reflexivity. Qed.

Lemma updateUI_quiet (st : State) :
  justEnded (star1 st) = false -> justEnded (star2 st) = false ->
  updateUI st = st.
Proof.
  intros H1 H2. unfold updateUI, drawStars, drawStarAtWorld.
  rewrite (triggerSupernova_quiet _ _ H1).
  destruct (negb (binary st)); destruct (paintStar (star1 st));
    try rewrite (triggerSupernova_quiet _ _ H2);
    try destruct (paintStar (star2 st)); simpl;
    destruct st; reflexivity.
Qed.

(** Removes the draw passes that find no flag raised, innermost
    first. *)
Ltac quiet_draw :=
  repeat match goal with
  | |- context [updateUI ?x] => rewrite (updateUI_quiet x) by reflexivity
  end.

(** The star a draw pass leaves is the star it found, or, when it was
    painted, that star after the supernova trigger. *)
Lemma updateUI_star (w : Which) (st : State) :
  star_of w (updateUI st) = star_of w st \/
  (paintStar (star_of w st) = true /\
   exists ex : list Explosion,
     star_of w (updateUI st) = fst (triggerSupernova (star_of w st) ex)).
Proof.
  unfold updateUI, drawStars, drawStarAtWorld.
  destruct (negb (binary st)); destruct (paintStar (star1 st)) eqn:P1;
    try (left; reflexivity).
  - destruct (triggerSupernova (star1 st) (explosions st)) as [s1 ex1] eqn:E.
    destruct w; simpl; [right | left; reflexivity].
    split; [exact P1 |].
    exists (explosions st). rewrite E. reflexivity.
  - destruct (triggerSupernova (star1 st) (explosions st)) as [s1 ex1] eqn:E.
    destruct (paintStar (star2 st)) eqn:P2.
    + destruct (triggerSupernova (star2 st) ex1) as [s2 ex2] eqn:E2.
      destruct w; simpl; right.
      * split; [exact P1 |].
        exists (explosions st). rewrite E. reflexivity.
      * split; [exact P2 |]. exists ex1. rewrite E2. reflexivity.
    + destruct w; simpl; [right | left; reflexivity].
      split; [exact P1 |].
      exists (explosions st). rewrite E. reflexivity.
Qed.

(** When the draw pass returns, every star of the simulation has gone
    through the supernova trigger. *)
Lemma updateUI_returns (w : Which) (st : State) :
  updateUI_throws st = false -> active w st = true ->
  exists ex : list Explosion,
    star_of w (updateUI st) = fst (triggerSupernova (star_of w st) ex).
Proof.
  unfold updateUI_throws, updateUI, drawStars, drawStarAtWorld.
  destruct (binary st) eqn:B; cbn [negb];
    destruct (paintStar (star1 st)); cbn [thrown]; try discriminate;
    destruct (triggerSupernova (star1 st) (explosions st))
      as [s1 ex1] eqn:E.
  - destruct (paintStar (star2 st)); cbn [thrown]; try discriminate.
    destruct (triggerSupernova (star2 st) ex1) as [s2 ex2] eqn:E2.
    intros _ _. destruct w; simpl.
    + exists (explosions st). rewrite E. reflexivity.
    + exists ex1. rewrite E2. reflexivity.
  - intros _ A. destruct w; simpl in *.
    + exists (explosions st). rewrite E. reflexivity.
    + rewrite B in A. discriminate.
Qed.

(** The draw pass throws exactly when it reaches a star it cannot
    paint. *)
Lemma updateUI_throws_iff (st : State) :
  updateUI_throws st =
    negb (paintStar (star1 st))
    || (binary st && negb (paintStar (star2 st))).
Proof.
  unfold updateUI_throws, drawStars, drawStarAtWorld.
  destruct (binary st); cbn [negb andb];
    destruct (paintStar (star1 st)); cbn [negb orb thrown];
    try reflexivity;
    destruct (triggerSupernova (star1 st) (explosions st)) as [s1 ex1];
    try reflexivity.
  destruct (paintStar (star2 st)); cbn [negb thrown];
    [destruct (triggerSupernova (star2 st) ex1) |]; reflexivity.
Qed.

Lemma rlofState_fields :
  star1 rlofState = makeStar 8 /\
  star2 rlofState = makeStar 1 /\
  binary rlofState = true /\
  separationAU rlofState = 0.03 /\
  transferRatePerYear rlofState = 0.2 / MYR.
Proof.
  unfold rlofState, rlofEvents, run. simpl fold_left.
  unfold handle, onMassPrimaryChange, onMassSecondaryChange,
    onBinaryToggle, onSeparation, onTransferRate.
  rewrite (clamp_id 8), (clamp_id 1), (clamp_id 0.03), (clamp_id 0.2)
    by lra.
  quiet_draw.
  repeat split; reflexivity.
Qed.

Lemma ln_3_lower : 1 <= ln 3.
Proof.
  destruct exp_le_3 as [H | H].
  - left. rewrite <- (ln_exp 1). apply ln_increasing; [apply exp_pos | exact H].
  - right. rewrite <- H. symmetry. apply ln_exp.
Qed.

Lemma ln_three_halves_upper : ln (1 + 1 / 2) < 1 / 2.
Proof.
  rewrite <- (ln_exp (1 / 2)) at 2.
  apply ln_increasing; [lra |].
  apply exp_ineq1. lra.
Qed.

Lemma Math_pow_8_08 : 4 < Math_pow 8 0.8 < 8.
Proof.
  unfold Math_pow.
  assert (E8 : 8 = Rpower 2 3).
  { replace 3 with (INR 3) by (simpl; lra).
    rewrite Rpower_pow by lra. simpl. lra. }
  assert (E4 : 4 = Rpower 2 2).
  { replace 2 with (INR 2) at 2 by (simpl; lra).
    rewrite Rpower_pow by lra. simpl. lra. }
  assert (E : Rpower 8 0.8 = Rpower 2 (3 * 0.8)).
  { rewrite <- Rpower_mult, <- E8. reflexivity. }
  rewrite E. split.
  - rewrite E4. apply Rpower_lt; lra.
  - rewrite E8. apply Rpower_lt; lra.
Qed.

Lemma radiusRsun_8 : 4 < radiusRsun 8 < 8.
Proof.
  unfold radiusRsun. pose proof Math_pow_8_08.
  rewrite clamp_id; lra.
Qed.

Lemma radiusRsun_1 : radiusRsun 1 = 1.
Proof. unfold radiusRsun. rewrite Math_pow_one. apply clamp_id. lra. Qed.

Lemma rocheLobe_8_1 : rocheLobeRadiusAU 8 1 0.03 < 0.0174.
Proof.
  unfold rocheLobeRadiusAU. cbv zeta.
  rewrite clamp_id by lra.
  replace (8 / 1) with (2 * 2 * 2) by lra.
  rewrite Math_cbrt_cube by lra.
  unfold Math_log.
  replace (1 + 2) with 3 by lra.
  pose proof ln_3_lower as Hl.
  set (l := ln 3) in *.
  assert (Hd : 0 < 0.6 * (2 * 2) + l) by lra.
  apply (Rmult_lt_reg_r (0.6 * (2 * 2) + l)); [exact Hd |].
  replace (0.49 * (2 * 2) / (0.6 * (2 * 2) + l) * 0.03 * (0.6 * (2 * 2) + l))
    with (0.49 * (2 * 2) * 0.03) by (field; lra).
  lra.
Qed.

Lemma rocheLobe_1_8 : 0.0056 < rocheLobeRadiusAU 1 8 0.03.
Proof.
  unfold rocheLobeRadiusAU. cbv zeta.
  rewrite clamp_id by lra.
  replace (1 / 8) with (1 / 2 * (1 / 2) * (1 / 2)) by lra.
  rewrite Math_cbrt_cube by lra.
  unfold Math_log.
  pose proof ln_three_halves_upper as Hl.
  assert (Hp : 0 < ln (1 + 1 / 2)) by (apply Math_log_pos; lra).
  set (l := ln (1 + 1 / 2)) in *.
  assert (Hd : 0 < 0.6 * (1 / 2 * (1 / 2)) + l) by lra.
  apply (Rmult_lt_reg_r (0.6 * (1 / 2 * (1 / 2)) + l)); [exact Hd |].
  replace (0.49 * (1 / 2 * (1 / 2)) / (0.6 * (1 / 2 * (1 / 2)) + l) * 0.03
           * (0.6 * (1 / 2 * (1 / 2)) + l))
    with (0.49 * (1 / 2 * (1 / 2)) * 0.03) by (field; lra).
  lra.
Qed.

Lemma rlofState_overfill :
  overfill1 rlofState = true /\ overfill2 rlofState = false.
Proof.
  destruct rlofState_fields as (E1 & E2 & _ & Es & _).
  assert (M8 : clamp 8 0.1 50 = 8) by (apply clamp_id; lra).
  assert (M1 : clamp 1 0.1 50 = 1) by (apply clamp_id; lra).
  split.
  - apply overfill1_iff. rewrite E1, E2, Es. simpl massCurrent.
    rewrite M8, M1. unfold stellarRadiusAU.
    pose proof radiusRsun_8. pose proof rocheLobe_8_1. lra.
  - apply overfill2_false_iff. rewrite E1, E2, Es. simpl massCurrent.
    rewrite M8, M1. unfold stellarRadiusAU.
    rewrite radiusRsun_1. pose proof rocheLobe_1_8. lra.
Qed.

Lemma massCurrent_makeStar (m : R) :
  0.1 <= m <= 50 -> massCurrent (makeStar m) = m.
Proof. intro H. simpl. apply clamp_id, H. Qed.

Lemma Math_min_left (a b : R) : a <= b -> Math_min a b = a.
Proof. apply Rmin_left. Qed.

Lemma doMassTransfer_amount_witness :
  binary rlofState = true /\
  massCurrent (star1 (doMassTransfer 1e6 rlofState)) = 7.8 /\
  massCurrent (star2 (doMassTransfer 1e6 rlofState)) = 1.2.
Proof.
  destruct rlofState_fields as (E1 & E2 & Hb & Es & Er).
  destruct rlofState_overfill as [O1 O2].
  apply overfill1_iff in O1. apply overfill2_false_iff in O2.
  split; [exact Hb |].
  destruct (doMassTransfer_amount rlofState 1e6 Hb) as [A _].
  cbv zeta in A.
  assert (N1 : ended (star1 rlofState) = false) by (rewrite E1; reflexivity).
  assert (N2 : ended (star2 rlofState) = false) by (rewrite E2; reflexivity).
  destruct (A N1 N2 O1 O2) as [_ [Hpos _]].
  assert (M1 : massCurrent (star1 rlofState) = 8)
    by (rewrite E1; apply massCurrent_makeStar; lra).
  assert (M2 : massCurrent (star2 rlofState) = 1)
    by (rewrite E2; apply massCurrent_makeStar; lra).
  assert (C : Math_min (transferRatePerYear rlofState * 1e6)
                       (massCurrent (star1 rlofState) - 0.1) = 0.2).
  { rewrite Er, M1. unfold MYR, YEAR.
    rewrite Math_min_left; lra. }
  rewrite C, M1, M2 in Hpos.
  destruct Hpos as (H1 & H2); [lra |].
  split; lra.
Defined.

Lemma transferMass_recomputes_witness :
  0 < Math_min 0.2 (massCurrent (makeStar 8) - 0.1) /\
  massCurrent (fst (transferMass (makeStar 8) (makeStar 1) 0.2)) = 7.8 /\
  fate (fst (transferMass (makeStar 8) (makeStar 1) 0.2)) = WhiteDwarf /\
  tTotal (snd (transferMass (makeStar 8) (makeStar 1) 0.2)) =
    1.11 * msLifetimeYears 1.2 /\
  age (fst (transferMass (makeStar 8) (makeStar 1) 0.2)) = 0 /\
  massInitial (snd (transferMass (makeStar 8) (makeStar 1) 0.2)) = 1.
Proof.
  assert (M8 : massCurrent (makeStar 8) = 8)
    by (apply massCurrent_makeStar; lra).
  assert (M1 : massCurrent (makeStar 1) = 1)
    by (apply massCurrent_makeStar; lra).
  assert (C : Math_min 0.2 (massCurrent (makeStar 8) - 0.1) = 0.2)
    by (rewrite M8; apply Math_min_left; lra).
  assert (Hpos : 0 < Math_min 0.2 (massCurrent (makeStar 8) - 0.1))
    by (rewrite C; lra).
  split; [exact Hpos |].
  destruct (transferMass_recomputes (makeStar 8) (makeStar 1) 0.2 Hpos)
    as ((Hd & Ha) & ((Fd & _) & (_ & Ta & Pa & Ga & Sa)) & (Ad & _) & (_ & Ia)).
  rewrite C, M8 in Hd. rewrite C, M1 in Ha.
  assert (Hd' : massCurrent (fst (transferMass (makeStar 8) (makeStar 1) 0.2))
                = 7.8) by lra.
  split; [exact Hd' |].
  split.
  { rewrite Fd, Hd'. apply fateForMass_cases. lra. }
  split.
  { rewrite Sa, Pa, Ga, Ta, Ha.
    replace (1 + 0.2) with 1.2 by lra. lra. }
  split; [exact Ad |].
  rewrite Ia. simpl. apply clamp_id. lra.
Defined.

(** ** End of life *)

Module PaintFacts.
Import String Paint.
Local Open Scope string_scope.

Lemma prefix_empty (s : string) : prefix "" s = true.
Proof. destruct s; reflexivity. Qed.

Lemma drawMultiGlow_rgb (rest : string) :
  drawMultiGlow ("rgb(" ++ rest) = true.
Proof.
  unfold drawMultiGlow, addColorStop, cssColor. cbn.
  rewrite !prefix_empty. reflexivity.
Qed.

Lemma drawPhotosphere_rgb (rest : string) :
  drawPhotosphere ("rgb(" ++ rest) = true.
Proof.
  unfold drawPhotosphere, addColorStop, cssColor. cbn.
  rewrite !prefix_empty. reflexivity.
Qed.

Lemma colorForTemp_rgb (T : R) :
  exists rest : string, colorForTemp T = "rgb(" ++ rest.
Proof. unfold colorForTemp. cbv zeta. eexists. reflexivity. Qed.

(** The colour stop [drawMultiGlow] builds from the colour that
    [drawCompactObject] hands it for a white dwarf and for a neutron
    star. *)
Lemma compact_glow_stop :
  replace ")" ",0.8)" (replace "rgb" "rgba" "rgba(180,210,255,0.7)")
    = "rgbaa(180,210,255,0.7,0.8)" /\
  replace ")" ",0.8)" (replace "rgb" "rgba" "rgba(199,125,255,0.8)")
    = "rgbaa(199,125,255,0.8,0.8)" /\
  addColorStop "rgbaa(180,210,255,0.7,0.8)" = false /\
  addColorStop "rgbaa(199,125,255,0.8,0.8)" = false.
Proof. repeat split; reflexivity. Qed.

End PaintFacts.

(** A star that has not ended is always painted; of the ended stars
    only a black hole is. *)
Lemma paintStar_cases (s : Star) :
  paintStar s =
    if ended s
    then match fate s with BlackHole => true | _ => false end
    else true.
Proof.
  unfold paintStar, updateStarParams. cbv beta iota zeta.
  destruct (ended s).
  - unfold Paint.drawCompactObject. destruct (fate s); reflexivity.
  - destruct (PaintFacts.colorForTemp_rgb
                (temperatureK (luminosityLsun (massCurrent s))
                              (radiusRsun (massCurrent s)))) as [rest E].
    rewrite E.
    rewrite PaintFacts.drawMultiGlow_rgb, PaintFacts.drawPhotosphere_rgb.
    reflexivity.
Qed.

Lemma paintStar_living (s : Star) : ended s = false -> paintStar s = true.
Proof. intro H. rewrite paintStar_cases, H. reflexivity. Qed.

Lemma paintStar_black_hole (s : Star) :
  fate s = BlackHole -> paintStar s = true.
Proof. intro H. rewrite paintStar_cases, H. destruct (ended s); reflexivity. Qed.

Lemma paintStar_false (s : Star) :
  paintStar s = false <-> ended s = true /\ fate s <> BlackHole.
Proof.
  rewrite paintStar_cases.
  destruct (ended s); destruct (fate s); split;
    try discriminate; try reflexivity; try (intros [? ?]; congruence);
    intros _; split; (reflexivity || discriminate).
Qed.

Lemma triggerSupernova_life (s : Star) (ex : list Explosion) :
  same_life s (fst (triggerSupernova s ex)) /\
  justEnded (fst (triggerSupernova s ex)) = false.
Proof.
  unfold triggerSupernova, same_life.
  destruct (justEnded s) eqn:J.
  - destruct (geb (massInitial s) 8 && negb (hadSupernova s)); simpl;
      repeat split; reflexivity.
  - simpl. repeat split; (reflexivity || exact J).
Qed.

Lemma same_life_refl (s : Star) : same_life s s.
Proof. unfold same_life. repeat split; reflexivity. Qed.


(** The draw pass leaves age, lifetime, [ended] and the collapse fields
    alone; when it returns, it has lowered [justEnded] on every star of
    the simulation. *)
Lemma updateUI_life (w : Which) (st : State) :
  same_life (star_of w st) (star_of w (updateUI st)) /\
  (updateUI_throws st = false -> active w st = true ->
   justEnded (star_of w (updateUI st)) = false).
Proof.
  split.
  - destruct (updateUI_star w st) as [E | [_ [ex E]]]; rewrite E.
    + apply same_life_refl.
    + apply triggerSupernova_life.
  - intros Ht Ha.
    destruct (updateUI_returns w st Ht Ha) as [ex E]. rewrite E.
    apply triggerSupernova_life.
Qed.

Lemma ageStar_reaches_end (dtYears dtMs : R) (s : Star) :
  ended s = false ->
  dtYears >= tTotal s - age s ->
  let s' := ageStar dtYears dtMs s in
  age s' = tTotal s /\ tTotal s' = tTotal s /\ ended s' = true /\
  justEnded s' = true /\ collapseAnimating s' = true /\
  collapseProgress s' = 0.
Proof.
  intros He Hdt. cbv zeta. unfold ageStar. rewrite He. simpl.
  assert (G : geb (age s + dtYears) (tTotal s) = true)
    by (apply geb_true_iff; lra).
  rewrite G. simpl. repeat split; reflexivity.
Qed.

Lemma ageStar_after_end (dtYears dtMs : R) (s : Star) :
  ended s = true ->
  let s' := ageStar dtYears dtMs s in
  age s' = age s /\ tTotal s' = tTotal s /\ ended s' = true /\
  justEnded s' = justEnded s.
Proof.
  intro He. cbv zeta. unfold ageStar. rewrite He. simpl.
  destruct (collapseAnimating s); [| auto].
  destruct (geb _ 1); simpl; auto.
Qed.

Lemma ageStars_star (w : Which) (dtYears dtMs : R) (st : State) :
  active w st = true ->
  star_of w (ageStars dtYears dtMs st) = ageStar dtYears dtMs (star_of w st).
Proof.
  intro Ha. unfold ageStars. simpl.
  destruct w; simpl in *.
  - destruct (binary st); reflexivity.
  - rewrite Ha. reflexivity.
Qed.

Lemma ageStars_binary (dtYears dtMs : R) (st : State) :
  binary (ageStars dtYears dtMs st) = binary st.
Proof. unfold ageStars. simpl. destruct (binary st) eqn:B; simpl; exact B. Qed.

Lemma doMassTransfer_ended (w : Which) (dtYears : R) (st : State) :
  ended (star_of w st) = true -> doMassTransfer dtYears st = st.
Proof.
  intro He. apply doMassTransfer_idle. destruct w; simpl in He; auto.
Qed.

Lemma doMassTransfer_binary (dtYears : R) (st : State) :
  binary (doMassTransfer dtYears st) = binary st.
Proof.
  unfold doMassTransfer.
  destruct (binary st) eqn:B; simpl; [| exact B].
  destruct (negb (ended (star1 st)) && negb (ended (star2 st))); [| exact B].
  destruct (overfill1 st && negb (overfill2 st)).
  - destruct (transferMass _ _ _). exact B.
  - destruct (overfill2 st && negb (overfill1 st)); [| exact B].
    destruct (transferMass _ _ _). exact B.
Qed.

Lemma integrate_binary (dtYears dtMs : R) (st : State) :
  binary (integrate dtYears dtMs st) = binary st.
Proof.
  unfold integrate. rewrite doMassTransfer_binary. apply ageStars_binary.
Qed.


Lemma active_binary (w : Which) (st st' : State) :
  binary st' = binary st -> active w st' = active w st.
Proof. intro H. destruct w; simpl; congruence. Qed.

(** The draw pass of [advanceTime] sees the integrated state, with the
    explosion list updated. *)
Lemma advanceTime_life (w : Which) (dtYears dtMs : R) (st : State) :
  same_life (star_of w (integrate dtYears dtMs st))
            (star_of w (advanceTime dtYears dtMs st)) /\
  (advanceTime_throws dtYears dtMs st = false -> active w st = true ->
   justEnded (star_of w (advanceTime dtYears dtMs st)) = false).
Proof.
  unfold advanceTime, advanceTime_throws. cbv zeta.
  set (h := integrate dtYears dtMs st).
  pose proof (updateUI_life w
    (set_explosions (updateExplosions dtMs (explosions h)) h)) as [L J].
  split.
  - destruct w; exact L.
  - intros Ht Ha. apply J; [exact Ht |].
    rewrite <- Ha. apply active_binary. simpl.
    apply integrate_binary.
Qed.

Lemma ageStars_inactive (w : Which) (dtYears dtMs : R) (st : State) :
  active w st = false ->
  star_of w (ageStars dtYears dtMs st) = star_of w st.
Proof.
  intro Ha. destruct w; simpl in Ha; [discriminate |].
  unfold ageStars. simpl. rewrite Ha. reflexivity.
Qed.

Lemma integrate_reaches_end (w : Which) (dtYears dtMs : R) (st : State) :
  active w st = true ->
  ended (star_of w st) = false ->
  dtYears >= tTotal (star_of w st) - age (star_of w st) ->
  star_of w (integrate dtYears dtMs st)
    = ageStar dtYears dtMs (star_of w st).
Proof.
  intros Ha He Hdt. unfold integrate.
  pose proof (ageStars_star w dtYears dtMs st Ha) as E.
  destruct (ageStar_reaches_end dtYears dtMs _ He Hdt) as (_ & _ & He' & _).
  rewrite (doMassTransfer_ended w); [exact E |].
  rewrite E. exact He'.
Qed.

Lemma integrate_after_end (w : Which) (dtYears dtMs : R) (st : State) :
  ended (star_of w st) = true ->
  let s' := star_of w (integrate dtYears dtMs st) in
  age s' = age (star_of w st) /\ tTotal s' = tTotal (star_of w st) /\
  ended s' = true /\ justEnded s' = justEnded (star_of w st).
Proof.
  intro He. cbv zeta. unfold integrate.
  destruct (active w st) eqn:Ha.
  - pose proof (ageStars_star w dtYears dtMs st Ha) as E.
    destruct (ageStar_after_end dtYears dtMs _ He) as (A & T & He' & J).
    rewrite (doMassTransfer_ended w); rewrite E; auto.
  - pose proof (ageStars_inactive w dtYears dtMs st Ha) as E.
    rewrite (doMassTransfer_ended w); rewrite E; auto.
Qed.

(** The massive-star preset, and the step that ends the star. *)
Lemma massiveState_fields :
  star1 massiveState = makeStar 20 /\
  binary massiveState = false /\
  explosions massiveState = [] /\
  justEnded (star1 massiveState) = false /\
  justEnded (star2 massiveState) = false.
Proof.
  unfold massiveState, run. simpl fold_left. unfold handle, applyPreset.
  cbv zeta. rewrite updateUI_quiet by reflexivity.
  repeat split; reflexivity.
Qed.

Lemma makeStar_20_tTotal : 0 < tTotal (makeStar 20) <= 2e10.
Proof.
  simpl. rewrite clamp_id by lra.
  assert (P : 0 < Math_pow 20 (-2.5) <= 1).
  { split; [apply Math_pow_pos; lra |].
    unfold Math_pow, Rpower. rewrite <- exp_0. 
    assert (L : 0 < ln 20) by (rewrite <- ln_1; apply ln_increasing; lra).
    destruct (Rle_lt_or_eq_dec (-2.5 * ln 20) 0) as [Hl | He]; [nra | |].
    - left. apply exp_increasing. exact Hl.
    - rewrite He. right. reflexivity. }
  unfold msLifetimeYears, GYR, YEAR. nra.
Qed.

Lemma makeStar_20_fate : fate (makeStar 20) = BlackHole.
Proof.
  simpl. rewrite clamp_id by lra. apply fateForMass_cases. lra.
Qed.


Lemma ageStar_fate (dtYears dtMs : R) (s : Star) :
  fate (ageStar dtYears dtMs s) = fate s.
Proof.
  unfold ageStar. cbv zeta.
  destruct (negb (ended s)); [destruct (geb _ _) |
    destruct (collapseAnimating s); [destruct (geb _ _) |]];
    reflexivity.
Qed.

Lemma triggerSupernova_fate (s : Star) (ex : list Explosion) :
  fate (fst (triggerSupernova s ex)) = fate s.
Proof.
  unfold triggerSupernova.
  destruct (justEnded s); [| reflexivity].
  destruct (geb (massInitial s) 8 && negb (hadSupernova s)); reflexivity.
Qed.


(** A single star bound to become a black hole: no step of it throws,
    and it stays what it is. *)
Lemma lone_black_hole_integrate (dtYears dtMs : R) (st : State) :
  binary st = false -> fate (star1 st) = BlackHole ->
  fate (star1 (integrate dtYears dtMs st)) = BlackHole.
Proof.
  intros B F. unfold integrate.
  rewrite doMassTransfer_single by (rewrite ageStars_binary; exact B).
  change (star1 (ageStars dtYears dtMs st))
    with (star_of Primary (ageStars dtYears dtMs st)).
  rewrite ageStars_star by reflexivity.
  rewrite ageStar_fate. exact F.
Qed.

Lemma lone_black_hole_returns (dtYears dtMs : R) (st : State) :
  binary st = false -> fate (star1 st) = BlackHole ->
  advanceTime_throws dtYears dtMs st = false.
Proof.
  intros B F. unfold advanceTime_throws. cbv zeta.
  rewrite updateUI_throws_iff.
  change (binary (set_explosions
            (updateExplosions dtMs (explosions (integrate dtYears dtMs st)))
            (integrate dtYears dtMs st)))
    with (binary (integrate dtYears dtMs st)).
  rewrite integrate_binary, B.
  change (star1 (set_explosions
            (updateExplosions dtMs (explosions (integrate dtYears dtMs st)))
            (integrate dtYears dtMs st)))
    with (star1 (integrate dtYears dtMs st)).
  rewrite (paintStar_black_hole _
             (lone_black_hole_integrate dtYears dtMs st B F)).
  reflexivity.
Qed.


Lemma massiveState_black_hole :
  binary massiveState = false /\ fate (star1 massiveState) = BlackHole.
Proof.
  destruct massiveState_fields as (E & B & _).
  split; [exact B |]. rewrite E. apply makeStar_20_fate.
Qed.

Lemma massiveState_returns (dtYears dtMs : R) :
  advanceTime_throws dtYears dtMs massiveState = false.
Proof.
  destruct massiveState_black_hole as [B F].
  apply lone_black_hole_returns; assumption.
Qed.



(** A remnant that is not a black hole stops the draw pass, which leaves
    the star as it found it. *)
Lemma remnant_stops_the_draw (w : Which) (st : State) :
  active w st = true -> ended (star_of w st) = true ->
  fate (star_of w st) <> BlackHole ->
  updateUI_throws st = true /\ star_of w (updateUI st) = star_of w st.
Proof.
  intros A E F.
  assert (P : paintStar (star_of w st) = false)
    by (apply paintStar_false; split; assumption).
  split.
  - rewrite updateUI_throws_iff.
    destruct w; unfold star_of in P; unfold active in A.
    + rewrite P. reflexivity.
    + rewrite A, P. apply orb_true_r.
  - destruct (updateUI_star w st) as [E' | [P' _]]; [exact E' |].
    rewrite P in P'. discriminate.
Qed.

Lemma advanceTime_remnant (w : Which) (dtYears dtMs : R) (st : State) :
  active w st = true ->
  ended (star_of w (integrate dtYears dtMs st)) = true ->
  fate (star_of w (integrate dtYears dtMs st)) <> BlackHole ->
  advanceTime_throws dtYears dtMs st = true /\
  star_of w (advanceTime dtYears dtMs st)
    = star_of w (integrate dtYears dtMs st).
Proof.
  intros A E F. unfold advanceTime_throws, advanceTime. cbv zeta.
  set (h := integrate dtYears dtMs st) in *.
  set (m := set_explosions (updateExplosions dtMs (explosions h)) h).
  assert (Em : star_of w m = star_of w h) by (destruct w; reflexivity).
  assert (Am : active w m = true).
  { rewrite <- A. apply active_binary.
    apply (integrate_binary dtYears dtMs st). }
  rewrite <- Em in E, F.
  destruct (remnant_stops_the_draw w m Am E F) as [T S].
  split; [exact T |]. rewrite S. exact Em.
Qed.




Lemma initialState_primary_due :
  2e10 >= tTotal (star_of Primary initialState)
          - age (star_of Primary initialState).
Proof.
  simpl. rewrite clamp_id by lra.
  replace 1.0 with 1 by lra. rewrite msLifetimeYears_one. lra.
Qed.

(** ** The simulation clock *)

Lemma falsy_nonzero (x : R) : x <> 0 -> falsy x = false.
Proof.
  intro H. unfold falsy.
  destruct (Req_dec_T x 0); [contradiction | reflexivity].
Qed.

(** C8: a frame of a running simulation advances the stars by
    [(dtMs / 1000) * (tTotal / 60)] years in auto-scale mode, [tTotal]
    being that of the primary star at the time of the frame, and by
    [(dtMs / 1000) * speed * 1e7] years in manual mode, for every frame
    delta [dtMs]. *)
Theorem tick_clock_scaling (st : State) (ts : R) :
  running st = true ->
  let dtMs := ts - (if falsy (lastTs st) then ts else lastTs st) in
  tick true ts st =
    advanceTime ((dtMs / 1000) * (tTotal (star1 st) / 60)) dtMs
                (set_lastTs ts st) /\
  tick false ts st =
    advanceTime ((dtMs / 1000) * speed st * 1e7) dtMs (set_lastTs ts st) /\
  (forall d : R,
      dtYearsOf true st d = (d / 1000) * (tTotal (star1 st) / 60) /\
      dtYearsOf false st d = (d / 1000) * speed st * 1e7).
Proof.
  intro Hr. cbv zeta. unfold tick. rewrite Hr. simpl negb. cbv iota.
  destruct (falsy (lastTs st)); repeat split; reflexivity.
Qed.

Lemma playingState_lastTs : falsy (lastTs playingState) = false.
Proof. apply falsy_nonzero. simpl. lra. Qed.

Lemma tick_clock_scaling_witness :
  running playingState = true /\
  tick true 1016 playingState =
    advanceTime (((1016 - 1000) / 1000) * (tTotal (star1 playingState) / 60))
                (1016 - 1000) (set_lastTs 1016 playingState).
Proof.
  assert (Hr : running playingState = true) by reflexivity.
  split; [exact Hr |].
  destruct (tick_clock_scaling playingState 1016 Hr) as [Hauto _].
  rewrite playingState_lastTs in Hauto.
  exact Hauto.
Defined.

(** ** Reaching the end of life and the [ended] flag *)

Lemma makeStar_tTotal_pos (m : R) : 0 < tTotal (makeStar m).
Proof.
  simpl. pose proof (clamp_range m 0.1 50).
  assert (0 < msLifetimeYears (clamp m 0.1 50))
    by (apply msLifetimeYears_pos; lra).
  lra.
Qed.

Lemma ageStar_ended_when_due (dtYears dtMs : R) (s : Star) :
  age (ageStar dtYears dtMs s) >= tTotal (ageStar dtYears dtMs s) ->
  ended (ageStar dtYears dtMs s) = true.
Proof.
  unfold ageStar. destruct (ended s) eqn:He; simpl.
  - destruct (collapseAnimating s); [| intros _; exact He].
    destruct (geb _ 1); intros _; exact He.
  - destruct (geb (age s + dtYears) (tTotal s)) eqn:G; simpl.
    + reflexivity.
    + apply geb_false_iff in G. lra.
Qed.

Lemma updateUI_star_fields (w : Which) (st : State) :
  ended (star_of w (updateUI st)) = ended (star_of w st) /\
  age (star_of w (updateUI st)) = age (star_of w st) /\
  tTotal (star_of w (updateUI st)) = tTotal (star_of w st).
Proof.
  destruct (updateUI_life w st) as [(A & T & E & _) _]. auto.
Qed.

Lemma setSimulationAge_star (w : Which) (ageYears : R) (st : State) :
  let s := star_of w st in
  let s' := star_of w (setSimulationAge ageYears st) in
  ended s' = ended s /\ tTotal s' = tTotal s /\
  age s' = if active w st then clamp ageYears 0 (tTotal s) else age s.
Proof.
  cbv zeta. unfold setSimulationAge. cbv zeta.
  match goal with
  | |- context [updateUI ?m] =>
      destruct (updateUI_star_fields w m) as (E & A & T); rewrite E, A, T
  end.
  destruct w; simpl; destruct (binary st); simpl; auto.
Qed.

Lemma transferMass_ended_age (d a : Star) (dm : R) :
  (ended (fst (transferMass d a dm)) = ended d /\
   age (fst (transferMass d a dm)) = age d) /\
  (ended (snd (transferMass d a dm)) = ended a /\
   age (snd (transferMass d a dm)) = age a).
Proof.
  unfold transferMass. destruct (leb _ 0); simpl; auto.
Qed.

Lemma doMassTransfer_ended_age (w : Which) (dtYears : R) (st : State) :
  ended (star_of w (doMassTransfer dtYears st)) = ended (star_of w st) /\
  age (star_of w (doMassTransfer dtYears st)) = age (star_of w st).
Proof.
  unfold doMassTransfer.
  destruct (negb (binary st)); [auto |].
  destruct (negb (ended (star1 st)) && negb (ended (star2 st))); [| auto].
  destruct (overfill1 st && negb (overfill2 st)).
  - destruct (transferMass_ended_age (star1 st) (star2 st)
                (transferRatePerYear st * dtYears)) as [[? ?] [? ?]].
    destruct (transferMass _ _ _). destruct w; simpl in *; auto.
  - destruct (overfill2 st && negb (overfill1 st)); [| auto].
    destruct (transferMass_ended_age (star2 st) (star1 st)
                (transferRatePerYear st * dtYears)) as [[? ?] [? ?]].
    destruct (transferMass _ _ _). destruct w; simpl in *; auto.
Qed.

Lemma initial_primary_tTotal : tTotal (star1 initialState) = 1.11e10.
Proof.
  simpl. rewrite clamp_id by lra.
  replace 1.0 with 1 by lra. rewrite msLifetimeYears_one. lra.
Qed.

(** Scrubbing the timeline to its right edge: the primary star is at
    [age = tTotal] and has not ended. *)
Lemma scrub_to_end_not_ended :
  age (star1 (run [Timeline 1] initialState))
    = tTotal (star1 (run [Timeline 1] initialState)) /\
  ended (star1 (run [Timeline 1] initialState)) = false.
Proof.
  change (run [Timeline 1] initialState)
    with (setSimulationAge (clamp 1 0 1 * tTotal (star1 initialState))
                           initialState).
  destruct (setSimulationAge_star Primary
              (clamp 1 0 1 * tTotal (star1 initialState)) initialState)
    as (E & T & A).
  cbv zeta in E, T, A. unfold star_of, active in E, T, A.
  rewrite E, T, A. split; [| reflexivity].
  rewrite initial_primary_tTotal.
  rewrite (clamp_id 1) by lra. rewrite clamp_id; lra.
Qed.

(** C7, as stated, fails: after a click on the right edge of the
    timeline the primary star has [age = tTotal] and [ended = false]. *)
Lemma ended_when_due_counterexample :
  ~ (forall (es : list Event) (w : Which),
        age (star_of w (run es initialState))
          = tTotal (star_of w (run es initialState)) ->
        ended (star_of w (run es initialState)) = true).
Proof.
  intro H.
  destruct scrub_to_end_not_ended as [A E].
  specialize (H [Timeline 1] Primary A).
  unfold star_of in H. rewrite E in H. discriminate.
Qed.

(** C7, amended: a star built by [makeStar] starts with
    [age < tTotal] and [ended = false]; right after the ageing loop of
    [advanceTime] every active star with [age >= tTotal] has
    [ended = true]; [setSimulationAge] assigns the clamped age and
    [doMassTransfer] recomputes durations, and neither changes [ended]. *)
Theorem ended_after_ageing :
  (forall m : R,
      age (makeStar m) < tTotal (makeStar m) /\ ended (makeStar m) = false) /\
  (forall (w : Which) (st : State) (dtYears dtMs : R),
      active w st = true ->
      age (star_of w (ageStars dtYears dtMs st))
        >= tTotal (star_of w (ageStars dtYears dtMs st)) ->
      ended (star_of w (ageStars dtYears dtMs st)) = true) /\
  (forall (w : Which) (st : State) (ageYears : R),
      ended (star_of w (setSimulationAge ageYears st))
        = ended (star_of w st) /\
      (active w st = true ->
       age (star_of w (setSimulationAge ageYears st))
         = clamp ageYears 0 (tTotal (star_of w st)))) /\
  (forall (w : Which) (st : State) (dtYears : R),
      ended (star_of w (doMassTransfer dtYears st)) = ended (star_of w st) /\
      age (star_of w (doMassTransfer dtYears st)) = age (star_of w st)).
Proof.
  split; [| split; [| split]].
  - intro m. split; [| reflexivity].
    pose proof (makeStar_tTotal_pos m). simpl age. lra.
  - intros w st dtYears dtMs Ha.
    rewrite (ageStars_star w dtYears dtMs st Ha).
    apply ageStar_ended_when_due.
  - intros w st ageYears.
    destruct (setSimulationAge_star w ageYears st) as (E & _ & A).
    split; [exact E |].
    intro Ha. rewrite Ha in A. exact A.
  - intros w st dtYears. apply doMassTransfer_ended_age.
Qed.

Lemma initialState_aged_due :
  age (star_of Primary (ageStars 2e10 16 initialState))
    >= tTotal (star_of Primary (ageStars 2e10 16 initialState)).
Proof.
  rewrite (ageStars_star Primary 2e10 16 initialState) by reflexivity.
  destruct (ageStar_reaches_end 2e10 16 (star_of Primary initialState))
    as (A & T & _); [reflexivity | apply initialState_primary_due |].
  rewrite A, T. lra.
Qed.

Lemma ended_after_ageing_witness :
  active Primary initialState = true /\
  age (star_of Primary (ageStars 2e10 16 initialState))
    >= tTotal (star_of Primary (ageStars 2e10 16 initialState)) /\
  ended (star_of Primary (ageStars 2e10 16 initialState)) = true.
Proof.
  assert (Ha : active Primary initialState = true) by reflexivity.
  split; [exact Ha |]. split; [exact initialState_aged_due |].
  destruct ended_after_ageing as (_ & H & _).
  exact (H Primary initialState 2e10 16 Ha initialState_aged_due).
Defined.

(** ** The separation and the transfer rate *)

Lemma updateUI_knobs (st : State) : knobs (updateUI st) = knobs st.
Proof.
  unfold updateUI, drawStars, drawStarAtWorld.
  destruct (triggerSupernova (star1 st) (explosions st)) as [s1 ex1].
  destruct (negb (binary st)); destruct (paintStar (star1 st));
    try reflexivity.
  destruct (paintStar (star2 st));
    [destruct (triggerSupernova (star2 st) ex1) |]; reflexivity.
Qed.

Lemma doMassTransfer_knobs (dtYears : R) (st : State) :
  knobs (doMassTransfer dtYears st) = knobs st.
Proof.
  unfold doMassTransfer.
  destruct (negb (binary st)); [reflexivity |].
  destruct (negb (ended (star1 st)) && negb (ended (star2 st)));
    [| reflexivity].
  destruct (overfill1 st && negb (overfill2 st)).
  - destruct (transferMass _ _ _). reflexivity.
  - destruct (overfill2 st && negb (overfill1 st)); [| reflexivity].
    destruct (transferMass _ _ _). reflexivity.
Qed.

Lemma advanceTime_knobs (dtYears dtMs : R) (st : State) :
  knobs (advanceTime dtYears dtMs st) = knobs st.
Proof.
  unfold advanceTime, integrate. cbv zeta.
  rewrite updateUI_knobs.
  change (knobs (doMassTransfer dtYears (ageStars dtYears dtMs st))
          = knobs st).
  rewrite doMassTransfer_knobs. unfold ageStars. simpl.
  destruct (binary st); reflexivity.
Qed.

Lemma tick_knobs (autoScale : bool) (ts : R) (st : State) :
  knobs (tick autoScale ts st) = knobs st.
Proof.
  unfold tick. destruct (negb (running st)); [reflexivity |].
  cbv zeta. rewrite advanceTime_knobs.
  destruct (falsy (lastTs st)); reflexivity.
Qed.

Lemma setSimulationAge_knobs (ageYears : R) (st : State) :
  knobs (setSimulationAge ageYears st) = knobs st.
Proof.
  unfold setSimulationAge. cbv zeta. rewrite updateUI_knobs.
  simpl. destruct (binary st); reflexivity.
Qed.

Lemma active_primary (st : State) : active Primary st = true.
Proof. reflexivity. Qed.

(** ** A failure that surfaces to the caller *)

Lemma integrate_remnant (w : Which) (dtYears dtMs : R) (st : State) :
  ended (star_of w st) = true ->
  ended (star_of w (integrate dtYears dtMs st)) = true /\
  fate (star_of w (integrate dtYears dtMs st)) = fate (star_of w st).
Proof.
  intro E.
  destruct (integrate_after_end w dtYears dtMs st E) as (_ & _ & E' & _).
  split; [exact E' |].
  unfold integrate.
  destruct (active w st) eqn:A.
  - pose proof (ageStars_star w dtYears dtMs st A) as S.
    rewrite (doMassTransfer_ended w).
    + rewrite S. apply ageStar_fate.
    + rewrite S. apply (ageStar_after_end dtYears dtMs _ E).
  - pose proof (ageStars_inactive w dtYears dtMs st A) as S.
    rewrite (doMassTransfer_ended w); rewrite S; auto.
Qed.

Lemma initialState_fate : fate (star_of Primary initialState) = WhiteDwarf.
Proof.
  simpl. rewrite clamp_id by lra. apply fateForMass_cases. lra.
Qed.

(** C9: a failure does surface to the caller.  From the state the page
    starts in, the call [advanceTime(2e10, 16)] ends the star of one
    solar mass as a white dwarf, and the draw pass at the end of that
    very call throws: for a white dwarf and for a neutron star
    [drawCompactObject] hands [drawMultiGlow] a colour that begins with
    [rgba(], which line 402 rewrites to one that begins with [rgbaa(],
    and [addColorStop] rejects it.  The call leaves the star ended, with
    its [justEnded] flag still up; and from every state with such a
    remnant among its active stars every later call of [advanceTime]
    throws as well, whatever its arguments, and leaves the remnant
    ended with the fate it had. *)
Theorem advanceTime_failure_surfaces :
  let st1 := advanceTime 2e10 16 initialState in
  advanceTime_throws 2e10 16 initialState = true /\
  (ended (star_of Primary st1) = true /\
   fate (star_of Primary st1) = WhiteDwarf /\
   justEnded (star_of Primary st1) = true) /\
  (forall (w : Which) (dtYears dtMs : R) (st : State),
      active w st = true -> ended (star_of w st) = true ->
      fate (star_of w st) <> BlackHole ->
      advanceTime_throws dtYears dtMs st = true /\
      ended (star_of w (advanceTime dtYears dtMs st)) = true /\
      fate (star_of w (advanceTime dtYears dtMs st))
        = fate (star_of w st)).
Proof.
  cbv zeta.
  assert (A : active Primary initialState = true) by apply active_primary.
  assert (E0 : ended (star_of Primary initialState) = false)
    by reflexivity.
  pose proof (integrate_reaches_end Primary 2e10 16 initialState A E0
                initialState_primary_due) as S.
  destruct (ageStar_reaches_end 2e10 16 (star_of Primary initialState)
              E0 initialState_primary_due) as (_ & _ & En & J & _).
  assert (F : fate (star_of Primary (integrate 2e10 16 initialState))
              = WhiteDwarf).
  { rewrite S, ageStar_fate. exact initialState_fate. }
  rewrite <- S in En, J.
  assert (F' : fate (star_of Primary (integrate 2e10 16 initialState))
               <> BlackHole) by (rewrite F; discriminate).
  destruct (advanceTime_remnant Primary 2e10 16 initialState A En F')
    as [T K].
  split; [exact T |]. split.
  - rewrite K. split; [exact En |]. split; [exact F | exact J].
  - intros w dtYears dtMs st Aw Ew Fw.
    destruct (integrate_remnant w dtYears dtMs st Ew) as [E1 F1].
    assert (F2 : fate (star_of w (integrate dtYears dtMs st)) <> BlackHole)
      by (rewrite F1; exact Fw).
    destruct (advanceTime_remnant w dtYears dtMs st Aw E1 F2) as [T1 K1].
    split; [exact T1 |]. rewrite K1. split; [exact E1 | exact F1].
Qed.

(** * Further properties of the engine *)

(** ** Clamping and the power laws *)

Lemma clamp_monotone (v v' lo hi : R) :
  v <= v' -> clamp v lo hi <= clamp v' lo hi.
Proof.
  intro H. unfold clamp, Math_max, Math_min.
  apply Rle_max_compat_l. apply Rle_min_compat_l. exact H.
Qed.

(** X1: with [lo <= hi] the result of [clamp] lies in [lo, hi], is the
    value itself when that lies inside, and clamping twice changes
    nothing; [clamp] never reverses an order; with crossed bounds
    ([hi < lo]) it returns the lower bound [lo] for every value. *)
Theorem clamp_behaviour (v lo hi : R) :
  (lo <= hi ->
     lo <= clamp v lo hi <= hi /\
     (lo <= v <= hi -> clamp v lo hi = v) /\
     clamp (clamp v lo hi) lo hi = clamp v lo hi) /\
  (forall v' : R, v <= v' -> clamp v lo hi <= clamp v' lo hi) /\
  (hi < lo -> clamp v lo hi = lo).
Proof.
  split; [| split].
  - intro H. pose proof (clamp_range v lo hi H) as Hr.
    split; [exact Hr |]. split; [apply clamp_id |].
    apply clamp_id. exact Hr.
  - intros v'. apply clamp_monotone.
  - intro H. unfold clamp, Math_max, Math_min, Rmax, Rmin.
    destruct (Rle_dec hi v); destruct (Rle_dec lo _); lra.
Qed.

Lemma clamp_behaviour_witness :
  clamp 70 0.1 50 = 50 /\ clamp 7 50 0.1 = 50.
Proof.
  destruct (clamp_behaviour 70 0.1 50) as [H _].
  destruct (clamp_behaviour 7 50 0.1) as (_ & _ & K).
  assert (L : 0.1 <= 50) by lra.
  assert (C : 0.1 < 50) by lra.
  destruct (H L) as [Hr _].
  split; [| exact (K C)].
  destruct (clamp_cases 70 0.1 50 L) as [[? _] | [[? _] | [_ E]]];
    [lra | lra | exact E].
Defined.


Lemma Math_pow_le_base (x y c : R) :
  0 <= c -> 0 < x <= y -> Math_pow x c <= Math_pow y c.
Proof. intros Hc Hxy. unfold Math_pow. apply Rle_Rpower_l; assumption. Qed.

Lemma Math_pow_gt_base_neg (x y c : R) :
  c < 0 -> 0 < x < y -> Math_pow y c < Math_pow x c.
Proof.
  intros Hc [Hx Hxy]. unfold Math_pow, Rpower.
  apply exp_increasing.
  pose proof (ln_increasing x y Hx Hxy). nra.
Qed.

Lemma Math_pow_le_exponent (x a b : R) :
  1 <= x -> a <= b -> Math_pow x a <= Math_pow x b.
Proof.
  intros Hx Hab. unfold Math_pow, Rpower.
  assert (0 <= ln x).
  { destruct Hx as [Hx | <-]; [| rewrite ln_1; lra].
    left. rewrite <- ln_1. apply ln_increasing; lra. }
  destruct (Req_dec (a * ln x) (b * ln x)) as [E | N].
  - rewrite E. lra.
  - left. apply exp_increasing. nra.
Qed.

Lemma msLifetimeYears_lt (m1 m2 : R) :
  0 < m1 < m2 -> msLifetimeYears m2 < msLifetimeYears m1.
Proof.
  intro H. unfold msLifetimeYears, GYR, YEAR.
  assert (Math_pow m2 (-2.5) < Math_pow m1 (-2.5))
    by (apply Math_pow_gt_base_neg; lra).
  lra.
Qed.

(** X2: among positive masses a heavier star has a strictly shorter
    main-sequence lifetime, and every lifetime is positive. *)
Theorem msLifetimeYears_decreasing (m1 m2 : R) :
  0 < m1 < m2 ->
  0 < msLifetimeYears m2 < msLifetimeYears m1.
Proof.
  intros H. split.
  - apply msLifetimeYears_pos. lra.
  - apply msLifetimeYears_lt, H.
Qed.

Lemma msLifetimeYears_decreasing_witness :
  0 < 1 < 8 /\ msLifetimeYears 8 < 1e10.
Proof.
  assert (H : 0 < 1 < 8) by lra.
  split; [exact H |].
  destruct (msLifetimeYears_decreasing 1 8 H) as [_ K].
  rewrite msLifetimeYears_one in K. exact K.
Defined.

(** X3: among positive masses, more mass never means less luminosity or
    a smaller radius, clamps included; luminosity stays in
    [0.001, 1e6] and radius in [0.05, 2000]. *)
Theorem luminosity_radius_monotone (m1 m2 : R) :
  0 < m1 <= m2 ->
  luminosityLsun m1 <= luminosityLsun m2 /\
  radiusRsun m1 <= radiusRsun m2 /\
  0.001 <= luminosityLsun m1 <= 1e6 /\
  0.05 <= radiusRsun m1 <= 2000.
Proof.
  intro H. unfold luminosityLsun, radiusRsun.
  split; [| split; [| split]].
  - apply clamp_monotone. apply Math_pow_le_base; lra.
  - apply clamp_monotone. apply Math_pow_le_base; lra.
  - apply clamp_range. lra.
  - apply clamp_range. lra.
Qed.

Lemma luminosity_radius_monotone_witness :
  0 < 1 <= 8 /\ 1 <= luminosityLsun 8 /\ 1 <= radiusRsun 8.
Proof.
  assert (H : 0 < 1 <= 8) by lra.
  split; [exact H |].
  destruct (luminosity_radius_monotone 1 8 H) as (L & Rd & _).
  assert (L1 : luminosityLsun 1 = 1).
  { unfold luminosityLsun. rewrite Math_pow_one. apply clamp_id. lra. }
  rewrite L1 in L. rewrite radiusRsun_1 in Rd.
  split; assumption.
Defined.



Lemma Math_pow_id (m : R) : 0 < m -> Math_pow m 1 = m.
Proof. intro H. unfold Math_pow. apply Rpower_1, H. Qed.

Lemma Math_pow_ge_one (m c : R) : 1 <= m -> 0 <= c -> 1 <= Math_pow m c.
Proof.
  intros Hm Hc. rewrite <- (Math_pow_one c).
  apply Math_pow_le_base; lra.
Qed.






(** ** What only [makeStar] and [transferMass] change *)

Lemma same_physics_refl (s : Star) : same_physics s s.
Proof. unfold same_physics. repeat split; reflexivity. Qed.

Lemma same_physics_trans (a b c : Star) :
  same_physics a b -> same_physics b c -> same_physics a c.
Proof.
  unfold same_physics.
  intros (A1 & A2 & A3 & A4 & A5 & A6 & A7) (B1 & B2 & B3 & B4 & B5 & B6 & B7).
  repeat split; congruence.
Qed.

Lemma triggerSupernova_physics (s : Star) (ex : list Explosion) :
  same_physics s (fst (triggerSupernova s ex)).
Proof.
  unfold triggerSupernova.
  destruct (justEnded s); [| apply same_physics_refl].
  destruct (geb (massInitial s) 8 && negb (hadSupernova s)); simpl;
    unfold same_physics; repeat split; reflexivity.
Qed.

Lemma updateUI_physics (w : Which) (st : State) :
  same_physics (star_of w st) (star_of w (updateUI st)).
Proof.
  destruct (updateUI_star w st) as [E | [_ [ex E]]]; rewrite E.
  - apply same_physics_refl.
  - apply triggerSupernova_physics.
Qed.

Lemma ageStar_physics (dtYears dtMs : R) (s : Star) :
  same_physics s (ageStar dtYears dtMs s).
Proof.
  unfold ageStar. cbv zeta.
  destruct (negb (ended s)).
  - destruct (geb _ _); unfold same_physics; repeat split; reflexivity.
  - destruct (collapseAnimating s); [| apply same_physics_refl].
    destruct (geb _ _); unfold same_physics; repeat split; reflexivity.
Qed.

Lemma ageStars_physics (w : Which) (dtYears dtMs : R) (st : State) :
  same_physics (star_of w st) (star_of w (ageStars dtYears dtMs st)).
Proof.
  unfold ageStars. simpl.
  destruct (binary st), w; simpl;
    (apply ageStar_physics || apply same_physics_refl).
Qed.

Lemma setSimulationAge_physics (w : Which) (ageYears : R) (st : State) :
  same_physics (star_of w st) (star_of w (setSimulationAge ageYears st)).
Proof.
  unfold setSimulationAge. cbv zeta.
  match goal with
  | |- same_physics _ (star_of w (updateUI ?m)) =>
      apply (same_physics_trans _ (star_of w m));
        [| apply updateUI_physics]
  end.
  destruct (binary st) eqn:B, w; simpl; rewrite ?B; simpl;
    unfold same_physics; repeat split; reflexivity.
Qed.

(** ** What no frame and no scrub changes *)

Lemma transferMass_frame (d a : Star) (dm : R) :
  massInitial (fst (transferMass d a dm)) = massInitial d /\
  massInitial (snd (transferMass d a dm)) = massInitial a.
Proof. unfold transferMass. destruct (leb _ 0); simpl; auto. Qed.

Lemma doMassTransfer_frame (dtYears : R) (st : State) :
  massInitial (star1 (doMassTransfer dtYears st)) = massInitial (star1 st) /\
  massInitial (star2 (doMassTransfer dtYears st)) = massInitial (star2 st).
Proof.
  unfold doMassTransfer.
  destruct (negb (binary st)); [auto |].
  destruct (negb (ended (star1 st)) && negb (ended (star2 st))); [| auto].
  destruct (overfill1 st && negb (overfill2 st)).
  - destruct (transferMass_frame (star1 st) (star2 st)
                (transferRatePerYear st * dtYears)) as [F1 F2].
    destruct (transferMass _ _ _). simpl in *. auto.
  - destruct (overfill2 st && negb (overfill1 st)); [| auto].
    destruct (transferMass_frame (star2 st) (star1 st)
                (transferRatePerYear st * dtYears)) as [F1 F2].
    destruct (transferMass _ _ _). simpl in *. auto.
Qed.

Lemma same_setup_refl (st : State) : same_setup st st.
Proof. unfold same_setup. auto. Qed.

Lemma same_setup_trans (a b c : State) :
  same_setup a b -> same_setup b c -> same_setup a c.
Proof.
  unfold same_setup. intros (A1 & A2 & A3) (B1 & B2 & B3).
  repeat split; congruence.
Qed.

Lemma same_setup_physics (st st' : State) :
  (forall w, same_physics (star_of w st) (star_of w st')) ->
  separationAU st' = separationAU st ->
  same_setup st st'.
Proof.
  intros H Hs. unfold same_setup.
  destruct (H Primary) as (I1 & _).
  destruct (H Secondary) as (I2 & _).
  simpl in *. repeat split; congruence.
Qed.

Lemma knobs_separation (st st' : State) :
  knobs st' = knobs st -> separationAU st' = separationAU st.
Proof. unfold knobs. intro E. injection E as E1 _. exact E1. Qed.

Lemma updateUI_setup (st : State) : same_setup st (updateUI st).
Proof.
  apply same_setup_physics.
  - intro w. apply updateUI_physics.
  - apply knobs_separation, updateUI_knobs.
Qed.

Lemma advanceTime_setup (dtYears dtMs : R) (st : State) :
  same_setup st (advanceTime dtYears dtMs st).
Proof.
  unfold advanceTime, integrate. cbv zeta.
  apply (same_setup_trans _ (ageStars dtYears dtMs st)).
  { apply same_setup_physics.
    - intro w. apply ageStars_physics.
    - unfold ageStars. simpl. destruct (binary st); reflexivity. }
  apply (same_setup_trans _
           (doMassTransfer dtYears (ageStars dtYears dtMs st))).
  { destruct (doMassTransfer_frame dtYears (ageStars dtYears dtMs st))
      as (I1 & I2).
    unfold same_setup. repeat split; try assumption.
    apply knobs_separation, doMassTransfer_knobs. }
  match goal with
  | |- same_setup ?a (updateUI ?m) =>
      apply (same_setup_trans _ m); [| apply updateUI_setup]
  end.
  unfold same_setup. simpl. auto.
Qed.

Lemma setSimulationAge_setup (ageYears : R) (st : State) :
  same_setup st (setSimulationAge ageYears st).
Proof.
  apply same_setup_physics.
  - intro w. apply setSimulationAge_physics.
  - apply knobs_separation, setSimulationAge_knobs.
Qed.

Lemma handle_setup (e : Event) (st : State) :
  keeps_setup e = true -> same_setup st (handle e st).
Proof.
  destruct e; simpl; intro H; try discriminate.
  - apply (same_setup_trans _ (set_binary checked st));
      [unfold same_setup; auto | apply updateUI_setup].
  - unfold same_setup; auto.
  - unfold same_setup; auto.
  - unfold onPlayPause. simpl.
    destruct (negb (running st)); unfold same_setup; auto.
  - unfold tick. destruct (negb (running st)); [apply same_setup_refl |].
    cbv zeta.
    match goal with
    | |- same_setup st (advanceTime ?a ?b ?m) =>
        apply (same_setup_trans _ m); [| apply advanceTime_setup]
    end.
    destruct (falsy (lastTs st)); unfold same_setup; auto.
  - apply setSimulationAge_setup.
  - apply advanceTime_setup.
  - apply setSimulationAge_setup.
Qed.

Lemma run_setup (es : list Event) (st : State) :
  forallb keeps_setup es = true -> same_setup st (run es st).
Proof.
  unfold run. revert st.
  induction es as [| e es IH]; intros st H; simpl in *.
  - apply same_setup_refl.
  - apply andb_true_iff in H. destruct H as [He Hes].
    apply (same_setup_trans _ (handle e st)).
    + apply handle_setup, He.
    + apply IH, Hes.
Qed.

(** ** Lifetimes after a transfer *)

Lemma makeStar_recomputed (m : R) : recomputed (makeStar m).
Proof. unfold recomputed. simpl. repeat split; reflexivity. Qed.

Lemma transferMass_recomputed (d a : Star) (dm : R) :
  recomputed d -> recomputed a ->
  recomputed (fst (transferMass d a dm)) /\
  recomputed (snd (transferMass d a dm)).
Proof.
  intros Hd Ha. unfold transferMass.
  destruct (leb _ 0); simpl; [auto |].
  unfold recomputed. simpl. repeat split; reflexivity.
Qed.

Lemma recomputed_tTotal (s : Star) :
  recomputed s -> tTotal s = 1.11 * msLifetimeYears (massCurrent s).
Proof. intros (_ & T & P & G & S). rewrite S, P, G, T. lra. Qed.

(** X6: when both stars carry durations computed from their masses and
    the accretor has positive mass, a call of [transferMass] never
    shortens the total lifetime of the donor and never lengthens that of
    the accretor, whatever the amount asked for. *)
Theorem transfer_shifts_lifetimes (donor accretor : Star) (dm : R) :
  recomputed donor -> recomputed accretor ->
  0 < massCurrent accretor ->
  tTotal donor <= tTotal (fst (transferMass donor accretor dm)) /\
  tTotal (snd (transferMass donor accretor dm)) <= tTotal accretor.
Proof.
  intros Rd Ra Ha.
  destruct (transferMass_amount donor accretor dm) as [Hpos Hnone].
  cbv zeta in Hpos, Hnone.
  destruct (Rle_or_lt (Math_min dm (massCurrent donor - 0.1)) 0)
    as [Hc | Hc].
  - rewrite (Hnone Hc). simpl. lra.
  - destruct (transferMass_recomputed donor accretor dm Rd Ra)
      as [Rd' Ra'].
    destruct (Hpos Hc) as (Md & Ma).
    rewrite (recomputed_tTotal _ Rd), (recomputed_tTotal _ Ra),
      (recomputed_tTotal _ Rd'), (recomputed_tTotal _ Ra').
    rewrite Md, Ma.
    pose proof (Rmin_r dm (massCurrent donor - 0.1)) as Hr.
    unfold Math_min in *.
    set (cap := Rmin dm (massCurrent donor - 0.1)) in *.
    pose proof (msLifetimeYears_lt (massCurrent donor - cap)
                  (massCurrent donor)) as K1.
    pose proof (msLifetimeYears_lt (massCurrent accretor)
                  (massCurrent accretor + cap)) as K2.
    split; lra.
Qed.

Lemma transfer_shifts_lifetimes_witness :
  tTotal (makeStar 8)
    <= tTotal (fst (transferMass (makeStar 8) (makeStar 1) 0.2)) /\
  tTotal (snd (transferMass (makeStar 8) (makeStar 1) 0.2))
    <= tTotal (makeStar 1).
Proof.
  assert (M1 : 0 < massCurrent (makeStar 1))
    by (rewrite massCurrent_makeStar; lra).
  exact (transfer_shifts_lifetimes (makeStar 8) (makeStar 1) 0.2
           (makeStar_recomputed 8) (makeStar_recomputed 1) M1).
Defined.

(** X7: in every state reached from the initial one, both stars carry
    the fate and the four phase durations of their current mass. *)
Theorem run_recomputed (es : list Event) :
  recomputed (star1 (run es initialState)) /\
  recomputed (star2 (run es initialState)).
Proof.
  apply (run_keeps recomputed);
    auto using makeStar_recomputed, transferMass_recomputed.
  split; apply makeStar_recomputed.
Qed.


(** ** More on the Roche lobe *)

Lemma Math_cbrt_le (x y : R) : 0 < x <= y -> Math_cbrt x <= Math_cbrt y.
Proof.
  intros [Hx Hxy]. unfold Math_cbrt.
  destruct (Rlt_dec 0 x); [| contradiction].
  destruct (Rlt_dec 0 y); [| lra].
  apply Rle_Rpower_l; lra.
Qed.

Lemma Math_cbrt_one : Math_cbrt 1 = 1.
Proof.
  replace 1 with (1 * 1 * 1) at 1 by lra. apply Math_cbrt_cube. lra.
Qed.

Lemma Math_cbrt_clamped (x : R) :
  0.1 <= Math_cbrt (clamp x 1e-3 1e3) <= 10.
Proof.
  pose proof (clamp_range x 1e-3 1e3) as H.
  assert (L : Math_cbrt (0.1 * 0.1 * 0.1) = 0.1)
    by (apply Math_cbrt_cube; lra).
  assert (U : Math_cbrt (10 * 10 * 10) = 10)
    by (apply Math_cbrt_cube; lra).
  split.
  - rewrite <- L. apply Math_cbrt_le. lra.
  - rewrite <- U. apply Math_cbrt_le. lra.
Qed.

Lemma Math_log_le_arg (c : R) : 0 < c -> Math_log (1 + c) <= c.
Proof.
  intro H. unfold Math_log.
  rewrite <- (ln_exp c) at 2.
  destruct (exp_ineq1_le c) as [K | K].
  - left. apply ln_increasing; lra.
  - right. rewrite K. reflexivity.
Qed.

Lemma eggleton_fraction_lower (q13 : R) :
  0.1 <= q13 ->
  0.046 <= 0.49 * (q13 * q13) / (0.6 * (q13 * q13) + Math_log (1 + q13)).
Proof.
  intro H.
  assert (Hl : 0 < Math_log (1 + q13)) by (apply Math_log_pos; lra).
  assert (Hu : Math_log (1 + q13) <= q13) by (apply Math_log_le_arg; lra).
  set (l := Math_log (1 + q13)) in *.
  assert (Hd : 0 < 0.6 * (q13 * q13) + l) by nra.
  apply (Rmult_le_reg_r (0.6 * (q13 * q13) + l)); [exact Hd |].
  replace (0.49 * (q13 * q13) / (0.6 * (q13 * q13) + l)
           * (0.6 * (q13 * q13) + l))
    with (0.49 * (q13 * q13)) by (field; lra).
  nra.
Qed.

Lemma rocheLobe_lower (mDonor mAccretor a : R) :
  0 <= a -> 0.046 * a <= rocheLobeRadiusAU mDonor mAccretor a.
Proof.
  intro Ha. unfold rocheLobeRadiusAU. cbv zeta.
  destruct (Math_cbrt_clamped (mDonor / mAccretor)) as [Hc _].
  pose proof (eggleton_fraction_lower _ Hc) as Hf.
  apply Rmult_le_compat_r; assumption.
Qed.

Lemma ln_2_lower : 1 / 2 <= ln 2.
Proof.
  assert (E : ln 4 = ln 2 + ln 2).
  { replace 4 with (2 * 2) by lra. apply ln_mult; lra. }
  assert (L : ln 3 <= ln 4) by (left; apply ln_increasing; lra).
  pose proof ln_3_lower. lra.
Qed.

Lemma eggleton_fraction_equal_masses :
  0.3 <= 0.49 * (1 * 1) / (0.6 * (1 * 1) + Math_log (1 + 1)) <= 0.45.
Proof.
  assert (U : Math_log (1 + 1) <= 1) by (apply Math_log_le_arg; lra).
  assert (L : 1 / 2 <= Math_log (1 + 1)).
  { unfold Math_log. replace (1 + 1) with 2 by lra. exact ln_2_lower. }
  set (l := Math_log (1 + 1)) in *.
  assert (Hd : 0 < 0.6 * (1 * 1) + l) by lra.
  split.
  - apply (Rmult_le_reg_r (0.6 * (1 * 1) + l)); [exact Hd |].
    replace (0.49 * (1 * 1) / (0.6 * (1 * 1) + l) * (0.6 * (1 * 1) + l))
      with (0.49 * (1 * 1)) by (field; lra).
    lra.
  - apply (Rmult_le_reg_r (0.6 * (1 * 1) + l)); [exact Hd |].
    replace (0.49 * (1 * 1) / (0.6 * (1 * 1) + l) * (0.6 * (1 * 1) + l))
      with (0.49 * (1 * 1)) by (field; lra).
    lra.
Qed.

(** X8: the Roche-lobe radius reads the two masses only through the
    quotient [mDonor / mAccretor]; from a quotient of 1000 on (of 1/1000
    and below) it is the value at 1000 (at 1/1000); for equal masses it
    is the value at 1 and 1, between 30 % and 45 % of a non-negative
    separation; it is never less than 4.6 % of a non-negative
    separation, never decreases when the separation grows, and is 0 at
    separation 0. *)
Theorem rocheLobeRadiusAU_ratio (mDonor mAccretor a : R) :
  (forall mDonor' mAccretor' : R,
     mDonor' / mAccretor' = mDonor / mAccretor ->
     rocheLobeRadiusAU mDonor' mAccretor' a
       = rocheLobeRadiusAU mDonor mAccretor a) /\
  (1e3 <= mDonor / mAccretor ->
     rocheLobeRadiusAU mDonor mAccretor a = rocheLobeRadiusAU 1e3 1 a) /\
  (mDonor / mAccretor <= 1e-3 ->
     rocheLobeRadiusAU mDonor mAccretor a = rocheLobeRadiusAU 1e-3 1 a) /\
  (mDonor <> 0 ->
     rocheLobeRadiusAU mDonor mDonor a = rocheLobeRadiusAU 1 1 a) /\
  (0 <= a -> 0.3 * a <= rocheLobeRadiusAU 1 1 a <= 0.45 * a) /\
  (0 <= a -> 0.046 * a <= rocheLobeRadiusAU mDonor mAccretor a) /\
  (forall a' : R,
     a <= a' ->
     rocheLobeRadiusAU mDonor mAccretor a
       <= rocheLobeRadiusAU mDonor mAccretor a') /\
  rocheLobeRadiusAU mDonor mAccretor 0 = 0.
Proof.
  split; [| split; [| split; [| split; [| split; [| split; [| split]]]]]].
  - intros mDonor' mAccretor' E. unfold rocheLobeRadiusAU.
    rewrite E. reflexivity.
  - intro H. unfold rocheLobeRadiusAU.
    assert (E : clamp (mDonor / mAccretor) 1e-3 1e3 = clamp (1e3 / 1) 1e-3 1e3).
    { destruct (clamp_cases (mDonor / mAccretor) 1e-3 1e3)
        as [[? _] | [[? E] | [? E]]]; try lra;
        rewrite E; rewrite clamp_id; lra. }
    rewrite E. reflexivity.
  - intro H. unfold rocheLobeRadiusAU.
    assert (E : clamp (mDonor / mAccretor) 1e-3 1e3
                = clamp (1e-3 / 1) 1e-3 1e3).
    { destruct (clamp_cases (mDonor / mAccretor) 1e-3 1e3)
        as [[? E] | [[? E] | [? _]]]; try lra;
        rewrite E; rewrite clamp_id; lra. }
    rewrite E. reflexivity.
  - intro H. unfold rocheLobeRadiusAU.
    replace (mDonor / mDonor) with (1 / 1) by (field; exact H).
    reflexivity.
  - intro Ha. unfold rocheLobeRadiusAU. cbv zeta.
    replace (1 / 1) with 1 by lra.
    rewrite clamp_id by lra. rewrite Math_cbrt_one.
    pose proof eggleton_fraction_equal_masses as [L U].
    split; apply Rmult_le_compat_r; assumption.
  - apply rocheLobe_lower.
  - intros a' Ha. unfold rocheLobeRadiusAU. cbv zeta.
    destruct (Math_cbrt_clamped (mDonor / mAccretor)) as [Hc _].
    pose proof (eggleton_fraction_lower _ Hc) as Hf.
    apply Rmult_le_compat_l; [lra | exact Ha].
  - unfold rocheLobeRadiusAU. cbv zeta. apply Rmult_0_r.
Qed.

(** ** Binaries in which no star overfills alone *)

Lemma overfill_ext (st st' : State) :
  massCurrent (star1 st') = massCurrent (star1 st) ->
  massCurrent (star2 st') = massCurrent (star2 st) ->
  separationAU st' = separationAU st ->
  overfill1 st' = overfill1 st /\ overfill2 st' = overfill2 st.
Proof.
  intros E1 E2 Es. unfold overfill1, overfill2. cbv zeta.
  rewrite E1, E2, Es. auto.
Qed.

Lemma overfill_ext_physics (st st' : State) :
  (forall w, same_physics (star_of w st) (star_of w st')) ->
  separationAU st' = separationAU st ->
  overfill1 st' = overfill1 st /\ overfill2 st' = overfill2 st.
Proof.
  intros H Hs.
  destruct (H Primary) as (_ & M1 & _).
  destruct (H Secondary) as (_ & M2 & _).
  apply overfill_ext; assumption.
Qed.

Lemma equal_masses_balanced (st : State) :
  massCurrent (star1 st) = massCurrent (star2 st) ->
  overfill1 st = overfill2 st.
Proof.
  intro E. unfold overfill1, overfill2. cbv zeta. rewrite E. reflexivity.
Qed.

Lemma advanceTime_balanced (dtYears dtMs : R) (st : State) :
  overfill1 st = overfill2 st ->
  forall w,
    same_physics (star_of w st) (star_of w (advanceTime dtYears dtMs st)).
Proof.
  intros Hb w. unfold advanceTime, integrate. cbv zeta.
  assert (Ha : overfill1 (ageStars dtYears dtMs st)
               = overfill2 (ageStars dtYears dtMs st)).
  { destruct (overfill_ext_physics st (ageStars dtYears dtMs st))
      as [O1 O2].
    - intro w'. apply ageStars_physics.
    - unfold ageStars. simpl. destruct (binary st); reflexivity.
    - congruence. }
  rewrite (doMassTransfer_idle (ageStars dtYears dtMs st)) by auto.
  match goal with
  | |- same_physics _ (star_of w (updateUI ?m)) =>
      apply (same_physics_trans _ (star_of w m));
        [| apply updateUI_physics]
  end.
  destruct w;
    [apply (ageStars_physics Primary dtYears dtMs st)
    | apply (ageStars_physics Secondary dtYears dtMs st)].
Qed.

Lemma handle_balanced (e : Event) (st : State) :
  keeps_setup e = true ->
  overfill1 st = overfill2 st ->
  forall w, same_physics (star_of w st) (star_of w (handle e st)).
Proof.
  destruct e; simpl; intros H Hb w; try discriminate.
  - apply (updateUI_physics w (set_binary checked st)).
  - apply same_physics_refl.
  - apply same_physics_refl.
  - unfold onPlayPause. simpl.
    destruct (negb (running st)); apply same_physics_refl.
  - unfold tick. destruct (negb (running st)); [apply same_physics_refl |].
    cbv zeta.
    match goal with
    | |- same_physics _ (star_of w (advanceTime ?a ?b ?m)) =>
        apply (same_physics_trans _ (star_of w m));
          [| apply advanceTime_balanced]
    end.
    + destruct (falsy (lastTs st)), w; apply same_physics_refl.
    + destruct (falsy (lastTs st)); exact Hb.
  - apply setSimulationAge_physics.
  - apply advanceTime_balanced, Hb.
  - apply setSimulationAge_physics.
Qed.

Lemma run_balanced (es : list Event) (st : State) :
  forallb keeps_setup es = true ->
  overfill1 st = overfill2 st ->
  (forall w, same_physics (star_of w st) (star_of w (run es st))) /\
  overfill1 (run es st) = overfill1 st /\
  overfill2 (run es st) = overfill2 st.
Proof.
  unfold run. revert st.
  induction es as [| e es IH]; intros st H Hb; simpl in *.
  - split; [intro w; apply same_physics_refl | auto].
  - apply andb_true_iff in H. destruct H as [He Hes].
    pose proof (handle_balanced e st He Hb) as P.
    destruct (handle_setup e st He) as (_ & _ & S).
    destruct (overfill_ext_physics st (handle e st) P S) as [O1 O2].
    destruct (IH (handle e st) Hes) as (P' & O1' & O2'); [congruence |].
    split; [| split; congruence].
    intro w. apply (same_physics_trans _ (star_of w (handle e st))); auto.
Qed.

(** X9: two stars of equal current mass never exchange mass: whatever
    frames, scrubs, speed, rate, play and toggle events follow, both
    keep their mass, fate and durations. *)
Theorem equal_masses_never_transfer (es : list Event) (st : State) :
  massCurrent (star1 st) = massCurrent (star2 st) ->
  forallb keeps_setup es = true ->
  forall w : Which, same_physics (star_of w st) (star_of w (run es st)).
Proof.
  intros E H.
  apply (run_balanced es st H (equal_masses_balanced st E)).
Qed.

(** X10: ageing never starts an overflow: the overfill tests read only
    the current masses and the separation, so once neither star overfills
    alone (both do or neither does), no sequence of frames, scrubs,
    speed, rate, play and toggle events changes any mass, fate or
    duration, and the two tests keep their outcome. *)
Theorem no_lone_overfill_is_stable (es : list Event) (st : State) :
  overfill1 st = overfill2 st ->
  forallb keeps_setup es = true ->
  (forall w : Which, same_physics (star_of w st) (star_of w (run es st))) /\
  overfill1 (run es st) = overfill1 st /\
  overfill2 (run es st) = overfill2 st.
Proof. intros Hb H. apply run_balanced; assumption. Qed.

Lemma twinState_masses :
  massCurrent (star1 twinState) = massCurrent (star2 twinState).
Proof.
  unfold twinState, run. simpl fold_left. unfold handle, onReset.
  cbv zeta. rewrite updateUI_quiet by reflexivity. reflexivity.
Qed.

Lemma equal_masses_never_transfer_witness :
  massCurrent (star1 twinState) = massCurrent (star2 twinState) /\
  massCurrent
    (star_of Primary (run [BinaryToggle true; Advance 1e9 16] twinState))
    = massCurrent (star_of Primary twinState).
Proof.
  split; [exact twinState_masses |].
  assert (H : forallb keeps_setup [BinaryToggle true; Advance 1e9 16] = true)
    by reflexivity.
  destruct (equal_masses_never_transfer
              [BinaryToggle true; Advance 1e9 16] twinState
              twinState_masses H Primary) as (_ & M & _).
  exact M.
Defined.

Lemma presetState_fields :
  star1 presetState = makeStar 1.2 /\
  star2 presetState = makeStar 0.8 /\
  binary presetState = true /\
  separationAU presetState = 0.2 /\
  transferRatePerYear presetState = 0.02 / MYR.
Proof.
  unfold presetState, run. simpl fold_left. unfold handle, applyPreset.
  cbv zeta. rewrite updateUI_quiet by reflexivity.
  repeat split; reflexivity.
Qed.

Lemma radiusRsun_le_one (m : R) : 0 < m <= 1 -> radiusRsun m <= 1.
Proof.
  intro H. unfold radiusRsun.
  assert (E : clamp 1 0.05 2000 = 1) by (apply clamp_id; lra).
  apply Rle_trans with (clamp 1 0.05 2000); [| rewrite E; lra].
  apply clamp_monotone.
  rewrite <- (Math_pow_one 0.8). apply Math_pow_le_base; lra.
Qed.

Lemma radiusRsun_le_mass (m : R) : 1 <= m <= 2000 -> radiusRsun m <= m.
Proof.
  intro H. unfold radiusRsun.
  pose proof (Math_pow_ge_one m 0.8).
  pose proof (Math_pow_le_exponent m 0.8 1).
  rewrite Math_pow_id in * by lra.
  rewrite clamp_id; lra.
Qed.

(** A star whose radius is at most 4.6 % of the separation does not
    overfill, whatever the companion. *)
Lemma small_star_no_overfill (m other a : R) :
  0 <= a -> radiusRsun m / 215 <= 0.046 * a ->
  gtb (stellarRadiusAU (radiusRsun m)) (rocheLobeRadiusAU m other a) = false.
Proof.
  intros Ha H. apply gtb_false_iff. unfold stellarRadiusAU.
  pose proof (rocheLobe_lower m other a Ha). lra.
Qed.

Lemma presetState_no_overfill :
  overfill1 presetState = false /\ overfill2 presetState = false.
Proof.
  destruct presetState_fields as (E1 & E2 & _ & Es & _).
  unfold overfill1, overfill2. cbv zeta. rewrite E1, E2, Es.
  rewrite !massCurrent_makeStar by lra.
  split; apply small_star_no_overfill; try lra.
  - pose proof (radiusRsun_le_mass 1.2). lra.
  - pose proof (radiusRsun_le_one 0.8). lra.
Qed.

Lemma no_lone_overfill_is_stable_witness :
  overfill1 presetState = overfill2 presetState /\
  massCurrent
    (star_of Primary
       (run [Advance 1e9 16; TransferRate 0.2; Advance 1e9 16] presetState))
    = massCurrent (star_of Primary presetState) /\
  overfill1 (run [Advance 1e9 16; TransferRate 0.2; Advance 1e9 16] presetState)
    = false.
Proof.
  destruct presetState_no_overfill as [O1 O2].
  assert (Hb : overfill1 presetState = overfill2 presetState)
    by (rewrite O1, O2; reflexivity).
  assert (H : forallb keeps_setup
                [Advance 1e9 16; TransferRate 0.2; Advance 1e9 16] = true)
    by reflexivity.
  destruct (no_lone_overfill_is_stable
              [Advance 1e9 16; TransferRate 0.2; Advance 1e9 16] presetState Hb H)
    as (P & K1 & _).
  destruct (P Primary) as (_ & M & _).
  split; [exact Hb |]. split; [exact M |].
  rewrite K1. exact O1.
Defined.

(** ** Compact remnants *)

(** X11: for a star whose fate is that of its current mass, the final
    radius is 0.012 solar radii below 8 solar masses, 1.5e-5 from 8 up to
    20, and the Schwarzschild value [2.95 * m / 696000] from 20 on: the
    floor of 5e-6 is then never the larger of the two, and a black hole
    is always larger than a neutron star.  The radius is positive for
    every star. *)
Theorem finalCompactRadiusRsun_by_mass (star : Star) :
  0 < finalCompactRadiusRsun star /\
  (fate star = fateForMass (massCurrent star) ->
     (massCurrent star < 8 -> finalCompactRadiusRsun star = 0.012) /\
     (8 <= massCurrent star < 20 ->
        finalCompactRadiusRsun star = 1.5e-5) /\
     (20 <= massCurrent star ->
        finalCompactRadiusRsun star = 2.95 * massCurrent star / 696000 /\
        1.5e-5 < finalCompactRadiusRsun star)).
Proof.
  split.
  - unfold finalCompactRadiusRsun.
    destruct (fate star); try lra.
    cbv zeta. unfold Math_max.
    pose proof (Rmax_r (2.95 * massCurrent star / 696000) 5e-6). lra.
  - intro Hf. unfold finalCompactRadiusRsun. rewrite Hf.
    destruct (fateForMass_cases (massCurrent star)) as (W & N & B).
    split; [| split].
    + intro H. rewrite (W H). reflexivity.
    + intro H. rewrite (N H). reflexivity.
    + intro H. rewrite (B H). cbv zeta. unfold Math_max.
      rewrite Rmax_left by lra. split; lra.
Qed.

(** ** The supernova handshake *)

Lemma triggerSupernova_eligible (s : Star) (ex : list Explosion) :
  triggerSupernova s ex =
    (if justEnded s then
       set_justEnded false
         (if eligible s then set_hadSupernova true s else s)
     else s,
     if eligible s then ex ++ [freshExplosion] else ex).
Proof.
  unfold triggerSupernova, eligible, startSupernova, freshExplosion.
  destruct (justEnded s); simpl; [| reflexivity].
  destruct (geb (massInitial s) 8 && negb (hadSupernova s)); reflexivity.
Qed.

Lemma triggerSupernova_paint (s : Star) (ex : list Explosion) :
  paintStar (fst (triggerSupernova s ex)) = paintStar s.
Proof.
  rewrite !paintStar_cases, triggerSupernova_fate.
  destruct (triggerSupernova_life s ex) as [(_ & _ & E & _) _].
  rewrite E. reflexivity.
Qed.

(** X12: [drawStarAtWorld] throws exactly for an ended star whose fate
    is a white dwarf or a neutron star, and then nothing has been
    assigned.  When it returns it has lowered [justEnded], and it has
    appended one explosion and set [hadSupernova] exactly when the flag
    was up, the initial mass is at least 8 and no supernova was started
    before; drawing the same star again changes nothing. *)
Theorem drawStarAtWorld_handshake (s : Star) (ex : list Explosion) :
  (drawStarAtWorld s ex = None <->
   ended s = true /\ fate s <> BlackHole) /\
  (forall (s' : Star) (ex' : list Explosion),
     drawStarAtWorld s ex = Some (s', ex') ->
     justEnded s' = false /\
     hadSupernova s' = hadSupernova s || eligible s /\
     ex' = (if eligible s then ex ++ [freshExplosion] else ex) /\
     (massInitial s < 8 -> ex' = ex /\ hadSupernova s' = hadSupernova s) /\
     drawStarAtWorld s' ex' = Some (s', ex')).
Proof.
  split.
  - rewrite <- paintStar_false. unfold drawStarAtWorld.
    destruct (paintStar s); split; (discriminate || reflexivity).
  - intros s' ex'. unfold drawStarAtWorld at 1.
    destruct (paintStar s) eqn:P; [| discriminate].
    intro E. injection E as E.
    pose proof (triggerSupernova_paint s ex) as P'.
    rewrite E in P'. simpl in P'. rewrite P in P'.
    rewrite triggerSupernova_eligible in E. injection E as Es Ex.
    assert (J : justEnded s' = false).
    { rewrite <- Es. destruct (justEnded s) eqn:Ej; [reflexivity | exact Ej]. }
    split; [exact J |].
    split.
    { rewrite <- Es. unfold eligible.
      destruct (justEnded s) eqn:Ej, (geb (massInitial s) 8) eqn:G,
        (hadSupernova s) eqn:Eh; simpl; rewrite ?Eh; reflexivity. }
    split; [symmetry; exact Ex |].
    split.
    { intro H. apply geb_false_iff in H. rewrite <- Es, <- Ex.
      unfold eligible. rewrite H.
      rewrite andb_false_r. simpl.
      split; [reflexivity |]. destruct (justEnded s); reflexivity. }
    unfold drawStarAtWorld. rewrite P'.
    rewrite (triggerSupernova_quiet _ _ J). reflexivity.
Qed.

Lemma makeStar_flags_ok (m : R) : flags_ok (makeStar m).
Proof. unfold flags_ok. simpl. split; discriminate. Qed.

Lemma ageStar_flags_ok (dtYears dtMs : R) (s : Star) :
  flags_ok s -> flags_ok (ageStar dtYears dtMs s).
Proof.
  intros [J H]. unfold flags_ok, ageStar. cbv zeta.
  destruct (negb (ended s)) eqn:E.
  - apply negb_true_iff in E.
    destruct (geb _ _); simpl.
    + split; [reflexivity |]. intro K. destruct (H K) as [K1 K2].
      split; [reflexivity | exact K2].
    + split; assumption.
  - destruct (collapseAnimating s).
    + destruct (geb _ 1); simpl; split; assumption.
    + split; assumption.
Qed.

Lemma set_age_flags_ok (v : R) (s : Star) :
  flags_ok s -> flags_ok (set_age v s).
Proof. intro H. exact H. Qed.

(** A transfer only takes place between two stars that have not ended,
    whose flags are therefore all down. *)
Lemma doMassTransfer_flags_ok (dtYears : R) (st : State) :
  both flags_ok st -> both flags_ok (doMassTransfer dtYears st).
Proof.
  intros [H1 H2]. unfold doMassTransfer.
  destruct (negb (binary st)); [split; assumption |].
  destruct (negb (ended (star1 st)) && negb (ended (star2 st))) eqn:E;
    [| split; assumption].
  apply andb_prop in E. destruct E as [E1 E2].
  apply negb_true_iff in E1, E2.
  assert (F : forall s s' : Star,
             ended s = false -> flags_ok s ->
             ended s' = ended s -> justEnded s' = justEnded s ->
             hadSupernova s' = hadSupernova s -> flags_ok s').
  { intros s s' En [J H] A B C. unfold flags_ok. rewrite A, B, C.
    split; intro K; [apply J in K | apply H in K; destruct K as [K _]];
      congruence. }
  assert (T : forall d a dm,
             ended d = false -> ended a = false ->
             flags_ok d -> flags_ok a ->
             flags_ok (fst (transferMass d a dm)) /\
             flags_ok (snd (transferMass d a dm))).
  { intros d a dm Ed Ea Hd Ha. unfold transferMass.
    destruct (leb _ 0); simpl; [split; assumption |].
    split; [apply (F d) | apply (F a)]; auto. }
  destruct (overfill1 st && negb (overfill2 st)).
  - destruct (T (star1 st) (star2 st) (transferRatePerYear st * dtYears)
                E1 E2 H1 H2) as [K1 K2].
    destruct (transferMass _ _ _); simpl in *. split; assumption.
  - destruct (overfill2 st && negb (overfill1 st)); [| split; assumption].
    destruct (T (star2 st) (star1 st) (transferRatePerYear st * dtYears)
                E2 E1 H2 H1) as [K1 K2].
    destruct (transferMass _ _ _); simpl in *. split; assumption.
Qed.

(** The trigger starts a supernova only for a star that was painted:
    a star that has not ended, or a black hole. *)
Lemma triggerSupernova_flags_ok (s : Star) (ex : list Explosion) :
  flags_ok s -> paintStar s = true ->
  flags_ok (fst (triggerSupernova s ex)).
Proof.
  intros [J H] P. rewrite triggerSupernova_eligible. simpl.
  unfold flags_ok, eligible.
  destruct (justEnded s) eqn:Ej; simpl.
  - destruct (geb (massInitial s) 8) eqn:G; simpl.
    + destruct (hadSupernova s) eqn:Eh; simpl.
      * split; [discriminate |]. intros _. apply H. reflexivity.
      * split; [discriminate |]. intros _.
        assert (En : ended s = true) by (apply J; reflexivity).
        split; [exact En |]. split; [apply geb_true_iff, G |].
        rewrite paintStar_cases, En in P.
        destruct (fate s); (discriminate || reflexivity).
    + split; [discriminate | exact H].
  - split; [rewrite Ej; discriminate | exact H].
Qed.

Lemma updateUI_flags_ok (st : State) :
  both flags_ok st -> both flags_ok (updateUI st).
Proof.
  intros [H1 H2].
  assert (G : forall w, flags_ok (star_of w st) ->
                        flags_ok (star_of w (updateUI st))).
  { intros w H. destruct (updateUI_star w st) as [E | [P [ex E]]];
      rewrite E; [exact H | apply triggerSupernova_flags_ok; assumption]. }
  split; [apply (G Primary) | apply (G Secondary)]; assumption.
Qed.

(** After a draw pass the flag of the primary is up only when the
    primary could not be painted. *)
Lemma updateUI_primary_flag (st : State) :
  justEnded (star1 (updateUI st)) = true ->
  paintStar (star1 (updateUI st)) = false.
Proof.
  unfold updateUI, drawStars, drawStarAtWorld.
  pose proof (triggerSupernova_life (star1 st) (explosions st)) as [_ J].
  destruct (triggerSupernova (star1 st) (explosions st)) as [s1 ex1].
  simpl in J.
  destruct (negb (binary st)); destruct (paintStar (star1 st)) eqn:P;
    simpl; try (intros _; exact P); try (rewrite J; discriminate).
  destruct (paintStar (star2 st));
    [destruct (triggerSupernova (star2 st) ex1) |]; simpl;
    rewrite J; discriminate.
Qed.

Lemma integrate_flags_ok (dtYears dtMs : R) (st : State) :
  both flags_ok st -> both flags_ok (integrate dtYears dtMs st).
Proof.
  intros [H1 H2]. unfold integrate.
  apply doMassTransfer_flags_ok.
  unfold both, ageStars. simpl.
  destruct (binary st); simpl; split;
    try apply ageStar_flags_ok; assumption.
Qed.

Lemma advanceTime_flags_ok (dtYears dtMs : R) (st : State) :
  both flags_ok st -> both flags_ok (advanceTime dtYears dtMs st).
Proof.
  intro H. unfold advanceTime. cbv zeta.
  apply updateUI_flags_ok.
  exact (integrate_flags_ok dtYears dtMs st H).
Qed.

Lemma setSimulationAge_flags_ok (ageYears : R) (st : State) :
  both flags_ok st -> both flags_ok (setSimulationAge ageYears st).
Proof.
  intros [H1 H2]. unfold setSimulationAge. cbv zeta.
  apply updateUI_flags_ok.
  unfold both. simpl. destruct (binary st); simpl; auto.
Qed.

(** The flags of both stars, and the stuck flag of the primary. *)
Lemma handle_flags_ok (e : Event) (st : State) :
  both flags_ok st /\
  (justEnded (star1 st) = true -> paintStar (star1 st) = false) ->
  both flags_ok (handle e st) /\
  (justEnded (star1 (handle e st)) = true ->
   paintStar (star1 (handle e st)) = false).
Proof.
  intros [H S]. pose proof H as [H1 H2].
  assert (U : forall m, both flags_ok m ->
                both flags_ok (updateUI m) /\
                (justEnded (star1 (updateUI m)) = true ->
                 paintStar (star1 (updateUI m)) = false))
    by (intros m Hm; split;
        [apply updateUI_flags_ok, Hm | apply updateUI_primary_flag]).
  destruct e; simpl.
  - unfold onMassPrimaryInput. cbv zeta. apply U. unfold both. simpl.
    destruct (negb (binary st)); simpl; auto using makeStar_flags_ok.
  - apply U. split; simpl; auto using makeStar_flags_ok.
  - apply U. split; simpl; auto using makeStar_flags_ok.
  - apply U. split; simpl; auto using makeStar_flags_ok.
  - apply U. exact H.
  - apply U. exact H.
  - split; [exact H | exact S].
  - split; [exact H | exact S].
  - unfold onPlayPause. simpl.
    destruct (negb (running st)); split; (exact H || exact S).
  - apply U. split; simpl; auto using makeStar_flags_ok.
  - apply U. destruct name; split; simpl; auto using makeStar_flags_ok.
  - unfold tick. destruct (negb (running st)); [split; assumption |].
    unfold advanceTime. cbv zeta. apply U.
    apply integrate_flags_ok.
    destruct (falsy (lastTs st)); exact H.
  - unfold onTimeline, setSimulationAge. cbv zeta. apply U.
    unfold both. simpl. destruct (binary st); simpl; auto.
  - unfold advanceTime. cbv zeta. apply U.
    apply integrate_flags_ok, H.
  - unfold setSimulationAge. cbv zeta. apply U.
    unfold both. simpl. destruct (binary st); simpl; auto.
Qed.

Lemma run_flags_ok (es : list Event) (st : State) :
  both flags_ok st /\
  (justEnded (star1 st) = true -> paintStar (star1 st) = false) ->
  both flags_ok (run es st) /\
  (justEnded (star1 (run es st)) = true ->
   paintStar (star1 (run es st)) = false).
Proof.
  unfold run. revert st.
  induction es as [| e es IH]; intros st H; simpl.
  - exact H.
  - apply IH, handle_flags_ok, H.
Qed.

Lemma initialState_flags_ok :
  both flags_ok initialState /\
  (justEnded (star1 initialState) = true ->
   paintStar (star1 initialState) = false).
Proof.
  split; [split; apply makeStar_flags_ok | discriminate].
Qed.

(** X13: in every state reached from the initial one, a raised
    [justEnded] and a set [hadSupernova] belong to an ended star, and a
    supernova has only been started for a star of at least 8 initial
    solar masses whose fate is a black hole: a star that ends as a
    white dwarf or as a neutron star never gets one, since its draw
    throws before the trigger.  Between two events the flag of the
    primary is up only when the primary has ended as a white dwarf or a
    neutron star. *)
Theorem supernova_flags_invariant (es : list Event) (w : Which) :
  let s := star_of w (run es initialState) in
  (justEnded s = true -> ended s = true) /\
  (hadSupernova s = true ->
   ended s = true /\ massInitial s >= 8 /\ fate s = BlackHole) /\
  (justEnded (star1 (run es initialState)) = true ->
   ended (star1 (run es initialState)) = true /\
   fate (star1 (run es initialState)) <> BlackHole).
Proof.
  cbv zeta.
  destruct (run_flags_ok es initialState initialState_flags_ok)
    as [[H1 H2] S].
  split; [destruct w; [apply H1 | apply H2] |].
  split; [destruct w; [apply H1 | apply H2] |].
  intro J. apply paintStar_false, S, J.
Qed.

Lemma transferMass_eligible (d a : Star) (dm : R) :
  eligible (fst (transferMass d a dm)) = eligible d /\
  eligible (snd (transferMass d a dm)) = eligible a.
Proof. unfold transferMass. destruct (leb _ 0); simpl; auto. Qed.

Lemma doMassTransfer_eligible (w : Which) (dtYears : R) (st : State) :
  eligible (star_of w (doMassTransfer dtYears st))
    = eligible (star_of w st) /\
  explosions (doMassTransfer dtYears st) = explosions st.
Proof.
  unfold doMassTransfer.
  destruct (negb (binary st)); [auto |].
  destruct (negb (ended (star1 st)) && negb (ended (star2 st))); [| auto].
  destruct (overfill1 st && negb (overfill2 st)).
  - destruct (transferMass_eligible (star1 st) (star2 st)
                (transferRatePerYear st * dtYears)) as [K1 K2].
    destruct (transferMass _ _ _). destruct w; simpl in *; auto.
  - destruct (overfill2 st && negb (overfill1 st)); [| auto].
    destruct (transferMass_eligible (star2 st) (star1 st)
                (transferRatePerYear st * dtYears)) as [K1 K2].
    destruct (transferMass _ _ _). destruct w; simpl in *; auto.
Qed.

Lemma ageStar_eligible (dtYears dtMs : R) (s : Star) :
  justEnded s = false ->
  eligible (ageStar dtYears dtMs s)
    = negb (ended s) && geb (age s + dtYears) (tTotal s)
      && geb (massInitial s) 8 && negb (hadSupernova s).
Proof.
  intro J. unfold eligible, ageStar. cbv zeta.
  destruct (negb (ended s)); simpl.
  - destruct (geb (age s + dtYears) (tTotal s)); simpl;
      [reflexivity | rewrite J; reflexivity].
  - destruct (collapseAnimating s); [| rewrite J; reflexivity].
    destruct (geb _ 1); simpl; rewrite J; reflexivity.
Qed.

Lemma integrate_eligible (w : Which) (dtYears dtMs : R) (st : State) :
  justEnded (star_of w st) = false ->
  (if active w st then eligible (star_of w (integrate dtYears dtMs st))
   else false) = novaDue w dtYears st /\
  explosions (integrate dtYears dtMs st) = explosions st.
Proof.
  intro J. unfold integrate.
  destruct (doMassTransfer_eligible w dtYears (ageStars dtYears dtMs st))
    as [E X].
  rewrite E, X. split.
  - unfold novaDue. cbv zeta. destruct (active w st) eqn:A; simpl.
    + rewrite (ageStars_star w dtYears dtMs st A).
      apply ageStar_eligible, J.
    + reflexivity.
  - unfold ageStars. simpl. destruct (binary st); reflexivity.
Qed.

(** The draw pass that returns, written out. *)
Lemma updateUI_returned (st : State) :
  updateUI_throws st = false ->
  updateUI st =
    if negb (binary st) then
      set_explosions (snd (triggerSupernova (star1 st) (explosions st)))
        (set_star1 (fst (triggerSupernova (star1 st) (explosions st))) st)
    else
      set_explosions
        (snd (triggerSupernova (star2 st)
                (snd (triggerSupernova (star1 st) (explosions st)))))
        (set_stars
           (fst (triggerSupernova (star1 st) (explosions st)))
           (fst (triggerSupernova (star2 st)
                   (snd (triggerSupernova (star1 st) (explosions st)))))
           st).
Proof.
  unfold updateUI_throws, updateUI, drawStars, drawStarAtWorld.
  destruct (triggerSupernova (star1 st) (explosions st)) as [s1 ex1].
  destruct (negb (binary st)); destruct (paintStar (star1 st));
    cbn [thrown]; try discriminate; try (intros _; reflexivity).
  cbn [fst snd].
  destruct (paintStar (star2 st));
    [destruct (triggerSupernova (star2 st) ex1) as [s2 ex2] |];
    cbn [thrown]; try discriminate. intros _. reflexivity.
Qed.

(** A star that is due in this step has ended in the state the draw
    pass receives, with the fate and the supernova flag it had. *)
Lemma novaDue_handed (w : Which) (dtYears dtMs : R) (st : State) :
  novaDue w dtYears st = true ->
  active w st = true /\
  ended (star_of w (integrate dtYears dtMs st)) = true /\
  justEnded (star_of w (integrate dtYears dtMs st)) = true /\
  fate (star_of w (integrate dtYears dtMs st)) = fate (star_of w st) /\
  hadSupernova (star_of w (integrate dtYears dtMs st)) = false.
Proof.
  unfold novaDue. cbv zeta. intro N.
  apply andb_prop in N. destruct N as [N Hs].
  apply andb_prop in N. destruct N as [N _].
  apply andb_prop in N. destruct N as [N G].
  apply andb_prop in N. destruct N as [A E].
  apply negb_true_iff in E, Hs. apply geb_true_iff in G.
  assert (D : dtYears >= tTotal (star_of w st) - age (star_of w st))
    by lra.
  rewrite (integrate_reaches_end w dtYears dtMs st A E D).
  destruct (ageStar_reaches_end dtYears dtMs _ E D)
    as (_ & _ & En & J & _).
  split; [exact A |]. split; [exact En |]. split; [exact J |].
  split; [apply ageStar_fate |].
  unfold ageStar. cbv zeta. rewrite E. cbn [negb].
  destruct (geb _ _); simpl; exact Hs.
Qed.

(** X14: when no [justEnded] flag is pending and the draw pass of
    [advanceTime] returns, the explosions after the call are the aged
    survivors of the old ones followed by one fresh explosion for each
    active star that reaches its end in this very step with an initial
    mass of at least 8 and no supernova before.  When such a star ends
    as a white dwarf or as a neutron star, the call throws instead, the
    star keeps its [justEnded] flag and its supernova is not started.
    A star that has already ended is never due again. *)
Theorem advanceTime_novae (dtYears dtMs : R) (st : State) :
  justEnded (star1 st) = false -> justEnded (star2 st) = false ->
  (advanceTime_throws dtYears dtMs st = false ->
   explosions (advanceTime dtYears dtMs st) =
     updateExplosions dtMs (explosions st)
     ++ (if novaDue Primary dtYears st then [freshExplosion] else [])
     ++ (if novaDue Secondary dtYears st then [freshExplosion] else [])) /\
  (forall w : Which,
      novaDue w dtYears st = true -> fate (star_of w st) <> BlackHole ->
      advanceTime_throws dtYears dtMs st = true /\
      justEnded (star_of w (advanceTime dtYears dtMs st)) = true /\
      hadSupernova (star_of w (advanceTime dtYears dtMs st)) = false) /\
  (forall w : Which,
      ended (star_of w st) = true -> novaDue w dtYears st = false).
Proof.
  intros J1 J2. split; [| split].
  - intro Ht.
    destruct (integrate_eligible Primary dtYears dtMs st J1) as [N1 X].
    destruct (integrate_eligible Secondary dtYears dtMs st J2) as [N2 _].
    simpl active in N1, N2. simpl star_of in N1, N2.
    rewrite <- N1, <- N2.
    unfold advanceTime_throws in Ht. unfold advanceTime. cbv zeta in *.
    rewrite (updateUI_returned _ Ht).
    set (h := integrate dtYears dtMs st) in *.
    simpl. rewrite X.
    rewrite (integrate_binary dtYears dtMs st : binary h = binary st).
    rewrite !triggerSupernova_eligible.
    destruct (binary st); simpl.
    + destruct (eligible (star1 h)), (eligible (star2 h)); simpl;
        rewrite <- ?app_assoc, ?app_nil_r; reflexivity.
    + destruct (eligible (star1 h)); simpl;
        rewrite ?app_nil_r; reflexivity.
  - intros w N F.
    destruct (novaDue_handed w dtYears dtMs st N) as (A & En & J & Fh & Hs).
    set (h := integrate dtYears dtMs st) in *.
    set (m := set_explosions (updateExplosions dtMs (explosions h)) h).
    assert (Em : star_of w m = star_of w h) by (destruct w; reflexivity).
    assert (P : paintStar (star_of w m) = false).
    { rewrite Em. apply paintStar_false. split; [exact En |].
      rewrite Fh. exact F. }
    assert (B : binary m = binary st) by apply integrate_binary.
    assert (T : updateUI_throws m = true).
    { rewrite updateUI_throws_iff.
      destruct w; unfold star_of in P; unfold active in A.
      - rewrite P. reflexivity.
      - rewrite B, A, P. apply orb_true_r. }
    split; [exact T |].
    change (advanceTime dtYears dtMs st) with (updateUI m).
    destruct (updateUI_star w m) as [E | [P' _]];
      [| rewrite P in P'; discriminate].
    rewrite E, Em. split; assumption.
  - intros w E. unfold novaDue. cbv zeta. rewrite E.
    rewrite andb_false_r. reflexivity.
Qed.

Lemma massiveState_novaDue :
  novaDue Primary 2e10 massiveState = true /\
  novaDue Secondary 2e10 massiveState = false.
Proof.
  destruct massiveState_fields as (E1 & B & _).
  unfold novaDue, active, star_of. cbv zeta.
  rewrite B. split; [| reflexivity].
  rewrite E1.
  assert (G : geb (age (makeStar 20) + 2e10) (tTotal (makeStar 20)) = true).
  { apply geb_true_iff. pose proof makeStar_20_tTotal.
    change (age (makeStar 20)) with 0. lra. }
  assert (M : geb (massInitial (makeStar 20)) 8 = true).
  { apply geb_true_iff. simpl. rewrite clamp_id; lra. }
  rewrite G, M. reflexivity.
Qed.

Lemma advanceTime_novae_witness :
  justEnded (star1 massiveState) = false /\
  justEnded (star2 massiveState) = false /\
  explosions (advanceTime 2e10 16 massiveState) = [freshExplosion].
Proof.
  destruct massiveState_fields as (_ & _ & X & J1 & J2).
  destruct massiveState_novaDue as [N1 N2].
  split; [exact J1 |]. split; [exact J2 |].
  destruct (advanceTime_novae 2e10 16 massiveState J1 J2) as [H _].
  rewrite (H (massiveState_returns 2e10 16)), X, N1, N2. reflexivity.
Defined.

(** ** Explosions *)

Lemma updateExplosions_cons (dtMs : R) (e : Explosion)
  (ex : list Explosion) :
  updateExplosions dtMs (e :: ex) =
    (if (if geb (ageMs e + dtMs) (durationMs e) then false else alive e)
     then [ {| ageMs := ageMs e + dtMs;
               durationMs := durationMs e;
               alive := alive e |} ]
     else [])
    ++ updateExplosions dtMs ex.
Proof.
  unfold updateExplosions. simpl.
  destruct (geb (ageMs e + dtMs) (durationMs e)); simpl; [reflexivity |].
  destruct (alive e); reflexivity.
Qed.

Lemma updateExplosions_nil (dtMs : R) : updateExplosions dtMs [] = [].
Proof. reflexivity. Qed.

Lemma updateExplosions_ok (dtMs : R) (ex : list Explosion) :
  0 <= dtMs -> Forall explosion_ok ex ->
  Forall explosion_ok (updateExplosions dtMs ex) /\
  (length (updateExplosions dtMs ex) <= length ex)%nat.
Proof.
  intros Hd H. induction H as [| e ex He Hex [IH1 IH2]].
  - split; [constructor | apply le_n].
  - rewrite updateExplosions_cons.
    destruct He as (A & [A0 A1] & D).
    destruct (geb (ageMs e + dtMs) (durationMs e)) eqn:G; simpl.
    + split; [exact IH1 | apply le_S, IH2].
    + rewrite A. simpl. apply geb_false_iff in G.
      split; [| apply le_n_S, IH2].
      constructor; [| exact IH1].
      unfold explosion_ok. simpl. repeat split; (assumption || lra).
Qed.

Lemma updateExplosions_survivors (dtMs : R) (ex : list Explosion) :
  Forall explosion_ok ex ->
  updateExplosions dtMs ex =
    map (fun e => {| ageMs := ageMs e + dtMs;
                     durationMs := durationMs e;
                     alive := alive e |})
        (filter (fun e => ltb (ageMs e + dtMs) (durationMs e)) ex).
Proof.
  intro H. induction H as [| e ex He Hex IH].
  - reflexivity.
  - rewrite updateExplosions_cons. cbn [filter].
    destruct He as (A & _ & _).
    destruct (geb (ageMs e + dtMs) (durationMs e)) eqn:G.
    + apply geb_true_iff in G.
      assert (L : ltb (ageMs e + dtMs) (durationMs e) = false)
        by (apply ltb_false_iff; lra).
      rewrite L. exact IH.
    + apply geb_false_iff in G.
      assert (L : ltb (ageMs e + dtMs) (durationMs e) = true)
        by (apply ltb_true_iff; lra).
      rewrite L. cbn [map]. rewrite A. cbn [app]. rewrite IH. reflexivity.
Qed.

Lemma updateExplosions_expire (dtMs : R) (ex : list Explosion) :
  2500 <= dtMs -> Forall explosion_ok ex -> updateExplosions dtMs ex = [].
Proof.
  intros Hd H. induction H as [| e ex He Hex IH].
  - reflexivity.
  - rewrite updateExplosions_cons.
    destruct He as (A & [A0 A1] & D).
    assert (G : geb (ageMs e + dtMs) (durationMs e) = true)
      by (apply geb_true_iff; lra).
    rewrite G. simpl. exact IH.
Qed.

(** X15: on a list of live explosions [updateExplosions] keeps, in
    their order, exactly those whose age plus the frame delta is still
    below their duration, each with its age moved up by the delta; for a
    frame delta that is not negative the survivors are again alive and
    younger than their 2500 ms, and the list is emptied once the delta
    reaches 2500 ms; the list never grows; a fresh explosion appended by
    [startSupernova] satisfies the same conditions. *)
Theorem updateExplosions_lifecycle (dtMs : R) (ex : list Explosion) :
  0 <= dtMs -> Forall explosion_ok ex ->
  updateExplosions dtMs ex =
    map (fun e => {| ageMs := ageMs e + dtMs;
                     durationMs := durationMs e;
                     alive := alive e |})
        (filter (fun e => ltb (ageMs e + dtMs) (durationMs e)) ex) /\
  Forall explosion_ok (updateExplosions dtMs ex) /\
  (length (updateExplosions dtMs ex) <= length ex)%nat /\
  (2500 <= dtMs -> updateExplosions dtMs ex = []) /\
  Forall explosion_ok (startSupernova ex).
Proof.
  intros Hd H.
  destruct (updateExplosions_ok dtMs ex Hd H) as [K1 K2].
  split; [apply updateExplosions_survivors; exact H |].
  split; [exact K1 |]. split; [exact K2 |].
  split; [intro; apply updateExplosions_expire; assumption |].
  unfold startSupernova. apply Forall_app. split; [exact H |].
  constructor; [| constructor].
  unfold explosion_ok. simpl. repeat split; lra.
Qed.

Lemma updateExplosions_lifecycle_witness :
  0 <= 1000 /\ Forall explosion_ok (startSupernova []) /\
  length (updateExplosions 1000 (startSupernova [])) = 1%nat /\
  updateExplosions 2500 (startSupernova []) = [].
Proof.
  assert (Hd : 0 <= 1000) by lra.
  assert (H0 : Forall explosion_ok []) by constructor.
  destruct (updateExplosions_lifecycle 1000 [] Hd H0) as (_ & _ & _ & _ & F).
  assert (Hd2 : 0 <= 2500) by lra.
  destruct (updateExplosions_lifecycle 2500 (startSupernova []) Hd2 F)
    as (_ & _ & _ & E & _).
  assert (He : 2500 <= 2500) by lra.
  split; [exact Hd |]. split; [exact F |].
  split.
  - unfold startSupernova. rewrite app_nil_l, updateExplosions_cons.
    assert (G : geb (0 + 1000) 2500 = false) by (apply geb_false_iff; lra).
    simpl ageMs. simpl durationMs. simpl alive. rewrite G. reflexivity.
  - exact (E He).
Defined.

(** ** The collapse animation and the end state *)

(** X16: for an ended star that is still collapsing and a frame delta
    that is not negative, the ageing loop moves [collapseProgress] up by
    [dtMs / 2000], stops it at 1 and then clears [collapseAnimating];
    the progress stays in [0, 1] and never decreases; an ended star that
    is not collapsing is left untouched. *)
Theorem collapse_animation (dtYears dtMs : R) (s : Star) :
  ended s = true ->
  (collapseAnimating s = true -> 0 <= dtMs ->
   0 <= collapseProgress s <= 1 ->
     let s' := ageStar dtYears dtMs s in
     0 <= collapseProgress s' <= 1 /\
     collapseProgress s <= collapseProgress s' /\
     (collapseProgress s + dtMs / 2000 < 1 ->
        collapseProgress s' = collapseProgress s + dtMs / 2000 /\
        collapseAnimating s' = true) /\
     (1 <= collapseProgress s + dtMs / 2000 ->
        collapseProgress s' = 1 /\ collapseAnimating s' = false)) /\
  (collapseAnimating s = false -> ageStar dtYears dtMs s = s).
Proof.
  intro He. unfold ageStar. cbv zeta. rewrite He. simpl negb. cbv iota.
  split.
  - intros Ha Hd Hp. rewrite Ha. simpl.
    destruct (geb (collapseProgress s + dtMs / 2000) 1) eqn:G; simpl.
    + apply geb_true_iff in G. repeat split; (lra || auto).
    + apply geb_false_iff in G. repeat split; (lra || auto).
  - intro Ha. rewrite Ha. reflexivity.
Qed.

Lemma collapse_animation_witness :
  let s := ageStar 2e10 16 (makeStar 20) in
  ended s = true /\ collapseAnimating s = true /\
  collapseProgress (ageStar 0 1000 s) = collapseProgress s + 1000 / 2000 /\
  collapseAnimating (ageStar 0 2000 s) = false.
Proof.
  cbv zeta.
  assert (E : ended (makeStar 20) = false) by reflexivity.
  assert (D : 2e10 >= tTotal (makeStar 20) - age (makeStar 20)).
  { simpl. rewrite clamp_id by lra.
    pose proof (msLifetimeYears_lt 1 20).
    rewrite msLifetimeYears_one in *. lra. }
  destruct (ageStar_reaches_end 2e10 16 (makeStar 20) E D)
    as (_ & _ & En & _ & An & Pr).
  split; [exact En |]. split; [exact An |].
  assert (P0 : 0 <= collapseProgress (ageStar 2e10 16 (makeStar 20)) <= 1)
    by (rewrite Pr; lra).
  assert (H1 : 0 <= 1000) by lra.
  assert (H2 : 0 <= 2000) by lra.
  destruct (collapse_animation 0 1000 _ En) as [C1 _].
  destruct (collapse_animation 0 2000 _ En) as [C2 _].
  destruct (C1 An H1 P0) as (_ & _ & Lt & _).
  destruct (C2 An H2 P0) as (_ & _ & _ & Ge).
  split.
  - apply Lt. rewrite Pr. lra.
  - apply Ge. rewrite Pr. lra.
Defined.

Lemma ageStar_ended_frozen (dtYears dtMs : R) (s : Star) :
  ended s = true ->
  ended (ageStar dtYears dtMs s) = true /\
  age (ageStar dtYears dtMs s) = age s.
Proof.
  intro He. destruct (ageStar_after_end dtYears dtMs s He) as (A & _ & E & _).
  auto.
Qed.

Lemma advanceTime_after_end (w : Which) (dtYears dtMs : R) (st : State) :
  ended (star_of w st) = true ->
  (forall w', same_physics (star_of w' st)
                (star_of w' (advanceTime dtYears dtMs st))) /\
  ended (star_of w (advanceTime dtYears dtMs st)) = true /\
  age (star_of w (advanceTime dtYears dtMs st)) = age (star_of w st).
Proof.
  intro He.
  destruct (integrate_after_end w dtYears dtMs st He) as (A & _ & E & _).
  destruct (advanceTime_life w dtYears dtMs st) as [(LA & _ & LE & _) _].
  split; [| split; congruence].
  intro w'. unfold advanceTime. cbv zeta.
  match goal with
  | |- same_physics _ (star_of w' (updateUI ?m)) =>
      apply (same_physics_trans _ (star_of w' m));
        [| apply updateUI_physics]
  end.
  assert (I : integrate dtYears dtMs st = ageStars dtYears dtMs st).
  { unfold integrate. apply (doMassTransfer_ended w).
    destruct (active w st) eqn:Ha.
    - rewrite (ageStars_star w dtYears dtMs st Ha).
      apply ageStar_ended_frozen, He.
    - rewrite (ageStars_inactive w dtYears dtMs st Ha). exact He. }
  rewrite I.
  destruct w';
    [apply (ageStars_physics Primary dtYears dtMs st)
    | apply (ageStars_physics Secondary dtYears dtMs st)].
Qed.

Lemma handle_after_end (w : Which) (e : Event) (st : State) :
  keeps_setup e = true ->
  ended (star_of w st) = true ->
  (forall w', same_physics (star_of w' st) (star_of w' (handle e st))) /\
  ended (star_of w (handle e st)) = true.
Proof.
  intros H He.
  assert (S : forall a,
             (forall w', same_physics (star_of w' st)
                           (star_of w' (setSimulationAge a st))) /\
             ended (star_of w (setSimulationAge a st)) = true).
  { intro a. split; [intro w'; apply setSimulationAge_physics |].
    destruct (setSimulationAge_star w a st) as (E & _). congruence. }
  assert (A : forall dt dtMs m,
             (forall w', same_physics (star_of w' st) (star_of w' m)) ->
             ended (star_of w m) = true ->
             (forall w', same_physics (star_of w' st)
                           (star_of w' (advanceTime dt dtMs m))) /\
             ended (star_of w (advanceTime dt dtMs m)) = true).
  { intros dt dtMs m Pm Em.
    destruct (advanceTime_after_end w dt dtMs m Em) as (P & E & _).
    split; [| exact E].
    intro w'. apply (same_physics_trans _ (star_of w' m)); auto. }
  assert (Rf : forall w', same_physics (star_of w' st) (star_of w' st))
    by (intro; apply same_physics_refl).
  destruct e; simpl in *; try discriminate.
  - unfold onBinaryToggle.
    split; [intro w'; apply (updateUI_physics w' (set_binary checked st)) |].
    destruct (updateUI_star_fields w (set_binary checked st)) as (E & _).
    rewrite E. destruct w; exact He.
  - split; [exact Rf | destruct w; exact He].
  - split; [exact Rf | destruct w; exact He].
  - unfold onPlayPause. simpl.
    destruct (negb (running st)); (split; [exact Rf | destruct w; exact He]).
  - unfold tick. destruct (negb (running st)); [split; assumption |].
    cbv zeta. apply A.
    + destruct (falsy (lastTs st)); exact Rf.
    + destruct (falsy (lastTs st)), w; exact He.
  - apply S.
  - apply A; assumption.
  - apply S.
Qed.

(** X17: the end is final for the pair: once a star has ended, no
    sequence of frames, scrubs, speed, rate, play and toggle events
    clears its [ended] flag, and neither star's mass, fate or durations
    change any more (no transfer takes place with an ended star). *)
Theorem ended_is_final (w : Which) (es : list Event) (st : State) :
  ended (star_of w st) = true ->
  forallb keeps_setup es = true ->
  ended (star_of w (run es st)) = true /\
  (forall w', same_physics (star_of w' st) (star_of w' (run es st))).
Proof.
  unfold run. revert st.
  induction es as [| e es IH]; intros st He H; simpl in *.
  - split; [exact He | intro; apply same_physics_refl].
  - apply andb_true_iff in H. destruct H as [Hk Hes].
    destruct (handle_after_end w e st Hk He) as [P E].
    destruct (IH (handle e st) E Hes) as [E' P'].
    split; [exact E' |].
    intro w'. apply (same_physics_trans _ (star_of w' (handle e st))); auto.
Qed.

Lemma remnantState_ended : ended (star_of Primary remnantState) = true.
Proof.
  unfold remnantState.
  destruct massiveState_fields as (E1 & _).
  assert (Ha : active Primary massiveState = true) by reflexivity.
  assert (He : ended (star_of Primary massiveState) = false)
    by (unfold star_of; rewrite E1; reflexivity).
  assert (D : 2e10 >= tTotal (star_of Primary massiveState)
                      - age (star_of Primary massiveState)).
  { unfold star_of. rewrite E1. simpl. rewrite clamp_id by lra.
    pose proof (msLifetimeYears_lt 1 20).
    rewrite msLifetimeYears_one in *. lra. }
  pose proof (integrate_reaches_end Primary 2e10 16 massiveState Ha He D) as I.
  destruct (ageStar_reaches_end 2e10 16 _ He D) as (_ & _ & En & _).
  destruct (advanceTime_life Primary 2e10 16 massiveState)
    as [(_ & _ & LE & _) _].
  rewrite LE, I. exact En.
Qed.

Lemma ended_is_final_witness :
  ended (star_of Primary remnantState) = true /\
  ended (star_of Primary
           (run [Timeline 0; BinaryToggle true; Advance 1e9 16] remnantState))
    = true.
Proof.
  split; [exact remnantState_ended |].
  assert (H : forallb keeps_setup
                [Timeline 0; BinaryToggle true; Advance 1e9 16] = true)
    by reflexivity.
  destruct (ended_is_final Primary
              [Timeline 0; BinaryToggle true; Advance 1e9 16] remnantState
              remnantState_ended H) as [E _].
  exact E.
Defined.

(** ** Scrubbing *)

(** X18: scrubbing changes no mass, fate or duration and no [ended]
    flag; an active star gets the age clamped into [0, tTotal], a star
    outside the simulation keeps its age; an ended star still shows its
    fate as stage wherever it is scrubbed to. *)
Theorem setSimulationAge_scrub (w : Which) (ageYears : R) (st : State) :
  let s := star_of w st in
  let s' := star_of w (setSimulationAge ageYears st) in
  same_physics s s' /\
  ended s' = ended s /\
  (active w st = true -> 0 <= tTotal s ->
     0 <= age s' <= tTotal s' /\
     (0 <= ageYears <= tTotal s -> age s' = ageYears)) /\
  (active w st = false -> age s' = age s) /\
  (ended s = true -> stageForStar s' = Remnant (fate s)).
Proof.
  cbv zeta.
  pose proof (setSimulationAge_physics w ageYears st) as P.
  destruct (setSimulationAge_star w ageYears st) as (E & T & A).
  split; [exact P |]. split; [exact E |].
  split; [| split].
  - intros Ha Ht. rewrite Ha in A. rewrite A, T.
    split; [apply clamp_range, Ht | intro H; apply clamp_id, H].
  - intro Ha. rewrite Ha in A. exact A.
  - intro He. unfold stageForStar. rewrite E, He.
    destruct P as (_ & _ & F & _). rewrite F. reflexivity.
Qed.

(** ** The clock *)

Lemma ageStar_living (dtYears dtMs : R) (s : Star) :
  ended s = false -> age s + dtYears < tTotal s ->
  ageStar dtYears dtMs s = set_age (age s + dtYears) s.
Proof.
  intros He G. apply geb_false_iff in G.
  unfold ageStar. cbv zeta. rewrite He. simpl. rewrite G. reflexivity.
Qed.

Lemma ageStar_monotone (a b dtMs1 dtMs2 : R) (s : Star) :
  ended s = false -> a <= b ->
  age (ageStar a dtMs1 s) <= age (ageStar b dtMs2 s) /\
  (ended (ageStar a dtMs1 s) = true -> ended (ageStar b dtMs2 s) = true).
Proof.
  intros He Hab.
  destruct (geb (age s + b) (tTotal s)) eqn:Gb.
  - apply geb_true_iff in Gb.
    destruct (ageStar_reaches_end b dtMs2 s He) as (Ab & _ & Eb & _);
      [lra |].
    rewrite Ab. split; [| intros _; exact Eb].
    destruct (geb (age s + a) (tTotal s)) eqn:Ga.
    + apply geb_true_iff in Ga.
      destruct (ageStar_reaches_end a dtMs1 s He) as (Aa & _); [lra |].
      rewrite Aa. lra.
    + apply geb_false_iff in Ga.
      rewrite (ageStar_living a dtMs1 s He Ga). simpl. lra.
  - apply geb_false_iff in Gb.
    assert (Ga : age s + a < tTotal s) by lra.
    rewrite (ageStar_living a dtMs1 s He Ga).
    rewrite (ageStar_living b dtMs2 s He Gb).
    simpl. rewrite He. split; [lra | discriminate].
Qed.

Lemma ageStar_bounds (a dtMs : R) (s : Star) :
  ended s = false -> 0 <= a -> age s <= tTotal s ->
  age s <= age (ageStar a dtMs s) <= tTotal s.
Proof.
  intros He Ha Hs.
  destruct (geb (age s + a) (tTotal s)) eqn:G.
  - apply geb_true_iff in G.
    destruct (ageStar_reaches_end a dtMs s He) as (A & _); [lra |].
    rewrite A. lra.
  - apply geb_false_iff in G.
    rewrite (ageStar_living a dtMs s He G). simpl. lra.
Qed.

(** X19: the simulated years of a frame are zero for a zero delta and
    never decrease when the delta grows (the lifetime of the primary and
    the speed being non-negative); in auto-scale mode 60000 ms are the
    whole lifetime of the primary, to within one part in a billion.  For
    a star that has not ended a longer step never leaves a smaller age,
    and ends the star whenever the shorter step does; a step that is not
    negative moves the age up, and never beyond [tTotal]. *)
Theorem frame_step_monotone (autoScale : bool) (st : State) :
  dtYearsOf autoScale st 0 = 0 /\
  (0 <= tTotal (star1 st) -> 0 <= speed st ->
   forall a b : R,
     a <= b -> dtYearsOf autoScale st a <= dtYearsOf autoScale st b) /\
  (1 <= tTotal (star1 st) ->
   Rabs (dtYearsOf true st 60000 - tTotal (star1 st))
     <= 1e-9 * tTotal (star1 st)) /\
  (forall (s : Star) (a b dtMs1 dtMs2 : R),
      ended s = false -> a <= b ->
      age (ageStar a dtMs1 s) <= age (ageStar b dtMs2 s) /\
      (ended (ageStar a dtMs1 s) = true ->
       ended (ageStar b dtMs2 s) = true)) /\
  (forall (s : Star) (a dtMs : R),
      ended s = false -> 0 <= a -> age s <= tTotal s ->
      age s <= age (ageStar a dtMs s) <= tTotal s).
Proof.
  split; [| split; [| split; [| split]]].
  - unfold dtYearsOf. cbv zeta. destruct autoScale; lra.
  - intros Ht Hs a b Hab. unfold dtYearsOf. cbv zeta.
    destruct autoScale.
    + apply Rmult_le_compat_r; lra.
    + assert (0 <= speed st * 1e7) by nra.
      rewrite !Rmult_assoc. apply Rmult_le_compat_r; lra.
  - intro Ht. unfold dtYearsOf. cbv zeta.
    replace (60000 / 1000 * (tTotal (star1 st) / 60) - tTotal (star1 st))
      with 0 by lra.
    rewrite Rabs_R0. lra.
  - intros. apply ageStar_monotone; assumption.
  - intros. apply ageStar_bounds; assumption.
Qed.

(** X20: a frame of a paused simulation changes nothing; the first
    frame after Play (no earlier time stamp is stored) is a step of zero
    years and zero milliseconds, whatever the mode. *)
Theorem tick_edge_frames (autoScale : bool) (ts : R) (st : State) :
  (running st = false -> tick autoScale ts st = st) /\
  (running st = true -> lastTs st = 0 ->
     tick autoScale ts st = advanceTime 0 0 (set_lastTs ts st)).
Proof.
  split.
  - intro H. unfold tick. rewrite H. reflexivity.
  - intros H L. unfold tick. rewrite H. simpl negb. cbv iota zeta.
    assert (F : falsy (lastTs st) = true).
    { unfold falsy. destruct (Req_dec_T (lastTs st) 0); [reflexivity | lra]. }
    rewrite F. simpl lastTs.
    replace (ts - ts) with 0 by lra.
    f_equal. unfold dtYearsOf. cbv zeta. destruct autoScale; lra.
Qed.

Lemma tick_edge_frames_witness :
  running (onPlayPause initialState) = true /\
  lastTs (onPlayPause initialState) = 0 /\
  tick true 5000 (onPlayPause initialState)
    = advanceTime 0 0 (set_lastTs 5000 (onPlayPause initialState)).
Proof.
  assert (R1 : running (onPlayPause initialState) = true) by reflexivity.
  assert (L1 : lastTs (onPlayPause initialState) = 0) by reflexivity.
  split; [exact R1 |]. split; [exact L1 |].
  destruct (tick_edge_frames true 5000 (onPlayPause initialState)) as [_ H].
  exact (H R1 L1).
Defined.

(** ** The order of the stages *)

(** X21: for a star that has not ended, with a main-sequence duration
    that is not negative and [tProtostar + tMS <= tTotal], a later age
    never shows an earlier stage: Protostar, Main Sequence, Giant or
    Supergiant, remnant. *)
Theorem stage_order (s : Star) (a1 a2 : R) :
  0 <= tMS s -> tProtostar s + tMS s <= tTotal s -> a1 <= a2 ->
  (stageRank (stageForStar (set_age a1 s))
   <= stageRank (stageForStar (set_age a2 s)))%nat.
Proof.
  intros Hm Ht Ha. unfold stageForStar. simpl.
  destruct (ended s); [apply le_n |].
  unfold geb.
  destruct (ltb a1 (tProtostar s)) eqn:C1;
    destruct (ltb a2 (tProtostar s)) eqn:C2;
    destruct (ltb a1 (tProtostar s + tMS s)) eqn:C3;
    destruct (ltb a2 (tProtostar s + tMS s)) eqn:C4;
    destruct (ltb a1 (tTotal s)) eqn:C5;
    destruct (ltb a2 (tTotal s)) eqn:C6;
    destruct (leb 8 (massInitial s));
    simpl; try apply le_n; try (repeat constructor; fail);
    exfalso;
    try apply ltb_true_iff in C1; try apply ltb_false_iff in C1;
    try apply ltb_true_iff in C2; try apply ltb_false_iff in C2;
    try apply ltb_true_iff in C3; try apply ltb_false_iff in C3;
    try apply ltb_true_iff in C4; try apply ltb_false_iff in C4;
    try apply ltb_true_iff in C5; try apply ltb_false_iff in C5;
    try apply ltb_true_iff in C6; try apply ltb_false_iff in C6;
    lra.
Qed.

Lemma stage_order_witness :
  (stageRank (stageForStar (set_age 5e9 (makeStar 1)))
   <= stageRank (stageForStar (set_age 1.1e10 (makeStar 1))))%nat.
Proof.
  assert (Hm : 0 <= tMS (makeStar 1)).
  { left. apply (makeStar_tMS_pos 1). }
  assert (Ht : tProtostar (makeStar 1) + tMS (makeStar 1)
               <= tTotal (makeStar 1)).
  { destruct (makeStar_phases_ok 1) as (S & _ & G).
    rewrite S, G. lra. }
  assert (Ha : 5e9 <= 1.1e10) by lra.
  exact (stage_order (makeStar 1) 5e9 1.1e10 Hm Ht Ha).
Defined.

(** ** Timeline and fate scale *)

Lemma renderTimeline_segments (star : Star) :
  fst (renderTimeline star) =
    [ (0, tProtostar star / tTotal star * 100);
      (0 + tProtostar star / tTotal star * 100,
       tMS star / tTotal star * 100);
      (0 + tProtostar star / tTotal star * 100
       + tMS star / tTotal star * 100,
       tGiant star / tTotal star * 100) ].
Proof. reflexivity. Qed.

Lemma Rabs_zero_le (x e : R) : x = 0 -> 0 <= e -> Rabs x <= e.
Proof. intros E H. rewrite E, Rabs_R0. exact H. Qed.

(** X22: for a star whose durations are in the relation that
    [makeStar] and [resetStarTimes] establish, with a positive
    main-sequence duration, the timeline has three segments, each
    starting at the sum of the widths before it, and their widths are,
    whatever the mass and to within a billionth of a percent, 100/111,
    10000/111 and 1000/111 percent; the cursor lies between 0 and 100
    percent. *)
Theorem renderTimeline_layout (star : Star) :
  phases_ok star -> 0 < tMS star ->
  (exists w1 w2 w3 : R,
      fst (renderTimeline star)
        = [ (0, w1); (0 + w1, w2); (0 + w1 + w2, w3) ] /\
      Rabs (w1 - 100 / 111) <= 1e-9 /\
      Rabs (w2 - 10000 / 111) <= 1e-9 /\
      Rabs (w3 - 1000 / 111) <= 1e-9) /\
  0 <= snd (renderTimeline star) <= 100.
Proof.
  intros (S & P & G) Hm. split.
  - exists (tProtostar star / tTotal star * 100),
      (tMS star / tTotal star * 100), (tGiant star / tTotal star * 100).
    split; [apply renderTimeline_segments |].
    rewrite S, P, G.
    set (t := tMS star) in *.
    replace (0.01 * t + t + 0.10 * t) with (t * (111 / 100)) by lra.
    replace (0.01 * t) with (t * (1 / 100)) by lra.
    replace (0.10 * t) with (t * (10 / 100)) by lra.
    assert (E1 : t * (1 / 100) / (t * (111 / 100)) * 100 = 100 / 111)
      by (field; lra).
    assert (E2 : t / (t * (111 / 100)) * 100 = 10000 / 111)
      by (field; lra).
    assert (E3 : t * (10 / 100) / (t * (111 / 100)) * 100 = 1000 / 111)
      by (field; lra).
    rewrite E1, E2, E3.
    repeat split; apply Rabs_zero_le; lra.
  - unfold renderTimeline. cbv zeta. simpl snd.
    pose proof (clamp_range (age star / tTotal star) 0 1). lra.
Qed.

Lemma renderTimeline_layout_witness :
  0 <= snd (renderTimeline (makeStar 20)) <= 100.
Proof.
  assert (Hm : 0 < tMS (makeStar 20)) by apply (makeStar_tMS_pos 20).
  destruct (renderTimeline_layout (makeStar 20) (makeStar_phases_ok 20) Hm)
    as [_ H].
  exact H.
Defined.



(** X24: the fate scale has three zones in the order white dwarf,
    neutron star, black hole, each of a positive width; the first starts
    at 0 percent, each of the others within a billionth of a percent of
    where the one before ends, and the last ends within a billionth of
    a percent of 100; the marker lies between 0 and 100 percent and, for
    every mass, inside the zone that goes with the fate of that mass. *)
Theorem renderMassScale_marker (currentMass : R) :
  let zones := fst (renderMassScale currentMass) in
  let marker := snd (renderMassScale currentMass) in
  (exists l2 l3 w1 w2 w3 : R,
      zones = [ (wd, (0, w1)); (ns, (l2, w2)); (bh, (l3, w3)) ] /\
      0 < w1 /\ 0 < w2 /\ 0 < w3 /\
      Rabs (0 + w1 - l2) <= 1e-9 /\
      Rabs (l2 + w2 - l3) <= 1e-9 /\
      Rabs (l3 + w3 - 100) <= 1e-9) /\
  0 <= marker <= 100 /\
  (exists l w : R,
      In (zoneOfFate (fateForMass currentMass), (l, w)) zones /\
      l <= marker <= l + w).
Proof.
  cbv zeta. unfold renderMassScale, placeZone, WD_MAX, NS_MAX.
  cbv zeta. simpl fst. simpl snd.
  set (left := (currentMass - 0.1) / (50 - 0.1) * 100).
  split; [| split].
  - exists ((8 - 0.1) / (50 - 0.1) * 100), ((20 - 0.1) / (50 - 0.1) * 100),
      ((8 - 0.1) / (50 - 0.1) * 100), ((20 - 8) / (50 - 0.1) * 100),
      ((50 - 20) / (50 - 0.1) * 100).
    split.
    + replace ((0.1 - 0.1) / (50 - 0.1) * 100) with 0 by lra.
      reflexivity.
    + repeat split; try lra; apply Rabs_zero_le; lra.
  - apply clamp_range. lra.
  - destruct (fateForMass_cases currentMass) as (W & N & B).
    destruct (clamp_cases left 0 100) as [[Hl E] | [[Hl E] | [Hl E]]];
      [lra | | |]; rewrite E.
    + assert (currentMass < 0.1) by (unfold left in Hl; lra).
      rewrite W by lra.
      eexists. eexists. split; [left; reflexivity | lra].
    + assert (0.1 <= currentMass <= 50) by (unfold left in Hl; lra).
      destruct (Rlt_dec currentMass 8) as [H8 | H8].
      * rewrite (W H8).
        eexists. eexists. split; [left; reflexivity |].
        unfold left. lra.
      * destruct (Rlt_dec currentMass 20) as [H20 | H20].
        -- rewrite N by lra.
           eexists. eexists.
           split; [right; left; reflexivity |]. unfold left. lra.
        -- rewrite B by lra.
           eexists. eexists.
           split; [right; right; left; reflexivity |]. unfold left. lra.
    + assert (50 < currentMass) by (unfold left in Hl; lra).
      rewrite B by lra.
      eexists. eexists.
      split; [right; right; left; reflexivity |]. lra.
Qed.

(** ** Camera *)

Lemma initialCamera_zoom : zoom initialCamera = 1.
Proof. reflexivity. Qed.



Lemma zoomAbout_zoom (cv : Canvas) (mx my z : R) (c : Camera) :
  zoom (zoomAbout cv mx my z c) = z.
Proof. reflexivity. Qed.

Lemma zoomAbout_pan (cv : Canvas) (mx my z : R) (c : Camera) :
  isPanning (zoomAbout cv mx my z c) = isPanning c /\
  panStartX (zoomAbout cv mx my z c) = panStartX c /\
  panStartY (zoomAbout cv mx my z c) = panStartY c /\
  didDrag (zoomAbout cv mx my z c) = didDrag c.
Proof. repeat split; reflexivity. Qed.

Lemma Math_exp_ge_one (x : R) : 0 <= x -> 1 <= Math_exp x.
Proof.
  intro H. unfold Math_exp. destruct H as [H | H].
  - assert (Hx : x <> 0) by lra. pose proof (exp_ineq1 x Hx). lra.
  - rewrite <- H, exp_0. lra.
Qed.

Lemma Math_exp_le_one (x : R) : x <= 0 -> Math_exp x <= 1.
Proof.
  intro H. unfold Math_exp. destruct H as [H | H].
  - rewrite <- exp_0. left. apply exp_increasing. exact H.
  - rewrite H, exp_0. lra.
Qed.

(** X26: the wheel handler and [adjustZoom] set the zoom to the old one
    times their factor, brought into 0.1 .. 12, and leave the state of
    a pan in progress alone.  With the zoom already in that range,
    rolling the wheel up ([deltaY <= 0]) never zooms out, rolling it
    down never zooms in, a wheel event with [deltaY = 0] keeps the zoom;
    [adjustZoom] with a factor of at least 1 never zooms out, with a
    factor between 0 and 1 never zooms in. *)
Theorem zoom_direction (cv : Canvas) (rect : Rect) (c : Camera)
  (clientX clientY deltaY factor : R) :
  let cw := onWheel cv rect clientX clientY deltaY c in
  let ca := adjustZoom cv rect factor c in
  zoom cw = clamp (zoom c * Math_exp (- deltaY * 0.0012)) 0.1 12 /\
  zoom ca = clamp (zoom c * factor) 0.1 12 /\
  0.1 <= zoom cw <= 12 /\
  0.1 <= zoom ca <= 12 /\
  (isPanning cw = isPanning c /\ didDrag cw = didDrag c) /\
  (isPanning ca = isPanning c /\ didDrag ca = didDrag c) /\
  (0.1 <= zoom c <= 12 ->
   (deltaY <= 0 -> zoom c <= zoom cw) /\
   (0 <= deltaY -> zoom cw <= zoom c) /\
   (deltaY = 0 -> zoom cw = zoom c) /\
   (1 <= factor -> zoom c <= zoom ca) /\
   (0 <= factor <= 1 -> zoom ca <= zoom c)).
Proof.
  cbv zeta. unfold onWheel, adjustZoom. cbv zeta.
  rewrite !zoomAbout_zoom.
  assert (Hc : forall v, 0.1 <= clamp v 0.1 12 <= 12)
    by (intro v; apply clamp_range; lra).
  do 2 (split; [reflexivity |]).
  do 2 (split; [apply Hc |]).
  do 2 (split; [split; reflexivity |]).
  intros [Hl Hu].
  assert (Up : forall f, 1 <= f -> zoom c <= clamp (zoom c * f) 0.1 12).
  { intros f Hf.
    pose proof (clamp_monotone (zoom c) (zoom c * f) 0.1 12) as Hm.
    rewrite (clamp_id (zoom c)) in Hm by lra.
    apply Hm. nra. }
  assert (Down : forall f, 0 <= f <= 1 ->
                           clamp (zoom c * f) 0.1 12 <= zoom c).
  { intros f Hf.
    pose proof (clamp_monotone (zoom c * f) (zoom c) 0.1 12) as Hm.
    rewrite (clamp_id (zoom c)) in Hm by lra.
    apply Hm. nra. }
  split; [| split; [| split; [| split]]].
  - intro Hd. apply Up. apply Math_exp_ge_one. lra.
  - intro Hd. apply Down. split.
    + left. unfold Math_exp. apply exp_pos.
    + apply Math_exp_le_one. lra.
  - intro Hd. subst deltaY.
    replace (- 0 * 0.0012) with 0 by lra.
    unfold Math_exp. rewrite exp_0, Rmult_1_r.
    apply clamp_id. lra.
  - exact (Up factor).
  - exact (Down factor).
Qed.

(** The moves of the pointer between a press and a release. *)
Lemma onMouseMove_panning (cx cy : R) (c : Camera) :
  isPanning c = true ->
  let c' := onMouseMove cx cy c in
  zoom c' = zoom c /\ isPanning c' = true /\
  panStartX c' = cx /\ panStartY c' = cy /\
  offsetX c' = offsetX c + (cx - panStartX c) /\
  offsetY c' = offsetY c + (cy - panStartY c) /\
  didDrag c' =
    didDrag c || gtb (Math_hypot (cx - panStartX c) (cy - panStartY c)) 3.
Proof.
  intro Hp. cbv zeta. unfold onMouseMove. rewrite Hp. cbv zeta.
  cbn [negb].
  unfold set_pan, set_offset.
  cbn [zoom offsetX offsetY isPanning panStartX panStartY didDrag].
  destruct (gtb (Math_hypot (cx - panStartX c) (cy - panStartY c)) 3);
    cbn [zoom offsetX offsetY isPanning panStartX panStartY didDrag];
    rewrite ?orb_true_r, ?orb_false_r; repeat split; reflexivity.
Qed.

Lemma last_cons_default (A : Type) (ms : list A) (p d : A) :
  last (p :: ms) d = last ms p.
Proof.
  revert p d. induction ms as [| q ms IH]; intros p d.
  - reflexivity.
  - change (last (p :: q :: ms) d) with (last (q :: ms) d).
    rewrite (IH q d), (IH q p). reflexivity.
Qed.

Lemma moves_keep_panning (ms : list (R * R)) (c : Camera) :
  isPanning c = true ->
  let c' := fold_left (fun c p => onMouseMove (fst p) (snd p) c) ms c in
  zoom c' = zoom c /\ isPanning c' = true /\
  (panStartX c', panStartY c') = last ms (panStartX c, panStartY c).
Proof.
  revert c. induction ms as [| p ms IH]; intros c Hp; cbv zeta.
  - cbn [fold_left last]. repeat split; auto.
  - cbn [fold_left].
    destruct (onMouseMove_panning (fst p) (snd p) c Hp)
      as (Z & P & X & Y & _).
    cbv zeta in Z, P, X, Y.
    destruct (IH _ P) as (Z' & P' & L').
    cbv zeta in Z', P', L'.
    rewrite X, Y, <- surjective_pairing in L'.
    rewrite last_cons_default.
    split; [congruence |]. split; [exact P' | exact L'].
Qed.

(** X27: a press starts a pan at the pointer, with no drag seen yet.
    While the button is held, whatever the moves, the zoom is the one
    before the press and the pan start is the last pointer position;
    the next move adds the pointer's displacement from there to the
    offset (so a move to the right never shifts the view to the left, a
    move down never shifts it up) and records a drag as soon as that
    displacement is longer than 3 pixels.  Without a button held a move
    changes nothing. *)
Theorem pan_follows_pointer (c : Camera) (x0 y0 : R)
  (ms : list (R * R)) (cx cy : R) :
  let c0 := onMouseDown x0 y0 c in
  let c' := fold_left (fun c p => onMouseMove (fst p) (snd p) c) ms c0 in
  let c'' := onMouseMove cx cy c' in
  (isPanning c0 = true /\ didDrag c0 = false /\
   offsetX c0 = offsetX c /\ offsetY c0 = offsetY c) /\
  zoom c' = zoom c /\ isPanning c' = true /\
  (panStartX c', panStartY c') = last ms (x0, y0) /\
  offsetX c'' = offsetX c' + (cx - panStartX c') /\
  offsetY c'' = offsetY c' + (cy - panStartY c') /\
  (panStartX c' <= cx -> offsetX c' <= offsetX c'') /\
  (panStartY c' <= cy -> offsetY c' <= offsetY c'') /\
  didDrag c'' =
    didDrag c'
    || gtb (Math_hypot (cx - panStartX c') (cy - panStartY c')) 3 /\
  (isPanning c = false ->
   fold_left (fun c p => onMouseMove (fst p) (snd p) c) ms c = c).
Proof.
  cbv zeta.
  assert (Hp : isPanning (onMouseDown x0 y0 c) = true) by reflexivity.
  destruct (moves_keep_panning ms _ Hp) as (Z & P & L).
  cbv zeta in Z, P, L.
  change (panStartX (onMouseDown x0 y0 c)) with x0 in L.
  change (panStartY (onMouseDown x0 y0 c)) with y0 in L.
  change (zoom (onMouseDown x0 y0 c)) with (zoom c) in Z.
  destruct (onMouseMove_panning cx cy _ P) as (_ & _ & _ & _ & OX & OY & D).
  cbv zeta in OX, OY, D.
  split; [repeat split; reflexivity |].
  split; [exact Z |]. split; [exact P |]. split; [exact L |].
  split; [exact OX |]. split; [exact OY |].
  split; [intro H; rewrite OX; lra |].
  split; [intro H; rewrite OY; lra |].
  split; [exact D |].
  intro Hn. clear - Hn. induction ms as [| p ms IH].
  - reflexivity.
  - cbn [fold_left]. unfold onMouseMove at 2. rewrite Hn.
    cbn [negb]. exact IH.
Qed.

Lemma nearestStep_some (cv : Canvas) (c : Camera) (mx my : R)
  (ps : list (R * R)) (p0 : R * R) :
  exists p : R * R,
    (p = p0 \/ In p ps) /\
    fold_left (nearestStep cv c mx my) ps
      (Some (p0, worldToScreen cv c (fst p0) (snd p0),
             screenDistance cv c mx my p0))
    = Some (p, worldToScreen cv c (fst p) (snd p),
            screenDistance cv c mx my p) /\
    screenDistance cv c mx my p <= screenDistance cv c mx my p0 /\
    (forall q : R * R, In q ps ->
       screenDistance cv c mx my p <= screenDistance cv c mx my q).
Proof.
  revert p0. induction ps as [| q ps IH]; intro p0.
  - exists p0. cbn [fold_left In]. repeat split; auto; try lra.
    intros q [].
  - cbn [fold_left].
    assert (E : nearestStep cv c mx my
                  (Some (p0, worldToScreen cv c (fst p0) (snd p0),
                         screenDistance cv c mx my p0)) q
                = if ltb (screenDistance cv c mx my q)
                         (screenDistance cv c mx my p0)
                  then Some (q, worldToScreen cv c (fst q) (snd q),
                             screenDistance cv c mx my q)
                  else Some (p0, worldToScreen cv c (fst p0) (snd p0),
                             screenDistance cv c mx my p0))
      by reflexivity.
    rewrite E. clear E.
    destruct (ltb (screenDistance cv c mx my q)
                  (screenDistance cv c mx my p0)) eqn:L.
    + apply ltb_true_iff in L.
      destruct (IH q) as (p & Hin & F & Hle & Hall).
      exists p. split; [| split; [exact F | split]].
      * right. destruct Hin as [-> | Hin]; [left; reflexivity |].
        right; exact Hin.
      * lra.
      * intros r [<- | Hr]; [exact Hle | apply Hall; exact Hr].
    + apply ltb_false_iff in L.
      destruct (IH p0) as (p & Hin & F & Hle & Hall).
      exists p. split; [| split; [exact F | split]].
      * destruct Hin as [-> | Hin]; [left; reflexivity |].
        right; right; exact Hin.
      * exact Hle.
      * intros r [<- | Hr]; [lra | apply Hall; exact Hr].
Qed.

Lemma nearest_found (cv : Canvas) (c : Camera) (mx my : R) (st : State) :
  exists p : R * R,
    In p (starPositions cv st) /\
    fold_left (nearestStep cv c mx my) (starPositions cv st) None
    = Some (p, worldToScreen cv c (fst p) (snd p),
            screenDistance cv c mx my p) /\
    (forall q : R * R, In q (starPositions cv st) ->
       screenDistance cv c mx my p <= screenDistance cv c mx my q) /\
    snd p = 0 /\ (binary st = false -> fst p = 0).
Proof.
  assert (G : forall p0 ps,
             starPositions cv st = p0 :: ps ->
             (forall q, In q (p0 :: ps) ->
                snd q = 0 /\ (binary st = false -> fst q = 0)) ->
             exists p : R * R,
               In p (starPositions cv st) /\
               fold_left (nearestStep cv c mx my) (starPositions cv st) None
               = Some (p, worldToScreen cv c (fst p) (snd p),
                       screenDistance cv c mx my p) /\
               (forall q : R * R, In q (starPositions cv st) ->
                  screenDistance cv c mx my p
                  <= screenDistance cv c mx my q) /\
               snd p = 0 /\ (binary st = false -> fst p = 0)).
  { intros p0 ps E Hq. rewrite E. cbn [fold_left].
    change (nearestStep cv c mx my None p0)
      with (Some (p0, worldToScreen cv c (fst p0) (snd p0),
                  screenDistance cv c mx my p0)).
    destruct (nearestStep_some cv c mx my ps p0)
      as (p & Hin & F & Hle & Hall).
    assert (Hp : In p (p0 :: ps)).
    { destruct Hin as [-> | Hin]; [left; reflexivity | right; exact Hin]. }
    exists p. split; [exact Hp |]. split; [exact F |].
    split; [| apply Hq; exact Hp].
    intros q [<- | Hr]; [exact Hle | apply Hall; exact Hr]. }
  unfold starPositions in *.
  destruct (binary st) eqn:B; cbn [negb] in *.
  - eapply G; [reflexivity |].
    intros q [<- | [<- | []]]; split; try reflexivity; discriminate.
  - eapply G; [reflexivity |].
    intros q [<- | []]; split; reflexivity.
Qed.

Lemma focusOnNearestStar_zoom (cv : Canvas) (rect : Rect) (st : State)
  (cx cy : R) (zoomIn : bool) (c : Camera) :
  zoom (focusOnNearestStar cv rect st cx cy zoomIn c)
  = if zoomIn then clamp (zoom c * 1.8) 0.1 12 else zoom c.
Proof.
  unfold focusOnNearestStar. cbv zeta.
  destruct (nearest_found cv c (cx - rectLeft rect) (cy - rectTop rect) st)
    as (p & _ & F & _).
  rewrite F. destruct (worldToScreen cv c (fst p) (snd p)) as [sx sy].
  destruct zoomIn; reflexivity.
Qed.

(** X28: a click or double click on the canvas picks a star whose
    distance on screen from the pointer is the least (the only star, at
    the world origin, outside binary mode) and shifts the view by the
    vector from where that star is drawn to the centre of the bounding
    rectangle; a double click then multiplies the zoom by 1.8 within
    0.1 .. 12, a click leaves the zoom alone.  The F key sets the zoom
    to 3. *)
Theorem focus_nearest_star (cv : Canvas) (rect : Rect) (st : State)
  (clientX clientY : R) (zoomIn : bool) (c : Camera) :
  let mx := clientX - rectLeft rect in
  let my := clientY - rectTop rect in
  let c' := focusOnNearestStar cv rect st clientX clientY zoomIn c in
  (exists p : R * R,
     In p (starPositions cv st) /\
     (forall q : R * R, In q (starPositions cv st) ->
        screenDistance cv c mx my p <= screenDistance cv c mx my q) /\
     (binary st = false -> p = (0, 0)) /\
     offsetX c' = offsetX c
                  + (rectWidth rect / 2
                     - fst (worldToScreen cv c (fst p) (snd p))) /\
     offsetY c' = offsetY c
                  + (rectHeight rect / 2
                     - snd (worldToScreen cv c (fst p) (snd p)))) /\
  zoom c' = (if zoomIn then clamp (zoom c * 1.8) 0.1 12 else zoom c) /\
  zoom (framePrimary cv rect c) = 3.
Proof.
  cbv zeta. split; [| split; [apply focusOnNearestStar_zoom |]].
  - destruct (nearest_found cv c (clientX - rectLeft rect)
                (clientY - rectTop rect) st) as (p & Hin & F & Hall & Y & X).
    exists p. split; [exact Hin |]. split; [exact Hall |].
    split.
    { intro Hb. rewrite (surjective_pairing p), Y, (X Hb). reflexivity. }
    unfold focusOnNearestStar. cbv zeta. rewrite F.
    destruct (worldToScreen cv c (fst p) (snd p)) as [sx sy].
    destruct zoomIn; split; reflexivity.
  - unfold framePrimary, worldToScreen, set_offset, set_zoom.
    cbn [fst snd zoom offsetX offsetY]. apply clamp_id. lra.
Qed.

Lemma onMouseMove_zoom (cx cy : R) (c : Camera) :
  zoom (onMouseMove cx cy c) = zoom c.
Proof.
  destruct (isPanning c) eqn:P.
  - apply (onMouseMove_panning cx cy c P).
  - unfold onMouseMove. rewrite P. reflexivity.
Qed.

Lemma handleCamera_zoom (cv : Canvas) (rect : Rect) (st : State)
  (e : CameraEvent) (c : Camera) :
  0.1 <= zoom c <= 12 ->
  0.1 <= zoom (handleCamera cv rect st e c) <= 12.
Proof.
  intro H.
  assert (Hc : forall v, 0.1 <= clamp v 0.1 12 <= 12)
    by (intro v; apply clamp_range; lra).
  destruct e as [x y | x y | x y | x y d | x y | k |]; cbn [handleCamera].
  - exact H.
  - rewrite onMouseMove_zoom. exact H.
  - unfold onMouseUp. cbv zeta.
    destruct (isPanning c && _).
    + rewrite focusOnNearestStar_zoom. exact H.
    + exact H.
  - unfold onWheel. cbv zeta. rewrite zoomAbout_zoom. apply Hc.
  - rewrite focusOnNearestStar_zoom. apply Hc.
  - destruct k; cbn [onKeyDown].
    + unfold adjustZoom. cbv zeta. rewrite zoomAbout_zoom. apply Hc.
    + unfold adjustZoom. cbv zeta. rewrite zoomAbout_zoom. apply Hc.
    + change (zoom (resetCamera c)) with 1. lra.
    + change (zoom (framePrimary cv rect c)) with (clamp 3 0.1 12).
      apply Hc.
  - change (zoom (resetCamera c)) with 1. lra.
Qed.

Lemma runCamera_zoom (cv : Canvas) (rect : Rect)
  (es : list (State * CameraEvent)) (c : Camera) :
  0.1 <= zoom c <= 12 ->
  0.1 <= zoom (runCamera cv rect es c) <= 12.
Proof.
  unfold runCamera. revert c.
  induction es as [| e es IH]; intros c H; cbn [fold_left].
  - exact H.
  - apply IH. apply handleCamera_zoom. exact H.
Qed.

(** X29: whatever the mouse, the wheel and the keyboard do, starting
    from the initial camera the zoom stays within 0.1 .. 12; so in
    every camera that can be reached the conversion from screen to
    world divides by a zoom that is not 0. *)
Theorem camera_zoom_in_range (cv : Canvas) (rect : Rect)
  (es : list (State * CameraEvent)) :
  let c := runCamera cv rect es initialCamera in
  0.1 <= zoom c <= 12 /\ zoom c <> 0.
Proof.
  cbv zeta.
  assert (H : 0.1 <= zoom (runCamera cv rect es initialCamera) <= 12).
  { apply runCamera_zoom. rewrite initialCamera_zoom. lra. }
  split; [exact H | lra].
Qed.

(** ** The drawn radius *)

Lemma easeInOut_range (t : R) : 0 <= easeInOut t <= 1.
Proof.
  unfold easeInOut, Math_cos.
  pose proof (COS_bound (Math_PI * clamp t 0 1)). lra.
Qed.

Lemma easeInOut_ends (t : R) :
  (t <= 0 -> easeInOut t = 0) /\ (1 <= t -> easeInOut t = 1).
Proof.
  unfold easeInOut, Math_cos, Math_PI. split; intro H.
  - destruct (clamp_cases t 0 1) as [[? E] | [[? E] | [? E]]];
      [lra | | |]; rewrite E; try lra.
    + rewrite Rmult_0_r, cos_0. lra.
    + replace t with 0 by lra. rewrite Rmult_0_r, cos_0. lra.
  - destruct (clamp_cases t 0 1) as [[? E] | [[? E] | [? E]]];
      [lra | | |]; rewrite E; try lra.
    + replace t with 1 by lra. rewrite Rmult_1_r, cos_PI. lra.
    + rewrite Rmult_1_r, cos_PI. lra.
Qed.

Lemma dynamicRadiusPx_living (star : Star) (baseScalePx : R) :
  ended star = false ->
  exists multiplier : R,
    dynamicRadiusPx star baseScalePx
    = clamp (Math_pow (radiusRsun (massCurrent star)) 0.4
             * (baseScalePx * 0.15) * multiplier) 2 baseScalePx.
Proof.
  intro He. unfold dynamicRadiusPx, updateStarParams, stageForStar.
  cbv zeta. rewrite He.
  destruct (ltb (age star) (tProtostar star)).
  { eexists; reflexivity. }
  destruct (ltb (age star) (tProtostar star + tMS star)).
  { eexists; reflexivity. }
  destruct (ltb (age star) (tTotal star)).
  { destruct (geb (massInitial star) 8); eexists; reflexivity. }
  eexists; reflexivity.
Qed.

Lemma dynamicRadiusPx_ended (star : Star) (baseScalePx : R) :
  ended star = true ->
  dynamicRadiusPx star baseScalePx
  = let finalVisual :=
      Math_pow (finalCompactRadiusRsun star) 0.4 * (baseScalePx * 0.15) in
    if collapseAnimating star && ltb (collapseProgress star) 1 then
      lerp (Math_pow (Math_max (radiusRsun (massCurrent star)) 1) 0.4
            * (baseScalePx * 0.15) * 2.0)
           (Math_max finalVisual 2) (easeInOut (collapseProgress star))
    else Math_max finalVisual 2.
Proof.
  intro He. unfold dynamicRadiusPx, updateStarParams, stageForStar.
  cbv zeta. rewrite He.
  destruct (collapseAnimating star && ltb (collapseProgress star) 1);
    reflexivity.
Qed.

(** X30: the radius a star is drawn with.  A star that has not ended is
    drawn with a radius between 2 pixels and [baseScalePx], in every
    stage, when [baseScalePx] is at least 2, and with exactly 2 pixels
    when it is smaller.  An ended star is never drawn smaller than 2
    pixels once its collapse animation is over, nor during the
    animation when [baseScalePx] is at least 20/3; the animation starts
    from twice the base size of a star of at least one solar radius and
    ends at the size of the compact object, or 2 pixels if that is
    smaller. *)
Theorem dynamicRadiusPx_bounds (star : Star) (baseScalePx : R) :
  let r := dynamicRadiusPx star baseScalePx in
  let finalVisual :=
    Math_pow (finalCompactRadiusRsun star) 0.4 * (baseScalePx * 0.15) in
  let preCollapse :=
    Math_pow (Math_max (radiusRsun (massCurrent star)) 1) 0.4
    * (baseScalePx * 0.15) * 2.0 in
  (ended star = false ->
   (2 <= baseScalePx -> 2 <= r <= baseScalePx) /\
   (baseScalePx < 2 -> r = 2)) /\
  (ended star = true ->
   (collapseAnimating star = false \/ 1 <= collapseProgress star ->
    r = Math_max finalVisual 2 /\ 2 <= r) /\
   (collapseAnimating star = true -> collapseProgress star <= 0 ->
    r = preCollapse) /\
   (20 / 3 <= baseScalePx -> 2 <= r)).
Proof.
  cbv zeta. split; intro He.
  - destruct (dynamicRadiusPx_living star baseScalePx He) as [m E].
    rewrite E. split; intro Hb.
    + apply clamp_range. exact Hb.
    + unfold clamp, Math_max, Math_min. apply Rmax_left.
      pose proof (Rmin_l baseScalePx
                    (Math_pow (radiusRsun (massCurrent star)) 0.4
                     * (baseScalePx * 0.15) * m)). lra.
  - rewrite (dynamicRadiusPx_ended star baseScalePx He). cbv zeta.
    set (fv := Math_pow (finalCompactRadiusRsun star) 0.4
               * (baseScalePx * 0.15)).
    set (pre := Math_pow (Math_max (radiusRsun (massCurrent star)) 1) 0.4
                * (baseScalePx * 0.15) * 2.0).
    assert (Hf : 2 <= Math_max fv 2) by (unfold Math_max; apply Rmax_r).
    split; [| split].
    + intros [Ha | Hp].
      * rewrite Ha. cbn [andb]. split; [reflexivity | exact Hf].
      * assert (L : ltb (collapseProgress star) 1 = false)
          by (apply ltb_false_iff; exact Hp).
        rewrite L, andb_false_r. split; [reflexivity | exact Hf].
    + intros Ha Hp.
      assert (L : ltb (collapseProgress star) 1 = true)
        by (apply ltb_true_iff; lra).
      rewrite Ha, L. cbn [andb].
      destruct (easeInOut_ends (collapseProgress star)) as [E0 _].
      rewrite (E0 Hp). unfold lerp. ring.
    + intro Hb.
      destruct (collapseAnimating star && ltb (collapseProgress star) 1);
        [| exact Hf].
      pose proof (easeInOut_range (collapseProgress star)) as Ht.
      set (t := easeInOut (collapseProgress star)) in *.
      assert (Hpow : 1 <= Math_pow
                            (Math_max (radiusRsun (massCurrent star)) 1) 0.4).
      { apply Math_pow_ge_one; [| lra].
        unfold Math_max. apply Rmax_r. }
      assert (Hpre : 2 <= pre) by (unfold pre; nra).
      unfold lerp. nra.
Qed.

Lemma dynamicRadiusPx_bounds_witness :
  2 <= dynamicRadiusPx (star_of Primary initialState) 210 <= 210.
Proof.
  assert (He : ended (star_of Primary initialState) = false)
    by reflexivity.
  assert (Hb : 2 <= 210) by lra.
  destruct (dynamicRadiusPx_bounds (star_of Primary initialState) 210)
    as [H _].
  destruct (H He) as [H2 _].
  exact (H2 Hb).
Defined.

(** ** The floor of the donor's mass, on doubles *)

(** C1: the code breaks the floor it documents.  On IEEE doubles, the
    call [transferMass(star1, star2, dm)] that [doMassTransfer] makes in
    the close binary of 8 and 1 solar masses on a step of 4e7 years,
    with [dm = (0.2 / 1e6) * 4e7], takes [Math.min(dm, 8 - 0.1)] from a
    donor whose mass was above 0.1 and leaves it with
    [8 - (8 - 0.1) = 0.09999999999999964], which is below the 0.1 that
    the comment on line 206 and the specification promise.  This holds
    whatever [Math.pow] returns. *)
Theorem transferMass_floor_on_doubles
  (Math_pow : PrimFloat.float -> PrimFloat.float -> PrimFloat.float) :
  let donor := Double.rlofDonor Math_pow in
  let accretor := Double.rlofAccretor Math_pow in
  let after := Double.transferMass Math_pow donor accretor Double.rlofDm in
  Double.massCurrent (fst after) = Double.leftMass /\
  Double.below (Double.massCurrent (fst after)) Double.floorMass = true /\
  Double.below Double.floorMass (Double.massCurrent donor) = true.
Proof.
  cbv zeta. repeat split; vm_compute; reflexivity.
Qed.

Lemma Math_pow_8_m25 : 1 / 256 < Math_pow 8 (-2.5).
Proof.
  unfold Math_pow.
  assert (E8 : 8 = Rpower 2 3).
  { replace 3 with (INR 3) by (simpl; lra).
    rewrite Rpower_pow by lra. simpl. lra. }
  assert (E : Rpower 8 (-2.5) = Rpower 2 (3 * -2.5)).
  { rewrite <- Rpower_mult, <- E8. reflexivity. }
  assert (E256 : 1 / 256 = Rpower 2 (Ropp 8)).
  { rewrite Rpower_Ropp.
    replace 8 with (INR 8) by (simpl; lra).
    rewrite Rpower_pow by lra. simpl. lra. }
  rewrite E, E256. apply Rpower_lt; lra.
Qed.

Lemma ageStars_knobs (dtYears dtMs : R) (st : State) :
  knobs (ageStars dtYears dtMs st) = knobs st.
Proof. unfold ageStars. cbv zeta. destruct (binary _); reflexivity. Qed.

Lemma young_star_lives (m dtYears dtMs : R) :
  dtYears < tTotal (makeStar m) ->
  ended (ageStar dtYears dtMs (makeStar m)) = false.
Proof.
  intros Hm. unfold ageStar. cbv zeta.
  change (ended (makeStar m)) with false. cbn [negb].
  assert (G : geb (age (set_age (age (makeStar m) + dtYears) (makeStar m)))
                  (tTotal (set_age (age (makeStar m) + dtYears) (makeStar m)))
              = false).
  { apply geb_false_iff.
    change (tTotal (set_age (age (makeStar m) + dtYears) (makeStar m)))
      with (tTotal (makeStar m)).
    change (age (set_age (age (makeStar m) + dtYears) (makeStar m)))
      with (0 + dtYears). lra. }
  rewrite G. reflexivity.
Qed.

Lemma tTotal_makeStar_8 : 4e7 < tTotal (makeStar 8).
Proof.
  simpl. rewrite clamp_id by lra.
  unfold msLifetimeYears, GYR, YEAR.
  pose proof Math_pow_8_m25. lra.
Qed.

Lemma tTotal_makeStar_1 : 4e7 < tTotal (makeStar 1).
Proof.
  simpl. rewrite clamp_id by lra.
  rewrite msLifetimeYears_one. lra.
Qed.

Lemma close_binary_step (st : State) :
  star1 st = makeStar 8 -> star2 st = makeStar 1 -> binary st = true ->
  transferRatePerYear st = 0.2 / MYR ->
  overfill1 st = true -> overfill2 st = false ->
  let aged := ageStars 4e7 16 st in
  massCurrent (star1 aged) = 8 /\
  massCurrent (star2 aged) = 1 /\
  transferRatePerYear aged * 4e7 = 8 /\
  integrate 4e7 16 st =
    set_stars
      (fst (transferMass (star1 aged) (star2 aged)
              (transferRatePerYear aged * 4e7)))
      (snd (transferMass (star1 aged) (star2 aged)
              (transferRatePerYear aged * 4e7))) aged.
Proof.
  intros E1 E2 Hb Er O1 O2. cbv zeta.
  pose proof (ageStars_star Primary 4e7 16 st (active_primary _)) as S1.
  pose proof (ageStars_star Secondary 4e7 16 st Hb) as S2.
  pose proof (ageStars_binary 4e7 16 st) as B.
  pose proof (ageStars_physics Primary 4e7 16 st) as P1.
  pose proof (ageStars_physics Secondary 4e7 16 st) as P2.
  pose proof (ageStars_knobs 4e7 16 st) as K.
  pose proof (knobs_separation _ _ K) as Sep.
  pose proof (f_equal snd K) as Rate.
  unfold knobs in Rate. cbn [snd] in Rate.
  assert (P : forall w, same_physics (star_of w st)
                          (star_of w (ageStars 4e7 16 st))).
  { intros [|]; assumption. }
  unfold star_of in S1, S2, P1, P2.
  destruct (overfill_ext_physics st _ P Sep) as [X1 X2].
  rewrite Hb in B. rewrite E1 in S1, P1. rewrite E2 in S2, P2.
  assert (M1 : massCurrent (star1 (ageStars 4e7 16 st)) = 8).
  { destruct P1 as (_ & M & _). rewrite M.
    apply massCurrent_makeStar. lra. }
  assert (M2 : massCurrent (star2 (ageStars 4e7 16 st)) = 1).
  { destruct P2 as (_ & M & _). rewrite M.
    apply massCurrent_makeStar. lra. }
  assert (N1 : ended (star1 (ageStars 4e7 16 st)) = false).
  { rewrite S1. apply young_star_lives, tTotal_makeStar_8. }
  assert (N2 : ended (star2 (ageStars 4e7 16 st)) = false).
  { rewrite S2. apply young_star_lives, tTotal_makeStar_1. }
  split; [exact M1 |]. split; [exact M2 |].
  split; [rewrite Rate, Er; unfold MYR, YEAR; lra |].
  unfold integrate. cbv zeta.
  apply doMassTransfer_donor1.
  - exact B.
  - exact N1.
  - exact N2.
  - rewrite X1. exact O1.
  - rewrite X2. exact O2.
Qed.

(** In the real-number model the step of 4e7 years on the close binary
    [rlofState] reaches that call: after the ageing loop neither star
    has ended, only the primary overfills, and [doMassTransfer] calls
    [transferMass] on the two stars, of 8 and 1 solar masses, with
    [dm = 8]. *)
Lemma rlof_step_calls_transferMass :
  let aged := ageStars 4e7 16 rlofState in
  massCurrent (star1 aged) = 8 /\
  massCurrent (star2 aged) = 1 /\
  transferRatePerYear aged * 4e7 = 8 /\
  integrate 4e7 16 rlofState =
    set_stars
      (fst (transferMass (star1 aged) (star2 aged)
              (transferRatePerYear aged * 4e7)))
      (snd (transferMass (star1 aged) (star2 aged)
              (transferRatePerYear aged * 4e7))) aged.
Proof.
  destruct rlofState_fields as (E1 & E2 & Hb & Es & Er).
  destruct rlofState_overfill as [O1 O2].
  exact (close_binary_step rlofState E1 E2 Hb Er O1 O2).
Qed.
